(** * glyphsLib.builder.custom_params: a shallow embedding

    The module translates "custom parameters" between a Glyphs object
    (GSFont, GSFontMaster, GSInstance) and a UFO (info attributes plus the
    free-form lib).  The Python code mutates the two objects through two
    recording proxies; here every method is a computation in a monad that
    threads the pair of proxies and keeps the state reached when an
    exception is raised, as Python does. *)

From Stdlib Require Import String Ascii.
From Stdlib Require DecimalString DecimalZ.
From Stdlib Require Import ZArith NArith List Bool Lia.
From Stdlib Require Import Orders Sorting.Sorted Sorting.Permutation Sorting.Mergesort.
Import ListNotations.
Open Scope Z_scope.
Set Warnings "-register-all".

(** ** Python strings

    A Python (unicode) string is a sequence of code points. *)

Definition ustr := list N.

Definition U (s : string) : ustr :=
  map N_of_ascii (list_ascii_of_string s).

Fixpoint ustr_eqb (a b : ustr) : bool :=
  match a, b with
  | [], [] => true
  | x :: a', y :: b' => N.eqb x y && ustr_eqb a' b'
  | _, _ => false
  end.

(** [s.startswith(p)] *)
Fixpoint startswith (s p : ustr) : bool :=
  match p, s with
  | [], _ => true
  | c :: p', d :: s' => N.eqb c d && startswith s' p'
  | _ :: _, [] => false
  end.

(** [s.replace(old, new)] for a non-empty [old]: non-overlapping occurrences,
    leftmost first.  [skip] counts the characters of a matched occurrence
    that are still to be dropped. *)
Fixpoint replace_from (old new : ustr) (skip : nat) (s : ustr) : ustr :=
  match s with
  | [] => []
  | c :: s' =>
      match skip with
      | S k => replace_from old new k s'
      | O =>
          if startswith s old
          then new ++ replace_from old new (Nat.pred (length old)) s'
          else c :: replace_from old new O s'
      end
  end.

Definition str_replace (s old new : ustr) : ustr := replace_from old new O s.

Definition mem_ustr (x : ustr) (l : list ustr) : bool := existsb (ustr_eqb x) l.

(** ** Python values

    The values a property list can hold: None, booleans, integers, strings,
    lists and string-keyed dictionaries (kept in insertion order). *)

Inductive value : Type :=
| VNone
| VBool (b : bool)
| VInt (z : Z)
| VStr (s : ustr)
| VList (l : list value)
| VDict (d : list (ustr * value)).

Definition dict := list (ustr * value).

(** [name in d] *)
Fixpoint dict_has {A} (d : list (ustr * A)) (k : ustr) : bool :=
  match d with
  | [] => false
  | (k', _) :: d' => ustr_eqb k k' || dict_has d' k
  end.

Fixpoint dict_get {A} (d : list (ustr * A)) (k : ustr) : option A :=
  match d with
  | [] => None
  | (k', v) :: d' => if ustr_eqb k k' then Some v else dict_get d' k
  end.

(** [d[k] = v]: an existing key keeps its place, a new one goes last. *)
Fixpoint dict_set {A} (d : list (ustr * A)) (k : ustr) (v : A) : list (ustr * A) :=
  match d with
  | [] => [(k, v)]
  | (k', v') :: d' =>
      if ustr_eqb k k' then (k', v) :: d' else (k', v') :: dict_set d' k v
  end.

(** [a == b] on values: [True == 1] and [False == 0] as in Python, lists
    elementwise, dictionaries as unordered mappings. *)
Fixpoint py_eq (a b : value) {struct a} : bool :=
  match a, b with
  | VNone, VNone => true
  | VBool x, VBool y => Bool.eqb x y
  | VBool x, VInt y => Z.eqb (Z.b2z x) y
  | VInt x, VBool y => Z.eqb x (Z.b2z y)
  | VInt x, VInt y => Z.eqb x y
  | VStr x, VStr y => ustr_eqb x y
  | VList l1, VList l2 =>
      (fix go (l1 l2 : list value) {struct l1} : bool :=
         match l1, l2 with
         | [], [] => true
         | x :: l1', y :: l2' => py_eq x y && go l1' l2'
         | _, _ => false
         end) l1 l2
  | VDict d1, VDict d2 =>
      Nat.eqb (length d1) (length d2) &&
      (fix all (d1 : list (ustr * value)) : bool :=
         match d1 with
         | [] => true
         | (k, v) :: d1' =>
             (fix find (d2 : list (ustr * value)) : bool :=
                match d2 with
                | [] => false
                | (k', v') :: d2' =>
                    if ustr_eqb k k' then py_eq v v' else find d2'
                end) d2 && all d1'
         end) d1
  | _, _ => false
  end.

(** [x in l] for a list [l] *)
Definition py_in_list (x : value) (l : list value) : bool :=
  existsb (fun y => py_eq y x) l.

(** Truth value of an object. *)
Definition truthy (v : value) : bool :=
  match v with
  | VNone => false
  | VBool b => b
  | VInt z => negb (Z.eqb z 0)
  | VStr s => match s with [] => false | _ => true end
  | VList l => match l with [] => false | _ => true end
  | VDict d => match d with [] => false | _ => true end
  end.

Definition is_None (v : value) : bool :=
  match v with VNone => true | _ => false end.

(** ** Exceptions and results *)

Inductive exn : Type :=
| RuntimeError
| TypeError
| ValueError
| KeyError
| AttributeError.

Inductive res (A : Type) : Type :=
| Ok (a : A)
| Raise (e : exn).
Arguments Ok {A} a.
Arguments Raise {A} e.

Definition res_bind {A B} (r : res A) (f : A -> res B) : res B :=
  match r with
  | Ok a => f a
  | Raise e => Raise e
  end.

Fixpoint res_map {A B} (f : A -> res B) (l : list A) : res (list B) :=
  match l with
  | [] => Ok []
  | x :: l' =>
      res_bind (f x) (fun y => res_bind (res_map f l') (fun ys => Ok (y :: ys)))
  end.

(** ** The objects

    A Glyphs object: its class name, its ordered list of custom parameters
    (names may repeat) and its plain attributes.  A UFO: the info object's
    attributes (an attribute that exists and is unset holds None), the lib
    and the text of the features. *)

Record GSObject : Type := mkGSObject {
  class_name : ustr;
  customParameters : list (ustr * value);
  attributes : dict
}.

Record UFO : Type := mkUFO {
  info : dict;
  lib : dict;
  features_text : value
}.

(** The state of one pass: the fields of the GlyphsObjectProxy and of the
    UFOProxy, their owners included (both are mutated in place). *)
Record world : Type := mkWorld {
  glyphs_owner : GSObject;
  sub_key : ustr;
  glyphs_lookup : list (ustr * list value);
  glyphs_handled : list ustr;
  ufo_owner : UFO;
  ufo_handled : list ustr
}.

Definition M (A : Type) : Type := world -> world * res A.

Definition ret {A} (a : A) : M A := fun w => (w, Ok a).
Definition raise {A} (e : exn) : M A := fun w => (w, Raise e).
Definition bind {A B} (m : M A) (f : A -> M B) : M B :=
  fun w =>
    match m w with
    | (w', Ok a) => f a w'
    | (w', Raise e) => (w', Raise e)
    end.
Definition lift {A} (r : res A) : M A := fun w => (w, r).
Definition get_world : M world := fun w => (w, Ok w).
Definition modify (f : world -> world) : M unit := fun w => (f w, Ok tt).

Declare Scope py_scope.
Delimit Scope py_scope with py.
Notation "x <- c1 ;; c2" := (bind c1 (fun x => c2))
  (at level 100, c1 at next level, right associativity) : py_scope.
Notation "c1 ;; c2" := (bind c1 (fun _ => c2))
  (at level 100, right associativity) : py_scope.
Open Scope py_scope.

(** [for x in l: f x] *)
Fixpoint for_each {A} (l : list A) (f : A -> M unit) : M unit :=
  match l with
  | [] => ret tt
  | x :: l' => f x ;; for_each l' f
  end.

Definition set_glyphs_owner (o : GSObject) (w : world) : world :=
  mkWorld o (sub_key w) (glyphs_lookup w) (glyphs_handled w)
          (ufo_owner w) (ufo_handled w).
Definition set_glyphs_lookup (l : list (ustr * list value)) (w : world) : world :=
  mkWorld (glyphs_owner w) (sub_key w) l (glyphs_handled w)
          (ufo_owner w) (ufo_handled w).
Definition set_glyphs_handled (h : list ustr) (w : world) : world :=
  mkWorld (glyphs_owner w) (sub_key w) (glyphs_lookup w) h
          (ufo_owner w) (ufo_handled w).
Definition set_ufo_owner (u : UFO) (w : world) : world :=
  mkWorld (glyphs_owner w) (sub_key w) (glyphs_lookup w) (glyphs_handled w)
          u (ufo_handled w).
Definition set_ufo_handled (h : list ustr) (w : world) : world :=
  mkWorld (glyphs_owner w) (sub_key w) (glyphs_lookup w) (glyphs_handled w)
          (ufo_owner w) h.

(** [s.add(x)] on a set kept as a duplicate-free list *)
Definition set_add (x : ustr) (s : list ustr) : list ustr :=
  if mem_ustr x s then s else s ++ [x].

Definition identity (v : value) : res value := Ok v.

(** ** GlyphsObjectProxy *)

Module GlyphsObjectProxy.

(** [self._lookup[name].append(value)] on a [defaultdict(list)] *)
Definition lookup_append (lk : list (ustr * list value)) (name : ustr) (v : value)
  : list (ustr * list value) :=
  match dict_get lk name with
  | Some vs => dict_set lk name (vs ++ [v])
  | None => dict_set lk name [v]
  end.

Definition build_lookup (params : list (ustr * value)) : list (ustr * list value) :=
  fold_left (fun lk p => lookup_append lk (fst p) (snd p)) params [].

(** [self._lookup[key]]: a missing key is created with an empty list. *)
Definition lookup_item (key : ustr) : M (list value) :=
  w <- get_world ;;
  match dict_get (glyphs_lookup w) key with
  | Some vs => ret vs
  | None =>
      modify (set_glyphs_lookup (dict_set (glyphs_lookup w) key [])) ;;
      ret []
  end.

Definition init (glyphs_object : GSObject) (u : UFO) (uh : list ustr) : world :=
  mkWorld glyphs_object
          (class_name glyphs_object ++ U ".")
          (build_lookup (customParameters glyphs_object))
          []
          u uh.

Definition get_attribute_value (key : ustr) : M value :=
  w <- get_world ;;
  match dict_get (attributes (glyphs_owner w)) key with
  | None => ret VNone
  | Some v => ret v
  end.

Definition set_attribute_value (key : ustr) (v : value) : M unit :=
  w <- get_world ;;
  let o := glyphs_owner w in
  if dict_has (attributes o) key
  then modify (set_glyphs_owner
                 (mkGSObject (class_name o) (customParameters o)
                             (dict_set (attributes o) key v)))
  else ret tt.

Definition mark_handled (key : ustr) : M unit :=
  modify (fun w => set_glyphs_handled (set_add key (glyphs_handled w)) w).

Definition get_custom_value (key : ustr) : M value :=
  mark_handled key ;;
  values <- lookup_item key ;;
  if Nat.ltb 1 (length values) then raise RuntimeError
  else match values with
       | v :: _ => ret v
       | [] => ret VNone
       end.

Definition get_custom_values (key : ustr) : M value :=
  mark_handled key ;;
  values <- lookup_item key ;;
  ret (VList values).

Definition set_custom_value (key : ustr) (v : value) : M unit :=
  modify (fun w =>
    let o := glyphs_owner w in
    set_glyphs_owner
      (mkGSObject (class_name o) (customParameters o ++ [(key, v)])
                  (attributes o)) w).

Definition set_custom_values (key : ustr) (values : list value) : M unit :=
  for_each values (fun v => set_custom_value key v).

Definition unhandled_custom_parameters (w : world) : list (ustr * value) :=
  filter (fun p => negb (mem_ustr (fst p) (glyphs_handled w)))
         (customParameters (glyphs_owner w)).

End GlyphsObjectProxy.

(** ** Python built-ins used by the value transforms *)

(** Characters for which [str.isspace()] holds. *)
Definition is_space (c : N) : bool :=
  ((9 <=? c) && (c <=? 13) || (28 <=? c) && (c <=? 32) || (c =? 133) ||
   (c =? 160) || (c =? 5760) || (8192 <=? c) && (c <=? 8202) ||
   (c =? 8232) || (c =? 8233) || (c =? 8239) || (c =? 8287) ||
   (c =? 12288))%N.

Fixpoint lstrip (s : ustr) : ustr :=
  match s with
  | c :: s' => if is_space c then lstrip s' else s
  | [] => []
  end.

Definition rstrip (s : ustr) : ustr := rev (lstrip (rev s)).

Definition digit_of (c : N) : option Z :=
  if ((48 <=? c) && (c <=? 57))%N then Some (Z.of_N c - 48) else None.

(** The blanks that [int()] skips around a number: those of
    [str.isspace()] but for the separators U+001C to U+001F. *)
Definition is_int_space (c : N) : bool :=
  (is_space c && negb ((28 <=? c) && (c <=? 31)))%N.

Fixpoint lstrip_int (s : ustr) : ustr :=
  match s with
  | c :: s' => if is_int_space c then lstrip_int s' else s
  | [] => []
  end.

Definition strip_int (s : ustr) : ustr := rev (lstrip_int (rev (lstrip_int s))).

(** The digits that follow a digit: one underscore may stand between two
    digits. *)
Fixpoint parse_digits (acc : Z) (s : ustr) : option Z :=
  match s with
  | [] => Some acc
  | c :: s' =>
      match digit_of c with
      | Some d => parse_digits (10 * acc + d) s'
      | None =>
          if (c =? 95)%N
          then match s' with
               | c' :: _ =>
                   match digit_of c' with
                   | Some _ => parse_digits acc s'
                   | None => None
                   end
               | [] => None
               end
          else None
      end
  end.

(** A number starts with a digit. *)
Definition parse_number (s : ustr) : option Z :=
  match s with
  | c :: _ =>
      match digit_of c with
      | Some _ => parse_digits 0 s
      | None => None
      end
  | [] => None
  end.

(** [int(s)] for a string, as Python 3 has it: surrounding blanks, an
    optional sign, decimal digits with single underscores allowed between
    them.  The digits are 0 to 9: the other decimal digits of Unicode,
    which [int()] takes as well, are refused here. *)
Definition int_of_ustr (s : ustr) : option Z :=
  match strip_int s with
  | [] => None
  | c :: ds =>
      if (c =? 45)%N then option_map Z.opp (parse_number ds)
      else if (c =? 43)%N then parse_number ds
      else parse_number (c :: ds)
  end.

Definition py_int (v : value) : res value :=
  match v with
  | VInt z => Ok (VInt z)
  | VBool b => Ok (VInt (Z.b2z b))
  | VStr s => match int_of_ustr s with
              | Some z => Ok (VInt z)
              | None => Raise ValueError
              end
  | _ => Raise TypeError
  end.

Definition py_abs (v : value) : res value :=
  match v with
  | VInt z => Ok (VInt (Z.abs z))
  | VBool b => Ok (VInt (Z.b2z b))
  | _ => Raise TypeError
  end.

Definition py_not (v : value) : value := VBool (negb (truthy v)).

(** [for x in v]: the elements of a list, the keys of a dictionary, the
    characters of a string. *)
Definition py_iter (v : value) : res (list value) :=
  match v with
  | VList l => Ok l
  | VDict d => Ok (map (fun kv => VStr (fst kv)) d)
  | VStr s => Ok (map (fun c => VStr [c]) s)
  | _ => Raise TypeError
  end.

(** [str(z)] for an integer *)
Definition str_of_Z (z : Z) : ustr :=
  U (DecimalString.NilZero.string_of_int (Z.to_int z)).

(** ** What the module imports

    [glyphsLib.builder.constants], [glyphsLib.util], [.filters] and
    [.features] are other files of the package.  Their constants and
    functions are the fields of a class; [py_repr] stands for Python's
    [str()] of a list or a dictionary, which is not spelled out. *)

Class Imports : Type := {
  GLYPHS_PREFIX : ustr;
  PUBLIC_PREFIX : ustr;
  UFO2FT_FILTERS_KEY : ustr;
  UFO2FT_USE_PROD_NAMES_KEY : ustr;
  CODEPAGE_RANGES : list (Z * Z);
  REVERSE_CODEPAGE_RANGES : list (Z * Z);
  bin_to_int_list : value -> res value;
  int_list_to_bin : value -> res value;
  parse_glyphs_filter : value -> bool -> res value;
  write_glyphs_filter : value -> res (value * bool);
  replace_feature : value -> value -> value -> res value;
  py_repr : value -> ustr
}.

Definition py_str `{Imports} (v : value) : ustr :=
  match v with
  | VNone => U "None"
  | VBool true => U "True"
  | VBool false => U "False"
  | VInt z => str_of_Z z
  | VStr s => s
  | _ => py_repr v
  end.

Definition CUSTOM_PARAM_PREFIX `{Imports} : ustr :=
  GLYPHS_PREFIX ++ U "customParameter.".

(** ** UFOProxy *)

Module UFOProxy.
Section Methods.
Context `{Imports}.

Definition init (u : UFO) (w : world) : world :=
  set_ufo_handled [] (set_ufo_owner u w).

Definition has_info_attr (name : ustr) : M bool :=
  w <- get_world ;; ret (dict_has (info (ufo_owner w)) name).

Definition get_info_value (name : ustr) : M value :=
  w <- get_world ;;
  match dict_get (info (ufo_owner w)) name with
  | Some v => ret v
  | None => raise AttributeError
  end.

Definition set_info_value (name : ustr) (v : value) : M unit :=
  modify (fun w =>
    let u := ufo_owner w in
    set_ufo_owner (mkUFO (dict_set (info u) name v) (lib u) (features_text u)) w).

Definition has_lib_key (name : ustr) : M bool :=
  w <- get_world ;; ret (dict_has (lib (ufo_owner w)) name).

Definition get_lib_value (name : ustr) : M value :=
  w <- get_world ;;
  match dict_get (lib (ufo_owner w)) name with
  | None => ret VNone
  | Some v =>
      modify (fun w => set_ufo_handled (set_add name (ufo_handled w)) w) ;;
      ret v
  end.

Definition set_lib_value (name : ustr) (v : value) : M unit :=
  modify (fun w =>
    let u := ufo_owner w in
    set_ufo_owner (mkUFO (info u) (dict_set (lib u) name v) (features_text u)) w).

Definition unhandled_lib_items (w : world) : list (ustr * value) :=
  filter (fun kv => startswith (fst kv) CUSTOM_PARAM_PREFIX &&
                    negb (mem_ustr (fst kv) (ufo_handled w)))
         (lib (ufo_owner w)).

End Methods.
End UFOProxy.

(** ** ParamHandler: the generic two-way handler *)

Module ParamHandler.

Record t : Type := mk {
  glyphs_name : ustr;
  glyphs_long_name : option ustr;
  glyphs_multivalued : bool;
  ufo_name : ustr;
  ufo_prefix : ustr;
  ufo_info : bool;
  ufo_default : value;
  value_to_ufo : value -> res value;
  value_to_glyphs : value -> res value
}.

Section Methods.
Context `{Imports}.

(** [ParamHandler.__init__]: [ufo_name or glyphs_name]. *)
Definition init (glyphs_name : ustr) (ufo_name : option ustr)
    (glyphs_long_name : option ustr) (glyphs_multivalued : bool)
    (ufo_prefix : ustr) (ufo_info : bool) (ufo_default : value)
    (value_to_ufo value_to_glyphs : value -> res value) : t :=
  mk glyphs_name glyphs_long_name glyphs_multivalued
     (match ufo_name with
      | Some (c :: n) => c :: n
      | _ => glyphs_name
      end)
     ufo_prefix ufo_info ufo_default value_to_ufo value_to_glyphs.

Definition getter (self : t) : ustr -> M value :=
  if glyphs_multivalued self
  then GlyphsObjectProxy.get_custom_values
  else GlyphsObjectProxy.get_custom_value.

Definition _read_from_glyphs (self : t) : M value :=
  small_name_value <- getter self (glyphs_name self) ;;
  if negb (is_None small_name_value) then ret small_name_value
  else match glyphs_long_name self with
       | Some long => getter self long
       | None => ret VNone
       end.

Definition _write_to_glyphs (self : t) (v : value) : M unit :=
  if glyphs_multivalued self
  then values <- lift (py_iter v) ;;
       GlyphsObjectProxy.set_custom_values (glyphs_name self) values
  else GlyphsObjectProxy.set_custom_value (glyphs_name self) v.

(** The lib key of the handler: [ufo_prefix] (with the sub-key of the
    object when it is the custom parameter prefix) and [ufo_name]. *)
Definition lib_key (self : t) (sub_key : ustr) : ustr :=
  (if ustr_eqb (ufo_prefix self) CUSTOM_PARAM_PREFIX
   then ufo_prefix self ++ sub_key
   else ufo_prefix self) ++ ufo_name self.

Definition _read_from_ufo (self : t) : M value :=
  has <- UFOProxy.has_info_attr (ufo_name self) ;;
  if ufo_info self && has
  then UFOProxy.get_info_value (ufo_name self)
  else w <- get_world ;; UFOProxy.get_lib_value (lib_key self (sub_key w)).

Definition _write_to_ufo (self : t) (v : value) : M unit :=
  if negb (is_None (ufo_default self)) && py_eq v (ufo_default self)
  then ret tt
  else
    has <- UFOProxy.has_info_attr (ufo_name self) ;;
    if ufo_info self && has
    then UFOProxy.set_info_value (ufo_name self) v
    else w <- get_world ;; UFOProxy.set_lib_value (lib_key self (sub_key w)) v.

(** [to_glyphs] and [to_ufo] call [self._write_to_glyphs] and
    [self._read_from_glyphs], which a subclass may override: the method
    in force is an argument. *)
Definition to_glyphs_via (write_to_glyphs : t -> value -> M unit) (self : t)
  : M unit :=
  ufo_value <- _read_from_ufo self ;;
  if is_None ufo_value then ret tt
  else glyphs_value <- lift (value_to_glyphs self ufo_value) ;;
       write_to_glyphs self glyphs_value.

Definition to_ufo_via (read_from_glyphs : t -> M value) (self : t) : M unit :=
  glyphs_value <- read_from_glyphs self ;;
  if is_None glyphs_value then ret tt
  else ufo_value <- lift (value_to_ufo self glyphs_value) ;;
       _write_to_ufo self ufo_value.

Definition to_glyphs : t -> M unit := to_glyphs_via _write_to_glyphs.
Definition to_ufo : t -> M unit := to_ufo_via _read_from_glyphs.

End Methods.
End ParamHandler.

(** ** Specialized handlers *)

Module EmptyListDefaultParamHandler.
Section Methods.
Context `{Imports}.

Definition to_glyphs (self : ParamHandler.t) : M unit :=
  ufo_value <- ParamHandler._read_from_ufo self ;;
  if is_None ufo_value || py_eq ufo_value (VList []) then ret tt
  else glyphs_value <- lift (ParamHandler.value_to_glyphs self ufo_value) ;;
       ParamHandler._write_to_glyphs self glyphs_value.

Definition to_ufo : ParamHandler.t -> M unit := ParamHandler.to_ufo.

End Methods.
End EmptyListDefaultParamHandler.

Module MiscParamHandler.
Section Methods.
Context `{Imports}.

Definition _read_from_glyphs (self : ParamHandler.t) : M value :=
  GlyphsObjectProxy.get_attribute_value (ParamHandler.glyphs_name self).

Definition _write_to_glyphs (self : ParamHandler.t) (v : value) : M unit :=
  GlyphsObjectProxy.set_attribute_value (ParamHandler.glyphs_name self) v.

Definition to_glyphs : ParamHandler.t -> M unit :=
  ParamHandler.to_glyphs_via _write_to_glyphs.
Definition to_ufo : ParamHandler.t -> M unit :=
  ParamHandler.to_ufo_via _read_from_glyphs.

End Methods.
End MiscParamHandler.

(** [x in c] *)
Definition py_in (x c : value) : res bool :=
  match c with
  | VList l => Ok (py_in_list x l)
  | VDict d => match x with
               | VStr k => Ok (dict_has d k)
               | VList _ | VDict _ => Raise TypeError
               | _ => Ok false
               end
  | VStr s => match x with
              | VStr p =>
                  Ok ((fix sub (s : ustr) : bool :=
                         startswith s p ||
                         match s with [] => false | _ :: s' => sub s' end) s)
              | _ => Raise TypeError
              end
  | _ => Raise TypeError
  end.

Module OS2SelectionParamHandler.
Section Methods.
Context `{Imports}.

Definition flags : list (ustr * Z) :=
  [ (U "Has WWS Names", 8);
    (U "Use Typo Metrics", 7) ].

Definition to_glyphs : M unit :=
  ufo_flags <- UFOProxy.get_info_value (U "openTypeOS2Selection") ;;
  if is_None ufo_flags then ret tt
  else for_each flags (fun '(glyphs_name, v) =>
         present <- lift (py_in (VInt v) ufo_flags) ;;
         if present
         then GlyphsObjectProxy.set_custom_value glyphs_name (VBool true)
         else ret tt).

(** [selection.append(value)] *)
Definition list_append (selection : value) (v : value) : res value :=
  match selection with
  | VList l => Ok (VList (l ++ [v]))
  | _ => Raise AttributeError
  end.

(** The body of the loop of [to_ufo]. *)
Definition to_ufo_flag (flag : ustr * Z) : M unit :=
  let '(glyphs_name, v) := flag in
  g <- GlyphsObjectProxy.get_custom_value glyphs_name ;;
  if truthy g then
    selection <- UFOProxy.get_info_value (U "openTypeOS2Selection") ;;
    let selection := if is_None selection then VList [] else selection in
    present <- lift (py_in (VInt v) selection) ;;
    selection <- (if negb present then lift (list_append selection (VInt v))
                  else ret selection) ;;
    UFOProxy.set_info_value (U "openTypeOS2Selection") selection
  else ret tt.

Definition to_ufo : M unit := for_each flags to_ufo_flag.

End Methods.
End OS2SelectionParamHandler.

Module FilterParamHandler.
Section Methods.
Context `{Imports}.

Definition glyphs_names : list ustr := [U "Filter"; U "PreFilter"].
Definition ufo_names : list ustr := [UFO2FT_FILTERS_KEY].

Definition to_glyphs : M unit :=
  ufo_filters <- UFOProxy.get_lib_value UFO2FT_FILTERS_KEY ;;
  if is_None ufo_filters then ret tt
  else
    filters <- lift (py_iter ufo_filters) ;;
    for_each filters (fun ufo_filter =>
      r <- lift (write_glyphs_filter ufo_filter) ;;
      let '(glyphs_filter, is_pre) := r in
      values <- lift (py_iter glyphs_filter) ;;
      GlyphsObjectProxy.set_custom_values
        (if is_pre then U "PreFilter" else U "Filter") values).

(** [existing.extend(ufo_filters)]: the list held by the lib under
    [key] is extended in place. *)
Definition extend_lib_list (key : ustr) (existing : value) (more : list value)
  : M unit :=
  match existing with
  | VList l => UFOProxy.set_lib_value key (VList (l ++ more))
  | _ => raise AttributeError
  end.

Definition to_ufo : M unit :=
  pre <- GlyphsObjectProxy.get_custom_values (U "PreFilter") ;;
  pre <- lift (py_iter pre) ;;
  pre_filters <- lift (res_map (fun f => parse_glyphs_filter f true) pre) ;;
  fil <- GlyphsObjectProxy.get_custom_values (U "Filter") ;;
  fil <- lift (py_iter fil) ;;
  filters <- lift (res_map (fun f => parse_glyphs_filter f false) fil) ;;
  let ufo_filters := pre_filters ++ filters in
  match ufo_filters with
  | [] => ret tt
  | _ =>
      has <- UFOProxy.has_lib_key UFO2FT_FILTERS_KEY ;;
      (if negb has then UFOProxy.set_lib_value UFO2FT_FILTERS_KEY (VList [])
       else ret tt) ;;
      existing <- UFOProxy.get_lib_value UFO2FT_FILTERS_KEY ;;
      extend_lib_list UFO2FT_FILTERS_KEY existing ufo_filters
  end.

End Methods.
End FilterParamHandler.

(** [re.split("\s*;\s*", s, 1)]: the leftmost match ends the blanks that
    precede the first semicolon and takes the blanks that follow it. *)
Fixpoint split_at_semicolon (s : ustr) : option (ustr * ustr) :=
  match s with
  | [] => None
  | c :: s' =>
      if (c =? 59)%N then Some ([], s')
      else option_map (fun ab => (c :: fst ab, snd ab)) (split_at_semicolon s')
  end.

Definition re_split_semicolon (v : value) : res (list value) :=
  match v with
  | VStr s =>
      match split_at_semicolon s with
      | Some (a, b) => Ok [VStr (rstrip a); VStr (lstrip b)]
      | None => Ok [VStr s]
      end
  | _ => Raise TypeError
  end.

Module ReplaceFeatureParamHandler.
Section Methods.
Context `{Imports}.

Definition set_features_text (text : value) : M unit :=
  modify (fun w =>
    let u := ufo_owner w in
    set_ufo_owner (mkUFO (info u) (lib u) text) w).

(** The body of the loop of [to_ufo]. *)
Definition to_ufo_value (v : value) : M unit :=
  parts <- lift (re_split_semicolon v) ;;
  match parts with
  | [tag; repl] =>
      w <- get_world ;;
      let text := features_text (ufo_owner w) in
      new_text <- lift (replace_feature tag repl
                          (if truthy text then text else VStr [])) ;;
      set_features_text new_text
  | _ => raise ValueError
  end.

Definition to_ufo : M unit :=
  values <- GlyphsObjectProxy.get_custom_values (U "Replace Feature") ;;
  values <- lift (py_iter values) ;;
  for_each values to_ufo_value.

Definition to_glyphs : M unit := ret tt.

End Methods.
End ReplaceFeatureParamHandler.

(** ** The GASP table transforms *)

(** [sorted(value.items())] on pairs of integers: tuples compare
    lexicographically, and the sort is a stable merge sort. *)
Module ItemOrder <: Orders.TotalLeBool.
Definition t : Type := (Z * Z)%type.
Definition leb (a b : t) : bool :=
  (fst a <? fst b) || ((fst a =? fst b) && (snd a <=? snd b)).
Theorem leb_total : forall a b, leb a b = true \/ leb b a = true.
Proof.
  intros [a1 a2] [b1 b2]; unfold leb; simpl.
  destruct (Z.ltb_spec a1 b1), (Z.ltb_spec b1 a1), (Z.eqb_spec a1 b1),
    (Z.eqb_spec b1 a1), (Z.leb_spec a2 b2), (Z.leb_spec b2 a2);
    simpl; auto; lia.
Qed.
End ItemOrder.

Module ItemSort := Mergesort.Sort ItemOrder.

Definition sorted : list (Z * Z) -> list (Z * Z) := ItemSort.sort.

(** [d[k] = v] for a dictionary with integer keys *)
Fixpoint zdict_set (d : list (Z * Z)) (k v : Z) : list (Z * Z) :=
  match d with
  | [] => [(k, v)]
  | (k', v') :: d' =>
      if k =? k' then (k', v) :: d' else (k', v') :: zdict_set d' k v
  end.

Definition py_int_Z (v : value) : res Z :=
  res_bind (py_int v) (fun r => match r with VInt z => Ok z | _ => Raise TypeError end).

(** [{int(k): int(v) for k, v in value.items()}] *)
Fixpoint int_items (acc : list (Z * Z)) (items : list (ustr * value))
  : res (list (Z * Z)) :=
  match items with
  | [] => Ok acc
  | (k, v) :: items' =>
      res_bind (py_int_Z (VStr k)) (fun ik =>
      res_bind (py_int_Z v) (fun iv =>
      int_items (zdict_set acc ik iv) items'))
  end.

(** [record[key]] *)
Definition py_getitem (record : value) (key : ustr) : res value :=
  match record with
  | VDict d => match dict_get d key with
               | Some v => Ok v
               | None => Raise KeyError
               end
  | _ => Raise TypeError
  end.

Section GaspTable.
Context `{Imports}.

Definition gasp_record (item : Z * Z) : res value :=
  res_bind (bin_to_int_list (VInt (snd item))) (fun behavior =>
  Ok (VDict [ (U "rangeMaxPPEM", VInt (fst item));
              (U "rangeGaspBehavior", behavior) ])).

Definition to_ufo_gasp_table (v : value) : res value :=
  match v with
  | VDict d =>
      res_bind (int_items [] d) (fun value =>
      res_bind (res_map gasp_record (sorted value)) (fun gasp_records =>
      Ok (VList gasp_records)))
  | _ => Raise AttributeError
  end.

Fixpoint gasp_entries (acc : dict) (records : list value) : res dict :=
  match records with
  | [] => Ok acc
  | record :: records' =>
      res_bind (py_getitem record (U "rangeMaxPPEM")) (fun ppem =>
      res_bind (py_getitem record (U "rangeGaspBehavior")) (fun behavior =>
      res_bind (int_list_to_bin behavior) (fun bin =>
      gasp_entries (dict_set acc (py_str ppem) bin) records')))
  end.

Definition to_glyphs_gasp_table (v : value) : res value :=
  res_bind (py_iter v) (fun records =>
  res_bind (gasp_entries [] records) (fun d => Ok (VDict d))).

End GaspTable.

(** ** The registry *)

Inductive Handler : Type :=
| Generic (h : ParamHandler.t)
| EmptyListDefault (h : ParamHandler.t)
| Misc (h : ParamHandler.t)
| OS2Selection
| Filter
| ReplaceFeature.

Section Registry.
Context `{Imports}.

Definition handler_to_ufo (h : Handler) : M unit :=
  match h with
  | Generic p => ParamHandler.to_ufo p
  | EmptyListDefault p => EmptyListDefaultParamHandler.to_ufo p
  | Misc p => MiscParamHandler.to_ufo p
  | OS2Selection => OS2SelectionParamHandler.to_ufo
  | Filter => FilterParamHandler.to_ufo
  | ReplaceFeature => ReplaceFeatureParamHandler.to_ufo
  end.

Definition handler_to_glyphs (h : Handler) : M unit :=
  match h with
  | Generic p => ParamHandler.to_glyphs p
  | EmptyListDefault p => EmptyListDefaultParamHandler.to_glyphs p
  | Misc p => MiscParamHandler.to_glyphs p
  | OS2Selection => OS2SelectionParamHandler.to_glyphs
  | Filter => FilterParamHandler.to_glyphs
  | ReplaceFeature => ReplaceFeatureParamHandler.to_glyphs
  end.

Definition GLYPHS_UFO_CUSTOM_PARAMS : list (ustr * ustr) :=
  [ (U "hheaAscender", U "openTypeHheaAscender");
    (U "hheaDescender", U "openTypeHheaDescender");
    (U "hheaLineGap", U "openTypeHheaLineGap");
    (U "compatibleFullName", U "openTypeNameCompatibleFullName");
    (U "description", U "openTypeNameDescription");
    (U "license", U "openTypeNameLicense");
    (U "licenseURL", U "openTypeNameLicenseURL");
    (U "preferredFamilyName", U "openTypeNamePreferredFamilyName");
    (U "preferredSubfamilyName", U "openTypeNamePreferredSubfamilyName");
    (U "sampleText", U "openTypeNameSampleText");
    (U "WWSFamilyName", U "openTypeNameWWSFamilyName");
    (U "WWSSubfamilyName", U "openTypeNameWWSSubfamilyName");
    (U "panose", U "openTypeOS2Panose");
    (U "fsType", U "openTypeOS2Type");
    (U "typoAscender", U "openTypeOS2TypoAscender");
    (U "typoDescender", U "openTypeOS2TypoDescender");
    (U "typoLineGap", U "openTypeOS2TypoLineGap");
    (U "unicodeRanges", U "openTypeOS2UnicodeRanges");
    (U "vendorID", U "openTypeOS2VendorID");
    (U "vheaVertTypoAscender", U "openTypeVheaVertTypoAscender");
    (U "vheaVertTypoDescender", U "openTypeVheaVertTypoDescender");
    (U "vheaVertTypoLineGap", U "openTypeVheaVertTypoLineGap");
    (U "blueScale", U "postscriptBlueScale");
    (U "blueShift", U "postscriptBlueShift");
    (U "isFixedPitch", U "postscriptIsFixedPitch");
    (U "underlinePosition", U "postscriptUnderlinePosition");
    (U "underlineThickness", U "postscriptUnderlineThickness") ].

Definition GLYPHS_UFO_CUSTOM_PARAMS_NO_SHORT_NAME : list ustr :=
  [ U "openTypeHheaCaretSlopeRun";
    U "openTypeVheaCaretSlopeRun";
    U "openTypeHheaCaretSlopeRise";
    U "openTypeVheaCaretSlopeRise";
    U "openTypeHheaCaretOffset";
    U "openTypeVheaCaretOffset";
    U "openTypeHeadLowestRecPPEM";
    U "openTypeHeadFlags";
    U "openTypeNameVersion";
    U "openTypeNameUniqueID";
    U "openTypeNameRecords";
    U "openTypeOS2FamilyClass";
    U "openTypeOS2SubscriptXSize";
    U "openTypeOS2SubscriptYSize";
    U "openTypeOS2SubscriptXOffset";
    U "openTypeOS2SubscriptYOffset";
    U "openTypeOS2SuperscriptXSize";
    U "openTypeOS2SuperscriptYSize";
    U "openTypeOS2SuperscriptXOffset";
    U "openTypeOS2SuperscriptYOffset";
    U "openTypeOS2StrikeoutSize";
    U "openTypeOS2StrikeoutPosition";
    U "postscriptFontName";
    U "postscriptFullName";
    U "postscriptSlantAngle";
    U "postscriptUniqueID";
    U "postscriptBlueFuzz";
    U "postscriptForceBold";
    U "postscriptDefaultWidthX";
    U "postscriptNominalWidthX";
    U "postscriptWeightName";
    U "postscriptDefaultCharacter";
    U "postscriptWindowsCharacterSet";
    U "macintoshFONDFamilyID";
    U "macintoshFONDName";
    U "trademark";
    U "styleMapFamilyName";
    U "styleMapStyleName" ].

(** [ParamHandler(...)] with the keyword defaults of [__init__] spelled
    out at each call. *)
Definition new := ParamHandler.init.

(** [CODEPAGE_RANGES[v]] *)
Definition table_getitem (table : list (Z * Z)) (v : value) : res value :=
  let find (z : Z) :=
    match List.find (fun kv => fst kv =? z) table with
    | Some kv => Ok (VInt (snd kv))
    | None => Raise KeyError
    end in
  match v with
  | VInt z => find z
  | VBool b => find (Z.b2z b)
  | VList _ | VDict _ => Raise TypeError
  | _ => Raise KeyError
  end.

(** [v in REVERSE_CODEPAGE_RANGES] *)
Definition table_has (table : list (Z * Z)) (v : value) : res bool :=
  match v with
  | VInt z => Ok (existsb (fun kv => fst kv =? z) table)
  | VBool b => Ok (existsb (fun kv => fst kv =? Z.b2z b) table)
  | VList _ | VDict _ => Raise TypeError
  | _ => Ok false
  end.

Definition codepage_to_ufo (v : value) : res value :=
  res_bind (py_iter v) (fun vs =>
  res_bind (res_map (table_getitem CODEPAGE_RANGES) vs) (fun r =>
  Ok (VList r))).

Fixpoint reverse_codepages (vs : list value) : res (list value) :=
  match vs with
  | [] => Ok []
  | v :: vs' =>
      res_bind (table_has REVERSE_CODEPAGE_RANGES v) (fun b =>
      if b then
        res_bind (table_getitem REVERSE_CODEPAGE_RANGES v) (fun r =>
        res_bind (reverse_codepages vs') (fun rs => Ok (r :: rs)))
      else reverse_codepages vs')
  end.

Definition codepage_to_glyphs (v : value) : res value :=
  res_bind (py_iter v) (fun vs =>
  res_bind (reverse_codepages vs) (fun r => Ok (VList r))).

Definition win_name (glyphs_name : ustr) : ustr :=
  U "openTypeOS2W" ++ tl glyphs_name.

Definition KNOWN_PARAM_HANDLERS : list Handler :=
  map (fun '(glyphs_name, ufo_name) =>
         Generic (new glyphs_name (Some ufo_name) (Some ufo_name) false
                      CUSTOM_PARAM_PREFIX true VNone identity identity))
      GLYPHS_UFO_CUSTOM_PARAMS
  ++
  map (fun name =>
         Generic (new name None None false
                      CUSTOM_PARAM_PREFIX true VNone identity identity))
      GLYPHS_UFO_CUSTOM_PARAMS_NO_SHORT_NAME
  ++
  [ Generic (new (U "versionString") (Some (U "openTypeNameVersion")) None false
                 CUSTOM_PARAM_PREFIX true VNone identity identity);
    EmptyListDefault
      (new (U "postscriptFamilyBlues") None None false
           CUSTOM_PARAM_PREFIX true VNone identity identity);
    EmptyListDefault
      (new (U "postscriptFamilyOtherBlues") None None false
           CUSTOM_PARAM_PREFIX true VNone identity identity);
    Generic (new (U "codePageRanges") (Some (U "openTypeOS2CodePageRanges"))
                 None false CUSTOM_PARAM_PREFIX true VNone
                 codepage_to_ufo codepage_to_glyphs);
    Generic (new (U "openTypeOS2CodePageRanges")
                 (Some (U "openTypeOS2CodePageRanges"))
                 None false CUSTOM_PARAM_PREFIX true VNone
                 identity (fun v => Ok v)) ]
  ++
  map (fun glyphs_name =>
         Generic (new glyphs_name (Some (win_name glyphs_name))
                      (Some (win_name glyphs_name)) false
                      CUSTOM_PARAM_PREFIX true VNone py_abs py_abs))
      [U "winAscent"; U "winDescent"]
  ++
  map (fun glyphs_name =>
         Generic (new glyphs_name (Some (win_name glyphs_name)) None false
                      CUSTOM_PARAM_PREFIX true VNone py_int identity))
      [U "weightClass"; U "widthClass"]
  ++
  [ Generic (new (U "GASP Table") (Some (U "openTypeGaspRangeRecords")) None
                 false CUSTOM_PARAM_PREFIX true VNone
                 to_ufo_gasp_table to_glyphs_gasp_table);
    Generic (new (U "Disable Last Change") (Some (U "disablesLastChange")) None
                 false CUSTOM_PARAM_PREFIX true VNone identity identity);
    Generic (new (U "Don't use Production Names")
                 (Some UFO2FT_USE_PROD_NAMES_KEY) None
                 false [] true VNone
                 (fun v => Ok (py_not v)) (fun v => Ok (py_not v)));
    Misc (new (U "DisplayStrings") None None false
              CUSTOM_PARAM_PREFIX true VNone identity identity);
    Misc (new (U "disablesAutomaticAlignment") None None false
              CUSTOM_PARAM_PREFIX true VNone identity identity);
    Misc (new (U "iconName") None None false
              CUSTOM_PARAM_PREFIX true VNone identity identity);
    Misc (new (U "disablesNiceNames") (Some (U "useNiceNames")) None false
              CUSTOM_PARAM_PREFIX true VNone
              (fun v => Ok (VInt (Z.b2z (negb (truthy v)))))
              (fun v => Ok (VBool (negb (truthy v))))) ]
  ++
  map (fun number =>
         Misc (new (U "customValue" ++ number) None None false
                   CUSTOM_PARAM_PREFIX false VNone identity identity))
      [U ""; U "1"; U "2"; U "3"]
  ++
  [ Misc (new (U "weightValue") None None false
              CUSTOM_PARAM_PREFIX false VNone identity identity);
    Misc (new (U "widthValue") None None false
              CUSTOM_PARAM_PREFIX false VNone identity identity);
    OS2Selection;
    Generic (new (U "glyphOrder") None None false
                 GLYPHS_PREFIX true VNone identity identity);
    Filter;
    ReplaceFeature ].

End Registry.

(** ** Name normalization and default parameters *)

Definition quote_replacements : list (ustr * ustr) :=
  [ ([8216%N], U "'"); ([8217%N], U "'");
    ([8220%N], [34%N]); ([8221%N], [34%N]) ].

Definition _normalize_custom_param_name (name : ustr) : ustr :=
  fold_left (fun name r => str_replace name (fst r) (snd r))
            quote_replacements name.

Definition DEFAULT_PARAMETERS : list (ustr * ustr * value) :=
  [ (U "fsType", U "openTypeOS2Type", VList [VInt 3]);
    (U "underlineThickness", U "postscriptUnderlineThickness", VInt 50);
    (U "underlinePosition", U "postscriptUnderlinePosition", VInt (-100)) ].

(** [getattr(ufo.info, ufo_name)] raises when the attribute is missing. *)
Fixpoint _set_default_params_loop (table : list (ustr * ustr * value)) (u : UFO)
  : UFO * res unit :=
  match table with
  | [] => (u, Ok tt)
  | (_, ufo_name, default_value) :: table' =>
      match dict_get (info u) ufo_name with
      | None => (u, Raise AttributeError)
      | Some v =>
          _set_default_params_loop table'
            (if is_None v
             then mkUFO (dict_set (info u) ufo_name default_value)
                        (lib u) (features_text u)
             else u)
      end
  end.

Definition _set_default_params (u : UFO) : UFO * res unit :=
  _set_default_params_loop DEFAULT_PARAMETERS u.

(** Modelled from the spec: the class of [glyphs.customParameters] (the
    native object model) is not part of this file.  The native object
    "must expose an ordered, appendable/removable collection of (name,
    value) parameter pairs": [name in params] holds when a pair has that
    name, [params[name]] is the value of the pair and [del params[name]]
    removes it.  The spec says nothing of a name that occurs more than
    once: here the first pair of the name is the one read and the one
    removed. *)
Module CustomParametersProxy.

Definition contains (params : list (ustr * value)) (name : ustr) : bool :=
  dict_has params name.

Definition getitem (params : list (ustr * value)) (name : ustr) : option value :=
  dict_get params name.

Fixpoint delitem (params : list (ustr * value)) (name : ustr)
  : list (ustr * value) :=
  match params with
  | [] => []
  | (n, v) :: params' =>
      if ustr_eqb name n then params' else (n, v) :: delitem params' name
  end.

End CustomParametersProxy.

Definition unset_if_default (params : list (ustr * value)) (name : ustr)
    (default_value : value) : list (ustr * value) :=
  if CustomParametersProxy.contains params name &&
     match CustomParametersProxy.getitem params name with
     | Some v => py_eq v default_value
     | None => false
     end
  then CustomParametersProxy.delitem params name
  else params.

(** Both tests of the loop body read [glyphs_name]. *)
Definition _unset_default_params (params : list (ustr * value))
  : list (ustr * value) :=
  fold_left (fun params '(glyphs_name, ufo_name, default_value) =>
               let params := unset_if_default params glyphs_name default_value in
               unset_if_default params glyphs_name default_value)
            DEFAULT_PARAMETERS params.

(** ** The two drivers *)

Section Drivers.
Context `{Imports}.

(** The state in which a driver starts: two new proxies. *)
Definition init_world (ufo : UFO) (glyphs_object : GSObject) : world :=
  UFOProxy.init ufo (GlyphsObjectProxy.init glyphs_object ufo []).

(** The body of the loop over [unhandled_custom_parameters()]. *)
Definition leftover_to_ufo (key : ustr) (param : ustr * value) : M unit :=
  let name := _normalize_custom_param_name (fst param) in
  UFOProxy.set_lib_value (CUSTOM_PARAM_PREFIX ++ key ++ name) (snd param).

Definition to_ufo_pass : M unit :=
  for_each KNOWN_PARAM_HANDLERS handler_to_ufo ;;
  w <- get_world ;;
  for_each (GlyphsObjectProxy.unhandled_custom_parameters w)
           (leftover_to_ufo (sub_key w)) ;;
  fun w =>
    let '(u, r) := _set_default_params (ufo_owner w) in
    (set_ufo_owner u w, r).

Definition to_ufo_custom_params (ufo : UFO) (glyphs_object : GSObject)
  : world * res unit :=
  to_ufo_pass (init_world ufo glyphs_object).

(** The body of the loop over [unhandled_lib_items()]. *)
Definition leftover_to_glyphs (prefix : ustr) (item : ustr * value) : M unit :=
  let name := _normalize_custom_param_name (fst item) in
  if negb (startswith name prefix) then ret tt
  else GlyphsObjectProxy.set_custom_value (skipn (length prefix) name) (snd item).

Definition unset_default_params_of_owner : M unit :=
  modify (fun w =>
    let o := glyphs_owner w in
    set_glyphs_owner
      (mkGSObject (class_name o)
                  (_unset_default_params (customParameters o))
                  (attributes o)) w).

Definition to_glyphs_pass : M unit :=
  for_each KNOWN_PARAM_HANDLERS handler_to_glyphs ;;
  w <- get_world ;;
  let prefix := CUSTOM_PARAM_PREFIX ++ sub_key w in
  for_each (UFOProxy.unhandled_lib_items w) (leftover_to_glyphs prefix) ;;
  unset_default_params_of_owner.

Definition to_glyphs_custom_params (ufo : UFO) (glyphs_object : GSObject)
  : world * res unit :=
  to_glyphs_pass (init_world ufo glyphs_object).

End Drivers.

(** The values registered under [name], in the order of the parameter list. *)
Definition values_of (name : ustr) (params : list (ustr * value)) : list value :=
  map snd (filter (fun p => ustr_eqb name (fst p)) params).

Definition lookup_values (lk : list (ustr * list value)) (name : ustr) : list value :=
  match dict_get lk name with
  | Some vs => vs
  | None => []
  end.

(** The proxy's memo agrees with the parameter list it was built from. *)
Definition lookup_ok (params : list (ustr * value)) (w : world) : Prop :=
  forall name, lookup_values (glyphs_lookup w) name = values_of name params.

(** What a single-valued read returns for the values registered under a
    name. *)
Definition single_value (values : list value) : res value :=
  match values with
  | [] => Ok VNone
  | [v] => Ok v
  | _ :: _ :: _ => Raise RuntimeError
  end.

(** The [rangeMaxPPEM] of a record. *)
Definition record_ppem (record : value) : option Z :=
  match py_getitem record (U "rangeMaxPPEM") with
  | Ok (VInt z) => Some z
  | _ => None
  end.

(** ** Concrete imports for running the code

    Modelled from the spec: the constants module, the bit-list codec of
    [glyphsLib.util], the filter codec and the feature patcher are not
    part of this file.  The spec names them as "a bit-list <-> integer
    codec", "a filter-expression codec with parse(text, is_pre) and
    write(structured_filter)", "a feature-code patcher replace(tag,
    replacement_text, existing_text)" and "a codepage-bit lookup table".
    The instance below gives each a simple stand-in, so that the code
    can be evaluated on concrete inputs. *)

Fixpoint set_bits (fuel : nat) (i : Z) (z : Z) : list value :=
  match fuel with
  | O => []
  | S fuel' =>
      if z =? 0 then []
      else (if Z.odd z then [VInt i] else []) ++ set_bits fuel' (i + 1) (Z.div2 z)
  end.

Definition sample_bin_to_int_list (v : value) : res value :=
  match v with
  | VInt z => if z <? 0 then Raise ValueError
              else Ok (VList (set_bits (Z.to_nat (Z.log2 z) + 1) 0 z))
  | _ => Raise TypeError
  end.

Definition sample_int_list_to_bin (v : value) : res value :=
  match v with
  | VList l =>
      Ok (VInt (fold_left (fun acc x => match x with
                                        | VInt i => Z.lor acc (Z.shiftl 1 i)
                                        | _ => acc
                                        end) l 0))
  | _ => Raise TypeError
  end.

Definition sample_parse_glyphs_filter (v : value) (is_pre : bool) : res value :=
  match v with
  | VStr s => Ok (VDict [(U "name", VStr s); (U "pre", VBool is_pre)])
  | _ => Raise TypeError
  end.

Definition sample_write_glyphs_filter (v : value) : res (value * bool) :=
  match v with
  | VDict d =>
      match dict_get d (U "name"), dict_get d (U "pre") with
      | Some name, Some pre => Ok (name, truthy pre)
      | _, _ => Raise KeyError
      end
  | _ => Raise TypeError
  end.

Definition sample_replace_feature (tag repl text : value) : res value :=
  match tag, repl, text with
  | VStr t, VStr r, VStr x => Ok (VStr (x ++ U "feature " ++ t ++ U " {" ++ r ++ U "}"))
  | _, _, _ => Raise TypeError
  end.

Definition sample_imports : Imports := {|
  GLYPHS_PREFIX := U "com.schriftgestaltung.";
  PUBLIC_PREFIX := U "public.";
  UFO2FT_FILTERS_KEY := U "com.github.googlei18n.ufo2ft.filters";
  UFO2FT_USE_PROD_NAMES_KEY := U "com.github.googlei18n.ufo2ft.useProductionNames";
  CODEPAGE_RANGES := [(1252, 0); (1250, 1); (1251, 2); (1253, 3)];
  REVERSE_CODEPAGE_RANGES := [(0, 1252); (1, 1250); (2, 1251); (3, 1253)];
  bin_to_int_list := sample_bin_to_int_list;
  int_list_to_bin := sample_int_list_to_bin;
  parse_glyphs_filter := sample_parse_glyphs_filter;
  write_glyphs_filter := sample_write_glyphs_filter;
  replace_feature := sample_replace_feature;
  py_repr := fun _ => U "<object>"
|}.

(** A UFO as a new font has it: every info attribute of [attrs] unset,
    an empty lib, no feature text. *)
Definition fresh_ufo (attrs : list ustr) : UFO :=
  mkUFO (map (fun a => (a, VNone)) attrs) [] VNone.

(** The info attributes the registry and the default table name. *)
Definition sample_info_attrs : list ustr :=
  map snd GLYPHS_UFO_CUSTOM_PARAMS ++ GLYPHS_UFO_CUSTOM_PARAMS_NO_SHORT_NAME ++
  [ U "postscriptFamilyBlues"; U "postscriptFamilyOtherBlues";
    U "openTypeOS2CodePageRanges"; U "openTypeOS2WinAscent";
    U "openTypeOS2WinDescent"; U "openTypeOS2WeightClass";
    U "openTypeOS2WidthClass"; U "openTypeGaspRangeRecords";
    U "openTypeOS2Selection" ].

(** Two memo tables that answer every name alike. *)
Definition same_lookup (lk lk' : list (ustr * list value)) : Prop :=
  forall name, lookup_values lk' name = lookup_values lk name.

(** The state after a read of [key]: [key] is handled and the memo may
    have gained an empty entry. *)
Definition read_state (key : ustr) (lk' : list (ustr * list value)) (w : world)
  : world :=
  set_glyphs_lookup lk' (set_glyphs_handled (set_add key (glyphs_handled w)) w).

(** ** The selection list: a pure account of [OS2SelectionParamHandler.to_ufo]

    [select_flag z u] is what the loop body does to the UFO for a flag of
    bit [z] whose native value is true; [os2_effect] runs it over the
    flags, given what each read of the native side returned. *)

Definition select_flag (z : Z) (u : UFO) : UFO * res unit :=
  match dict_get (info u) (U "openTypeOS2Selection") with
  | None => (u, Raise AttributeError)
  | Some selection =>
      let selection := if is_None selection then VList [] else selection in
      match py_in (VInt z) selection with
      | Raise e => (u, Raise e)
      | Ok present =>
          match (if negb present
                 then OS2SelectionParamHandler.list_append selection (VInt z)
                 else Ok selection) with
          | Raise e => (u, Raise e)
          | Ok selection' =>
              (mkUFO (dict_set (info u) (U "openTypeOS2Selection") selection')
                     (lib u) (features_text u), Ok tt)
          end
      end
  end.

Fixpoint os2_effect (reads : list (res value * Z)) (u : UFO) : UFO * res unit :=
  match reads with
  | [] => (u, Ok tt)
  | (Raise e, _) :: _ => (u, Raise e)
  | (Ok g, z) :: reads' =>
      if truthy g then
        match select_flag z u with
        | (u', Ok _) => os2_effect reads' u'
        | (u', Raise e) => (u', Raise e)
        end
      else os2_effect reads' u
  end.

(** What reading each flag returns in the state [w]. *)
Definition flag_reads (w : world) (flags : list (ustr * Z)) : list (res value * Z) :=
  map (fun f => (single_value (lookup_values (glyphs_lookup w) (fst f)), snd f)) flags.

(** The bits listed under [openTypeOS2Selection]. *)
Definition selection_bits (u : UFO) : list value :=
  match dict_get (info u) (U "openTypeOS2Selection") with
  | Some (VList l) => l
  | _ => []
  end.

(** Bit [z] is listed under [openTypeOS2Selection]. *)
Definition has_bit (z : Z) (u : UFO) : Prop :=
  py_in_list (VInt z) (selection_bits u) = true.

(** Two UFOs that differ at most in [openTypeOS2Selection]. *)
Definition same_but_selection (u u' : UFO) : Prop :=
  lib u' = lib u /\ features_text u' = features_text u /\
  (forall k, k <> U "openTypeOS2Selection" ->
             dict_get (info u') k = dict_get (info u) k).

(** Everything but the feature text. *)
Definition same_but_features (w w' : world) : Prop :=
  glyphs_owner w' = glyphs_owner w /\ glyphs_handled w' = glyphs_handled w /\
  glyphs_lookup w' = glyphs_lookup w /\ ufo_handled w' = ufo_handled w /\
  sub_key w' = sub_key w /\
  info (ufo_owner w') = info (ufo_owner w) /\ lib (ufo_owner w') = lib (ufo_owner w).

(** The parameters made from lib entries by the sweep at the end of
    [to_glyphs_custom_params]: the entries whose normalized key starts
    with [prefix], named by the rest of the key. *)
Definition swept_params (prefix : ustr) (items : list (ustr * value))
  : list (ustr * value) :=
  map (fun kv => (skipn (length prefix) (_normalize_custom_param_name (fst kv)),
                  snd kv))
      (filter (fun kv => startswith (_normalize_custom_param_name (fst kv)) prefix)
              items).

(** ** Computations that move the state along a relation

    [steps R m]: from any state, [m] ends (normally or by raising) in a
    state related by [R] to the one it started in. *)
Definition steps {A} (R : world -> world -> Prop) (m : M A) : Prop :=
  forall w, R w (fst (m w)).

(** ** What a handler may touch when going to Glyphs

    [glyphs_step S N w w']: between [w] and [w'] the UFO, the memo of the
    native proxy and its handled set are the same, the native object has
    only gained parameters, all of them under names of [N], and the UFO
    proxy has only marked lib keys of [S] (for the sub-key in force). *)
Definition glyphs_step (S : ustr -> ustr -> Prop) (N : ustr -> Prop)
    (w w' : world) : Prop :=
  sub_key w' = sub_key w /\
  ufo_owner w' = ufo_owner w /\
  glyphs_lookup w' = glyphs_lookup w /\
  glyphs_handled w' = glyphs_handled w /\
  class_name (glyphs_owner w') = class_name (glyphs_owner w) /\
  (exists extra,
     customParameters (glyphs_owner w') = customParameters (glyphs_owner w) ++ extra /\
     forall p, In p extra -> N (fst p)) /\
  (forall k, In k (ufo_handled w') -> In k (ufo_handled w) \/ S (sub_key w) k) /\
  (forall k, In k (ufo_handled w) -> In k (ufo_handled w')).

Section HandlerFootprints.
Context `{Imports}.

(** The lib keys a handler may read, for an object of sub-key [sk]. *)
Definition lib_reads (h : Handler) (sk : ustr) (k : ustr) : Prop :=
  match h with
  | Generic p | EmptyListDefault p | Misc p => k = ParamHandler.lib_key p sk
  | Filter => k = UFO2FT_FILTERS_KEY
  | OS2Selection | ReplaceFeature => False
  end.

(** The names under which a handler may append parameters. *)
Definition param_writes (h : Handler) (n : ustr) : Prop :=
  match h with
  | Generic p | EmptyListDefault p => n = ParamHandler.glyphs_name p
  | Misc _ | ReplaceFeature => False
  | OS2Selection => In n (map fst OS2SelectionParamHandler.flags)
  | Filter => n = U "PreFilter" \/ n = U "Filter"
  end.

End HandlerFootprints.

Section RegistryFootprints.
Context `{Imports}.

Definition registry_lib_reads (sk k : ustr) : Prop :=
  exists h, In h KNOWN_PARAM_HANDLERS /\ lib_reads h sk k.

Definition registry_param_writes (n : ustr) : Prop :=
  exists h, In h KNOWN_PARAM_HANDLERS /\ param_writes h n.

End RegistryFootprints.

(** The character that [_normalize_custom_param_name] puts for [c]. *)
Definition normalize_char (c : N) : N :=
  if ((c =? 8216) || (c =? 8217))%N then 39%N
  else if ((c =? 8220) || (c =? 8221))%N then 34%N
  else c.

(** ** What a handler may touch when going to the UFO

    [ufo_step IW LW G w w']: between [w] and [w'] the native object is
    the same and its memo answers alike, only names of [G] have been
    marked as handled, the info object has the same attributes and only
    those of [IW] may hold another value, and only lib keys of [LW] (for
    the sub-key in force) may hold another value. *)
Definition ufo_step (IW : ustr -> Prop) (LW : ustr -> ustr -> Prop)
    (G : ustr -> Prop) (w w' : world) : Prop :=
  sub_key w' = sub_key w /\
  glyphs_owner w' = glyphs_owner w /\
  same_lookup (glyphs_lookup w) (glyphs_lookup w') /\
  (forall k, In k (glyphs_handled w') -> In k (glyphs_handled w) \/ G k) /\
  (forall k, In k (glyphs_handled w) -> In k (glyphs_handled w')) /\
  (forall a, dict_has (info (ufo_owner w')) a = dict_has (info (ufo_owner w)) a) /\
  (forall a, ~ IW a ->
     dict_get (info (ufo_owner w')) a = dict_get (info (ufo_owner w)) a) /\
  (forall k, ~ LW (sub_key w) k ->
     dict_get (lib (ufo_owner w')) k = dict_get (lib (ufo_owner w)) k).

(** The info attributes a handler may write. *)
Definition info_writes (h : Handler) (a : ustr) : Prop :=
  match h with
  | Generic p | EmptyListDefault p | Misc p => a = ParamHandler.ufo_name p
  | OS2Selection => a = U "openTypeOS2Selection"
  | Filter | ReplaceFeature => False
  end.

(** The names of custom parameters a handler may read. *)
Definition handler_glyphs_reads (h : Handler) : list ustr :=
  match h with
  | Generic p | EmptyListDefault p =>
      ParamHandler.glyphs_name p ::
      match ParamHandler.glyphs_long_name p with
      | Some long => [long]
      | None => []
      end
  | Misc _ => []
  | OS2Selection => map fst OS2SelectionParamHandler.flags
  | Filter => [U "PreFilter"; U "Filter"]
  | ReplaceFeature => [U "Replace Feature"]
  end.

Section Targets.
Context `{Imports}.

(** The value a handler finds on the UFO side: under the info attribute
    when the handler uses the info object and the attribute exists, else
    under its lib key. *)
Definition read_target (p : ParamHandler.t) (sk : ustr) (u : UFO) : option value :=
  if ParamHandler.ufo_info p && dict_has (info u) (ParamHandler.ufo_name p)
  then dict_get (info u) (ParamHandler.ufo_name p)
  else dict_get (lib u) (ParamHandler.lib_key p sk).



End Targets.

Section SweepToUfo.
Context `{Imports}.

(** The lib key under which a leftover parameter is stored. *)
Definition leftover_key (sk : ustr) (name : ustr) : ustr :=
  CUSTOM_PARAM_PREFIX ++ sk ++ _normalize_custom_param_name name.

(** The lib after the leftover parameters [params] have been stored. *)
Definition swept_lib (sk : ustr) (params : list (ustr * value)) (d : dict) : dict :=
  fold_left (fun d p => dict_set d (leftover_key sk (fst p)) (snd p)) params d.

End SweepToUfo.

Section KnownNames.
Context `{Imports}.



End KnownNames.

Section Decisions.
Context `{Imports}.





End Decisions.



(** [append_unique(array, value)]: the list after the call. *)
Definition append_unique (array : list value) (v : value) : list value :=
  if negb (py_in_list v array) then array ++ [v] else array.

(** ** Finer footprints, for the round trip *)

Section WrittenKeys.
Context `{Imports}.






End WrittenKeys.





Section ConsumedNames.
Context `{Imports}.



End ConsumedNames.

(** * Properties *)

(** ** Strings and dictionaries *)

Lemma ustr_eqb_eq (a b : ustr) : ustr_eqb a b = true <-> a = b.
Proof.
  revert b; induction a as [|x a IH]; intros [|y b]; simpl;
    try (split; [discriminate | congruence]); try tauto.
  rewrite andb_true_iff, N.eqb_eq, IH.
  split; [intros [-> ->]; reflexivity | intros E; inversion E; auto].
Qed.

Lemma ustr_eqb_refl (a : ustr) : ustr_eqb a a = true.
Proof. apply ustr_eqb_eq; reflexivity. Qed.

Lemma ustr_eqb_neq (a b : ustr) : ustr_eqb a b = false <-> a <> b.
Proof.
  rewrite <- ustr_eqb_eq. destruct (ustr_eqb a b); split; congruence.
Qed.

Lemma ustr_eqb_sym (a b : ustr) : ustr_eqb a b = ustr_eqb b a.
Proof.
  destruct (ustr_eqb a b) eqn:E.
  - apply ustr_eqb_eq in E; subst; symmetry; apply ustr_eqb_refl.
  - destruct (ustr_eqb b a) eqn:E'; [|reflexivity].
    apply ustr_eqb_eq in E'; subst. rewrite ustr_eqb_refl in E; discriminate.
Qed.

Ltac ustr_cases a b :=
  let E := fresh "E" in
  destruct (ustr_eqb a b) eqn:E;
  [apply ustr_eqb_eq in E; try subst | pose proof E as ?; apply ustr_eqb_neq in E].

Lemma dict_get_set_eq {A} (d : list (ustr * A)) k v :
  dict_get (dict_set d k v) k = Some v.
Proof.
  induction d as [|[k' v'] d IH]; simpl.
  - rewrite ustr_eqb_refl; reflexivity.
  - destruct (ustr_eqb k k') eqn:E; simpl; rewrite E; auto.
Qed.

Lemma dict_get_set_neq {A} (d : list (ustr * A)) k k' v :
  k <> k' -> dict_get (dict_set d k v) k' = dict_get d k'.
Proof.
  intros N; induction d as [|[k0 v0] d IH]; simpl.
  - apply ustr_eqb_neq in N. rewrite ustr_eqb_sym, N; reflexivity.
  - destruct (ustr_eqb k k0) eqn:E; simpl.
    + apply ustr_eqb_eq in E; subst k0.
      assert (ustr_eqb k' k = false) as -> by (apply ustr_eqb_neq; congruence).
      reflexivity.
    + destruct (ustr_eqb k' k0); auto.
Qed.

Lemma dict_set_twice {A} (d : list (ustr * A)) k v v' :
  dict_set (dict_set d k v) k v' = dict_set d k v'.
Proof.
  induction d as [|[k0 v0] d IH]; simpl.
  - rewrite ustr_eqb_refl; reflexivity.
  - destruct (ustr_eqb k k0) eqn:E; simpl; rewrite E; congruence.
Qed.

Lemma dict_has_get {A} (d : list (ustr * A)) k :
  dict_has d k = match dict_get d k with Some _ => true | None => false end.
Proof.
  induction d as [|[k' v'] d IH]; simpl; auto.
  destruct (ustr_eqb k k'); simpl; auto.
Qed.

Lemma mem_ustr_In (x : ustr) (l : list ustr) : mem_ustr x l = true <-> In x l.
Proof.
  unfold mem_ustr; rewrite existsb_exists; split.
  - intros (y & Hy & E); apply ustr_eqb_eq in E; subst; auto.
  - intros Hx; exists x; split; auto; apply ustr_eqb_refl.
Qed.

Lemma set_add_In (x y : ustr) (s : list ustr) :
  In y (set_add x s) <-> y = x \/ In y s.
Proof.
  unfold set_add; destruct (mem_ustr x s) eqn:E.
  - apply mem_ustr_In in E; split; [auto | intros [->|]; auto].
  - rewrite in_app_iff; simpl; intuition.
Qed.

(** ** GlyphsObjectProxy: the lookup and the single-valued read *)

Lemma lookup_values_append lk n v name :
  lookup_values (GlyphsObjectProxy.lookup_append lk n v) name =
  lookup_values lk name ++ (if ustr_eqb name n then [v] else []).
Proof.
  unfold GlyphsObjectProxy.lookup_append, lookup_values.
  ustr_cases name n.
  - destruct (dict_get lk n); rewrite dict_get_set_eq; reflexivity.
  - destruct (dict_get lk n); rewrite dict_get_set_neq by congruence;
      rewrite app_nil_r; reflexivity.
Qed.

Lemma build_lookup_values params name :
  lookup_values (GlyphsObjectProxy.build_lookup params) name = values_of name params.
Proof.
  unfold GlyphsObjectProxy.build_lookup.
  enough (G : forall acc,
    lookup_values (fold_left (fun lk p =>
        GlyphsObjectProxy.lookup_append lk (fst p) (snd p)) params acc) name
    = lookup_values acc name ++ values_of name params) by (apply (G [])).
  induction params as [|[n v] params IH]; intros acc; simpl.
  - rewrite app_nil_r; reflexivity.
  - rewrite IH, lookup_values_append, <- app_assoc. unfold values_of; simpl.
    destruct (ustr_eqb name n); reflexivity.
Qed.

Lemma init_lookup_ok o u uh :
  lookup_ok (customParameters o) (GlyphsObjectProxy.init o u uh).
Proof. intros name; apply build_lookup_values. Qed.

(** Unfolding the monad's operations. *)
Ltac monad_simpl := cbv [bind ret raise lift get_world modify].

Lemma for_each_cons {A} (x : A) (l : list A) (f : A -> M unit) :
  for_each (x :: l) f = (f x ;; for_each l f).
Proof. reflexivity. Qed.

Lemma same_lookup_refl lk : same_lookup lk lk.
Proof. intros name; reflexivity. Qed.

Lemma same_lookup_trans lk1 lk2 lk3 :
  same_lookup lk1 lk2 -> same_lookup lk2 lk3 -> same_lookup lk1 lk3.
Proof. intros A B name. rewrite B; apply A. Qed.

Lemma lookup_ok_same params w lk' :
  same_lookup (glyphs_lookup w) lk' -> lookup_ok params w ->
  forall w', glyphs_lookup w' = lk' -> lookup_ok params w'.
Proof. intros S L w' E name. rewrite E, S. apply L. Qed.

Lemma lookup_item_run w key :
  exists lk',
    GlyphsObjectProxy.lookup_item key w =
      (set_glyphs_lookup lk' w, Ok (lookup_values (glyphs_lookup w) key)) /\
    same_lookup (glyphs_lookup w) lk'.
Proof.
  unfold GlyphsObjectProxy.lookup_item, lookup_values. monad_simpl.
  destruct (dict_get (glyphs_lookup w) key) eqn:G.
  - exists (glyphs_lookup w). destruct w; split; [reflexivity | apply same_lookup_refl].
  - exists (dict_set (glyphs_lookup w) key []). split; [reflexivity|].
    intros name; unfold lookup_values. ustr_cases key name.
    + rewrite dict_get_set_eq, G; reflexivity.
    + rewrite dict_get_set_neq by assumption; reflexivity.
Qed.

Lemma get_custom_value_run w key :
  exists lk',
    GlyphsObjectProxy.get_custom_value key w =
      (read_state key lk' w, single_value (lookup_values (glyphs_lookup w) key)) /\
    same_lookup (glyphs_lookup w) lk'.
Proof.
  set (w1 := set_glyphs_handled (set_add key (glyphs_handled w)) w).
  destruct (lookup_item_run w1 key) as (lk' & R & S).
  exists lk'. split; [|exact S].
  unfold GlyphsObjectProxy.get_custom_value, GlyphsObjectProxy.mark_handled.
  unfold bind at 1. unfold modify at 1. fold w1.
  unfold bind. rewrite R. change (glyphs_lookup w1) with (glyphs_lookup w).
  destruct (lookup_values (glyphs_lookup w) key) as [|v [|v' vs]]; reflexivity.
Qed.

Lemma get_custom_values_run w key :
  exists lk',
    GlyphsObjectProxy.get_custom_values key w =
      (read_state key lk' w, Ok (VList (lookup_values (glyphs_lookup w) key))) /\
    same_lookup (glyphs_lookup w) lk'.
Proof.
  set (w1 := set_glyphs_handled (set_add key (glyphs_handled w)) w).
  destruct (lookup_item_run w1 key) as (lk' & R & S).
  exists lk'. split; [|exact S].
  unfold GlyphsObjectProxy.get_custom_values, GlyphsObjectProxy.mark_handled.
  unfold bind at 1. unfold modify at 1. fold w1.
  unfold bind. rewrite R. reflexivity.
Qed.

(** C2.  At any point of a pass, [get_custom_value(key)] marks [key] as
    handled and returns the one value registered under [key] in the
    object's parameter list, None when there is none; it raises
    RuntimeError exactly when more than one value is registered (and
    raises nothing else), and it touches neither the native object nor
    the UFO. *)
Theorem get_custom_value_single_or_error
    (params : list (ustr * value)) (w : world) (key : ustr) :
  lookup_ok params w ->
  let r := GlyphsObjectProxy.get_custom_value key w in
  snd r = match values_of key params with
          | [] => Ok VNone
          | [v] => Ok v
          | _ :: _ :: _ => Raise RuntimeError
          end /\
  (snd r = Raise RuntimeError <-> (1 < length (values_of key params))%nat) /\
  (forall e, snd r = Raise e -> e = RuntimeError) /\
  lookup_ok params (fst r) /\
  (forall k, In k (glyphs_handled (fst r)) <-> k = key \/ In k (glyphs_handled w)) /\
  glyphs_owner (fst r) = glyphs_owner w /\ ufo_owner (fst r) = ufo_owner w.
Proof.
  intros L r. subst r.
  destruct (get_custom_value_run w key) as (lk' & -> & S).
  rewrite (L key). simpl fst; simpl snd.
  split; [reflexivity|].
  split; [|split; [|split; [|split; [|split; reflexivity]]]].
  - destruct (values_of key params) as [|v [|v' vs]]; simpl;
      split; try discriminate; try lia; reflexivity.
  - destruct (values_of key params) as [|v [|v' vs]]; simpl;
      intros e E; try discriminate; congruence.
  - apply (lookup_ok_same params w lk' S L); reflexivity.
  - intros k; simpl. apply set_add_In.
Qed.

(** ** The GASP table: records come out in ascending [rangeMaxPPEM] *)

Lemma item_leb_trans : Transitive (fun a b => is_true (ItemOrder.leb a b)).
Proof.
  intros [a1 a2] [b1 b2] [c1 c2]; unfold is_true, ItemOrder.leb; simpl.
  rewrite !orb_true_iff, !andb_true_iff, !Z.ltb_lt, !Z.eqb_eq, !Z.leb_le. lia.
Qed.

Lemma sorted_perm (l : list (Z * Z)) : Permutation l (sorted l).
Proof. apply ItemSort.Permuted_sort. Qed.

(** With pairwise distinct keys the sorted items ascend strictly by key. *)
Lemma sorted_keys_ascending (l : list (Z * Z)) :
  NoDup (map fst l) -> StronglySorted Z.lt (map fst (sorted l)).
Proof.
  intros ND.
  assert (ND' : NoDup (map fst (sorted l))).
  { eapply Permutation_NoDup; [|exact ND].
    apply Permutation_map, sorted_perm. }
  pose proof (ItemSort.StronglySorted_sort l item_leb_trans) as SS.
  fold (sorted l) in SS.
  induction SS as [|a s SS IH Hall]; simpl in *; constructor.
  - apply IH. inversion ND'; assumption.
  - inversion ND' as [|? ? Hnotin _]; subst.
    rewrite Forall_forall in *. intros k Hk.
    apply in_map_iff in Hk as (b & <- & Hb).
    specialize (Hall b Hb). unfold is_true, ItemOrder.leb in Hall.
    rewrite orb_true_iff, andb_true_iff, Z.ltb_lt, Z.eqb_eq in Hall.
    destruct Hall as [|[E _]]; [assumption|].
    exfalso; apply Hnotin. rewrite E. apply in_map; assumption.
Qed.

Lemma zdict_set_keys (d : list (Z * Z)) k v :
  map fst (zdict_set d k v) =
  if existsb (Z.eqb k) (map fst d) then map fst d else map fst d ++ [k].
Proof.
  induction d as [|[k' v'] d IH]; simpl; auto.
  destruct (k =? k') eqn:E; simpl; auto.
  rewrite IH. destruct (existsb (Z.eqb k) (map fst d)); reflexivity.
Qed.

Lemma zdict_set_NoDup (d : list (Z * Z)) k v :
  NoDup (map fst d) -> NoDup (map fst (zdict_set d k v)).
Proof.
  intros ND. rewrite zdict_set_keys.
  destruct (existsb (Z.eqb k) (map fst d)) eqn:E; auto.
  apply NoDup_app; auto.
  - constructor; [intros []|constructor].
  - intros x Hx [Ek|[]]. subst x.
    assert (existsb (Z.eqb k) (map fst d) = true); [|congruence].
    apply existsb_exists; exists k; split; auto; apply Z.eqb_refl.
Qed.

Lemma zdict_set_In_key (d : list (Z * Z)) k v z :
  In z (map fst (zdict_set d k v)) <-> z = k \/ In z (map fst d).
Proof.
  rewrite zdict_set_keys.
  destruct (existsb (Z.eqb k) (map fst d)) eqn:E.
  - apply existsb_exists in E as (x & Hx & E). apply Z.eqb_eq in E; subst x.
    split; [auto | intros [->|]; auto].
  - rewrite in_app_iff; simpl; intuition.
Qed.

Lemma py_int_Z_str (k : ustr) z :
  py_int_Z (VStr k) = Ok z <-> int_of_ustr k = Some z.
Proof.
  unfold py_int_Z, py_int, res_bind.
  destruct (int_of_ustr k); split; intros E; inversion E; reflexivity.
Qed.

(** The integer keys built by the dictionary comprehension. *)
Lemma int_items_keys (items : list (ustr * value)) :
  forall acc value,
    NoDup (map fst acc) ->
    int_items acc items = Ok value ->
    NoDup (map fst value) /\
    (forall z, In z (map fst value) <->
               In z (map fst acc) \/
               exists k v, In (k, v) items /\ int_of_ustr k = Some z).
Proof.
  induction items as [|[k v] items IH]; intros acc value ND E; simpl in E.
  - injection E as <-. split; auto.
    intros z; split; auto. intros [|(? & ? & [] & _)]; auto.
  - destruct (py_int_Z (VStr k)) as [ik|] eqn:Ek; simpl in E; [|discriminate].
    destruct (py_int_Z v) as [iv|] eqn:Ev; simpl in E; [|discriminate].
    apply py_int_Z_str in Ek.
    destruct (IH _ _ (zdict_set_NoDup acc ik iv ND) E) as (ND' & Hin).
    split; auto. intros z. rewrite Hin, zdict_set_In_key. split.
    + intros [[->|]|(k' & v' & Hi & Hz)]; auto; right.
      * exists k, v; simpl; auto.
      * exists k', v'; simpl; auto.
    + intros [|(k' & v' & [Hi|Hi] & Hz)]; auto.
      * injection Hi as <- <-. left; left; congruence.
      * right; exists k', v'; auto.
Qed.

Lemma int_items_total (items : list (ustr * value)) :
  (forall k v, In (k, v) items ->
     int_of_ustr k <> None /\ exists z, py_int_Z v = Ok z) ->
  forall acc, exists value, int_items acc items = Ok value.
Proof.
  induction items as [|[k v] items IH]; intros Hnum acc; simpl.
  - eexists; reflexivity.
  - destruct (Hnum k v (or_introl eq_refl)) as (Hk & iv & Hv).
    destruct (int_of_ustr k) as [ik|] eqn:Ek; [|congruence].
    apply py_int_Z_str in Ek. rewrite Ek, Hv; simpl.
    apply IH. intros; apply Hnum; right; assumption.
Qed.

Section GaspTableProperties.
Context `{Imports}.

Lemma gasp_records_ppem (items : list (Z * Z)) records :
  res_map gasp_record items = Ok records ->
  map record_ppem records = map (fun it => Some (fst it)) items.
Proof.
  revert records; induction items as [|it items IH]; intros records E; simpl in E.
  - injection E as <-; reflexivity.
  - unfold gasp_record at 1 in E.
    destruct (bin_to_int_list (VInt (snd it))) as [b|]; simpl in E; [|discriminate].
    destruct (res_map gasp_record items) as [rs|]; simpl in E; [|discriminate].
    injection E as <-. simpl. rewrite (IH rs eq_refl). reflexivity.
Qed.

Lemma gasp_records_total (items : list (Z * Z)) :
  (forall it, In it items -> exists b, bin_to_int_list (VInt (snd it)) = Ok b) ->
  exists records, res_map gasp_record items = Ok records.
Proof.
  induction items as [|it items IH]; intros Hb; simpl.
  - eexists; reflexivity.
  - destruct (Hb it (or_introl eq_refl)) as (b & Eb).
    destruct IH as (rs & Ers); [intros; apply Hb; right; assumption|].
    unfold gasp_record at 1. rewrite Eb; simpl. rewrite Ers; simpl.
    eexists; reflexivity.
Qed.

(** Whenever the transform returns, its records ascend strictly by
    [rangeMaxPPEM], and these are exactly the integers the keys denote. *)
Lemma to_ufo_gasp_table_sorted (d : dict) (result : value) :
  to_ufo_gasp_table (VDict d) = Ok result ->
  exists records ppems,
    result = VList records /\
    map record_ppem records = map Some ppems /\
    StronglySorted Z.lt ppems /\
    (forall z, In z ppems <-> exists k v, In (k, v) d /\ int_of_ustr k = Some z).
Proof.
  unfold to_ufo_gasp_table. intros E.
  destruct (int_items [] d) as [value|] eqn:Ei; simpl in E; [|discriminate].
  destruct (res_map gasp_record (sorted value)) as [records|] eqn:Er;
    simpl in E; [|discriminate].
  injection E as <-.
  destruct (int_items_keys d [] value (NoDup_nil _) Ei) as (ND & Hin).
  exists records, (map fst (sorted value)). split; [reflexivity|].
  split; [|split].
  - rewrite (gasp_records_ppem _ _ Er), map_map; reflexivity.
  - apply sorted_keys_ascending; assumption.
  - intros z. rewrite <- (Permutation_in' (eq_refl z)
                            (Permutation_map fst (sorted_perm value))).
    rewrite Hin. simpl. intuition.
Qed.

End GaspTableProperties.

Lemma int_items_values (items : list (ustr * value)) :
  forall acc value,
    int_items acc items = Ok value ->
    forall it, In it value ->
      In it acc \/ exists k v, In (k, v) items /\ py_int_Z v = Ok (snd it).
Proof.
  induction items as [|[k v] items IH]; intros acc value E it Hit; simpl in E.
  - injection E as <-; auto.
  - destruct (py_int_Z (VStr k)) as [ik|] eqn:Ek; simpl in E; [|discriminate].
    destruct (py_int_Z v) as [iv|] eqn:Ev; simpl in E; [|discriminate].
    destruct (IH _ _ E it Hit) as [Hacc|(k' & v' & Hi & Hv)].
    + assert (G : In it acc \/ it = (ik, iv) \/ exists k0, it = (k0, iv)).
      { clear - Hacc. induction acc as [|[k0 v0] acc IHa]; simpl in *.
        - destruct Hacc as [<-|[]]; auto.
        - destruct (ik =? k0); simpl in Hacc.
          + destruct Hacc as [<-|]; auto. right; right; eexists; reflexivity.
          + destruct Hacc as [<-|Hacc]; auto.
            destruct (IHa Hacc) as [|[|]]; auto. }
      destruct G as [|[->|(k0 & ->)]]; auto;
        right; exists k, v; simpl; auto.
    + right; exists k', v'; simpl; auto.
Qed.

Section GaspTableClaim.
Context `{Imports}.

Definition gasp_example : dict :=
  [ (U "40", VStr (U "11000000")); (U "20", VStr (U "00000011")) ].

Definition gasp_record_of (ppem : Z) (behavior : value) : value :=
  VDict [ (U "rangeMaxPPEM", VInt ppem); (U "rangeGaspBehavior", behavior) ].

(** C6.  For every mapping whose keys and values are numeric strings
    that the bit codec accepts, [to_ufo_gasp_table] returns a list of
    records whose [rangeMaxPPEM] ascend strictly and are the integers
    denoted by the keys, whatever the order of the mapping's items; for
    [{"40": "11000000", "20": "00000011"}], in either order, the record of
    20 comes before the record of 40. *)
Theorem to_ufo_gasp_table_ascending (d : dict) :
  (forall k v, In (k, v) d ->
     int_of_ustr k <> None /\
     exists z, py_int_Z v = Ok z /\ exists b, bin_to_int_list (VInt z) = Ok b) ->
  (exists records ppems,
     to_ufo_gasp_table (VDict d) = Ok (VList records) /\
     map record_ppem records = map Some ppems /\
     StronglySorted Z.lt ppems /\
     (forall z, In z ppems <-> exists k v, In (k, v) d /\ int_of_ustr k = Some z)) /\
  (forall b20 b40,
     bin_to_int_list (VInt 11) = Ok b20 ->
     bin_to_int_list (VInt 11000000) = Ok b40 ->
     to_ufo_gasp_table (VDict gasp_example) =
       Ok (VList [gasp_record_of 20 b20; gasp_record_of 40 b40]) /\
     to_ufo_gasp_table (VDict (rev gasp_example)) =
       Ok (VList [gasp_record_of 20 b20; gasp_record_of 40 b40])).
Proof.
  intros Hnum. split.
  - destruct (int_items_total d) with (acc := @nil (Z * Z)) as (value & Ei).
    { intros k v Hi. destruct (Hnum k v Hi) as (Hk & z & Hz & _). eauto. }
    destruct (gasp_records_total (sorted value)) as (records & Er).
    { intros it Hit.
      apply (Permutation_in _ (Permutation_sym (sorted_perm value))) in Hit.
      destruct (int_items_values d [] value Ei it Hit) as [[]|(k & v & Hi & Hv)].
      destruct (Hnum k v Hi) as (_ & z & Hz & b & Hb).
      rewrite Hz in Hv; injection Hv as ->. eauto. }
    assert (E : to_ufo_gasp_table (VDict d) = Ok (VList records)).
    { unfold to_ufo_gasp_table. rewrite Ei; simpl. rewrite Er; reflexivity. }
    destruct (to_ufo_gasp_table_sorted d _ E) as (records' & ppems & Eq & P1 & P2 & P3).
    injection Eq as <-. exists records, ppems. auto.
  - intros b20 b40 H20 H40.
    assert (E1 : int_items [] gasp_example = Ok [(40, 11000000); (20, 11)])
      by (vm_compute; reflexivity).
    assert (E2 : int_items [] (rev gasp_example) = Ok [(20, 11); (40, 11000000)])
      by (vm_compute; reflexivity).
    assert (S1 : sorted [(40, 11000000); (20, 11)] = [(20, 11); (40, 11000000)])
      by (vm_compute; reflexivity).
    assert (S2 : sorted [(20, 11); (40, 11000000)] = [(20, 11); (40, 11000000)])
      by (vm_compute; reflexivity).
    unfold to_ufo_gasp_table. rewrite E1, E2.
    cbv beta iota delta [res_bind]. rewrite S1, S2.
    cbv beta iota delta [res_map gasp_record res_bind fst snd].
    rewrite H20, H40. split; reflexivity.
Qed.

End GaspTableClaim.

Lemma to_ufo_gasp_table_ascending_witness :
  exists records ppems,
    @to_ufo_gasp_table sample_imports (VDict gasp_example) = Ok (VList records) /\
    map record_ppem records = map Some ppems /\
    StronglySorted Z.lt ppems /\
    (forall z, In z ppems <->
       exists k v, In (k, v) gasp_example /\ int_of_ustr k = Some z).
Proof.
  refine (proj1 (@to_ufo_gasp_table_ascending sample_imports gasp_example _)).
  intros k v [E|[E|[]]]; injection E as <- <-;
    (split; [vm_compute; discriminate|]);
    eexists; (split; [vm_compute; reflexivity|]);
    eexists; vm_compute; reflexivity.
Defined.

Lemma get_custom_value_single_or_error_witness :
  let o := mkGSObject (U "GSFont")
             [(U "hheaAscender", VInt 800); (U "Filter", VStr (U "a"));
              (U "Filter", VStr (U "b"))] [] in
  let w := GlyphsObjectProxy.init o (fresh_ufo sample_info_attrs) [] in
  snd (GlyphsObjectProxy.get_custom_value (U "hheaAscender") w) = Ok (VInt 800) /\
  snd (GlyphsObjectProxy.get_custom_value (U "hheaDescender") w) = Ok VNone /\
  snd (GlyphsObjectProxy.get_custom_value (U "Filter") w) = Raise RuntimeError.
Proof.
  intros o w.
  pose proof (init_lookup_ok o (fresh_ufo sample_info_attrs) []) as L.
  split; [|split].
  - exact (proj1 (get_custom_value_single_or_error _ w (U "hheaAscender") L)).
  - exact (proj1 (get_custom_value_single_or_error _ w (U "hheaDescender") L)).
  - exact (proj1 (get_custom_value_single_or_error _ w (U "Filter") L)).
Defined.

(** ** OS2SelectionParamHandler.to_ufo *)

Section OS2Selection.

Lemma to_ufo_flag_run (name : ustr) (z : Z) (w : world) :
  exists lk',
    same_lookup (glyphs_lookup w) lk' /\
    OS2SelectionParamHandler.to_ufo_flag (name, z) w =
      match single_value (lookup_values (glyphs_lookup w) name) with
      | Raise e => (read_state name lk' w, Raise e)
      | Ok g =>
          if truthy g
          then (set_ufo_owner (fst (select_flag z (ufo_owner w)))
                              (read_state name lk' w),
                snd (select_flag z (ufo_owner w)))
          else (read_state name lk' w, Ok tt)
      end.
Proof.
  destruct (get_custom_value_run w name) as (lk' & R & S).
  exists lk'; split; [exact S|].
  unfold OS2SelectionParamHandler.to_ufo_flag. unfold bind at 1. rewrite R.
  destruct (single_value (lookup_values (glyphs_lookup w) name)) as [g|e];
    [|reflexivity].
  destruct (truthy g); [|reflexivity].
  unfold select_flag, UFOProxy.get_info_value, UFOProxy.set_info_value.
  monad_simpl. change (ufo_owner (read_state name lk' w)) with (ufo_owner w).
  destruct (dict_get (info (ufo_owner w)) (U "openTypeOS2Selection")) as [sel|];
    [|reflexivity].
  destruct (py_in (VInt z) (if is_None sel then VList [] else sel)) as [present|e];
    [|reflexivity].
  destruct present; simpl negb; cbv iota; [reflexivity|].
  destruct (OS2SelectionParamHandler.list_append _ _); reflexivity.
Qed.

Lemma flag_reads_same w w' flags :
  same_lookup (glyphs_lookup w) (glyphs_lookup w') ->
  flag_reads w' flags = flag_reads w flags.
Proof.
  intros S. unfold flag_reads. apply map_ext. intros f. rewrite S. reflexivity.
Qed.

(** The loop of [to_ufo] acts on the UFO as [os2_effect] says, and leaves
    the native object and the UFO proxy's record of reads alone. *)
Lemma os2_loop_run (flags : list (ustr * Z)) :
  forall w, exists w',
    for_each flags OS2SelectionParamHandler.to_ufo_flag w =
      (w', snd (os2_effect (flag_reads w flags) (ufo_owner w))) /\
    ufo_owner w' = fst (os2_effect (flag_reads w flags) (ufo_owner w)) /\
    same_lookup (glyphs_lookup w) (glyphs_lookup w') /\
    glyphs_owner w' = glyphs_owner w /\ sub_key w' = sub_key w /\
    ufo_handled w' = ufo_handled w /\
    (forall k, In k (glyphs_handled w) -> In k (glyphs_handled w')).
Proof.
  induction flags as [|[name z] flags IH]; intros w.
  - exists w. simpl. unfold ret. repeat split; auto.
  - destruct (to_ufo_flag_run name z w) as (lk' & S & R).
    rewrite for_each_cons. unfold bind. rewrite R.
    simpl flag_reads. simpl os2_effect.
    assert (Hh : forall k, In k (glyphs_handled w) ->
                           In k (glyphs_handled (read_state name lk' w))).
    { intros k Hk; simpl. apply set_add_In; auto. }
    destruct (single_value (lookup_values (glyphs_lookup w) name)) as [g|e].
    2:{ exists (read_state name lk' w). repeat split; auto. }
    destruct (truthy g).
    + destruct (select_flag z (ufo_owner w)) as [u1 [[]|e]] eqn:Es; simpl fst; simpl snd.
      * set (w1 := set_ufo_owner u1 (read_state name lk' w)).
        destruct (IH w1) as (w' & R' & Hu & S' & Ho & Hk & Huh & Hgh).
        rewrite (flag_reads_same w w1 flags S) in R', Hu.
        exists w'. rewrite R'. repeat split; auto.
        eapply same_lookup_trans; [exact S | exact S'].
      * exists (set_ufo_owner u1 (read_state name lk' w)). repeat split; auto.
    + set (w1 := read_state name lk' w).
      destruct (IH w1) as (w' & R' & Hu & S' & Ho & Hk & Huh & Hgh).
      rewrite (flag_reads_same w w1 flags S) in R', Hu.
      exists w'. rewrite R'. repeat split; auto.
      eapply same_lookup_trans; [exact S | exact S'].
Qed.

End OS2Selection.

Lemma dict_set_same {A} (d : list (ustr * A)) k v :
  dict_get d k = Some v -> dict_set d k v = d.
Proof.
  induction d as [|[k' v'] d IH]; simpl; [discriminate|].
  destruct (ustr_eqb k k') eqn:E.
  - intros [= ->]; reflexivity.
  - intros G; rewrite IH; auto.
Qed.

Lemma py_in_list_false_not_In (z : Z) (l : list value) :
  py_in_list (VInt z) l = false -> ~ In (VInt z) l.
Proof.
  unfold py_in_list. intros E Hin.
  assert (existsb (fun y => py_eq y (VInt z)) l = true); [|congruence].
  apply existsb_exists. exists (VInt z); split; auto. simpl. apply Z.eqb_refl.
Qed.

Lemma py_in_list_app x l l' :
  py_in_list x (l ++ l') = py_in_list x l || py_in_list x l'.
Proof. apply existsb_app. Qed.

(** One step: the list is kept, and gains [z] at its end exactly when
    [z] was not in it. *)
Lemma select_flag_spec (z : Z) (u u' : UFO) r :
  select_flag z u = (u', r) ->
  same_but_selection u u' /\
  (r <> Ok tt -> u' = u) /\
  (r = Ok tt -> has_bit z u') /\
  (selection_bits u' = selection_bits u \/
   selection_bits u' = selection_bits u ++ [VInt z] /\
   py_in_list (VInt z) (selection_bits u) = false /\ r = Ok tt).
Proof.
  unfold select_flag, selection_bits, has_bit, same_but_selection.
  destruct (dict_get (info u) (U "openTypeOS2Selection")) as [sel|] eqn:G.
  2:{ intros [= <- <-]. rewrite G. repeat split; auto; discriminate. }
  assert (Keep : forall e, (u, @Raise unit e) = (u', r) ->
    (lib u' = lib u /\ features_text u' = features_text u /\
     (forall k, k <> U "openTypeOS2Selection" ->
        dict_get (info u') k = dict_get (info u) k)) /\
    (r <> Ok tt -> u' = u) /\
    (r = Ok tt ->
       py_in_list (VInt z)
         match dict_get (info u') (U "openTypeOS2Selection") with
         | Some (VList l) => l | _ => [] end = true) /\
    (match dict_get (info u') (U "openTypeOS2Selection") with
     | Some (VList l) => l | _ => [] end =
     match sel with VList l => l | _ => [] end \/
     match dict_get (info u') (U "openTypeOS2Selection") with
     | Some (VList l) => l | _ => [] end =
     match sel with VList l => l | _ => [] end ++ [VInt z] /\
     py_in_list (VInt z) match sel with VList l => l | _ => [] end = false /\
     r = Ok tt)).
  { intros e [= <- <-]. rewrite G. repeat split; auto; discriminate. }
  assert (Set_ : forall l l0,
    match sel with VList l => l | _ => [] end = l0 ->
    (l = l0 /\ py_in_list (VInt z) l0 = true \/
     l = l0 ++ [VInt z] /\ py_in_list (VInt z) l0 = false) ->
    (mkUFO (dict_set (info u) (U "openTypeOS2Selection") (VList l))
           (lib u) (features_text u), Ok tt) = (u', r) ->
    (lib u' = lib u /\ features_text u' = features_text u /\
     (forall k, k <> U "openTypeOS2Selection" ->
        dict_get (info u') k = dict_get (info u) k)) /\
    (r <> Ok tt -> u' = u) /\
    (r = Ok tt ->
       py_in_list (VInt z)
         match dict_get (info u') (U "openTypeOS2Selection") with
         | Some (VList l) => l | _ => [] end = true) /\
    (match dict_get (info u') (U "openTypeOS2Selection") with
     | Some (VList l) => l | _ => [] end =
     match sel with VList l => l | _ => [] end \/
     match dict_get (info u') (U "openTypeOS2Selection") with
     | Some (VList l) => l | _ => [] end =
     match sel with VList l => l | _ => [] end ++ [VInt z] /\
     py_in_list (VInt z) match sel with VList l => l | _ => [] end = false /\
     r = Ok tt)).
  { intros l l0 El Hl [= <- <-]. simpl. rewrite dict_get_set_eq, El.
    split; [|split; [|split]].
    - repeat split; auto. intros k Hk. apply dict_get_set_neq; congruence.
    - intros C; contradiction C; reflexivity.
    - intros _. destruct Hl as [[-> ?]|[-> ?]]; auto.
      rewrite py_in_list_app. simpl. rewrite Z.eqb_refl, orb_true_r. reflexivity.
    - destruct Hl as [[-> ?]|[-> ?]]; auto. }
  destruct sel as [| b | n | s | l | d]; simpl is_None; cbv iota.
  - (* None: an empty list is started *)
    simpl. apply (Set_ [VInt z] []); auto.
  - simpl; apply Keep.
  - simpl; apply Keep.
  - simpl; apply Keep.
  - unfold py_in. destruct (py_in_list (VInt z) l) eqn:P; simpl negb; cbv iota.
    + apply (Set_ l l); auto.
    + simpl OS2SelectionParamHandler.list_append. cbv iota.
      apply (Set_ (l ++ [VInt z]) l); auto.
  - simpl; apply Keep.
Qed.


Lemma select_flag_noop (z : Z) (u : UFO) :
  has_bit z u -> select_flag z u = (u, Ok tt).
Proof.
  unfold has_bit, selection_bits, select_flag.
  destruct (dict_get (info u) (U "openTypeOS2Selection")) as [sel|] eqn:G;
    [|discriminate].
  destruct sel; try discriminate. intros P.
  simpl is_None; cbv iota. unfold py_in. rewrite P. simpl negb; cbv iota.
  rewrite (dict_set_same _ _ _ G). destruct u; reflexivity.
Qed.

Lemma same_but_selection_refl u : same_but_selection u u.
Proof. repeat split; auto. Qed.

Lemma same_but_selection_trans u1 u2 u3 :
  same_but_selection u1 u2 -> same_but_selection u2 u3 -> same_but_selection u1 u3.
Proof.
  intros (A1 & A2 & A3) (B1 & B2 & B3). repeat split; try congruence.
  intros k Hk. rewrite B3, A3; auto.
Qed.

Lemma select_flag_keeps_bit (z z' : Z) (u u' : UFO) r :
  select_flag z u = (u', r) -> has_bit z' u -> has_bit z' u'.
Proof.
  intros E Hb. unfold has_bit in *.
  destruct (select_flag_spec z u u' r E) as (_ & _ & _ & [->|(-> & _)]).
  - exact Hb.
  - rewrite py_in_list_app, Hb. reflexivity.
Qed.

(** The whole loop: the list only grows at its end, by bits of flags read
    as true that it did not hold. *)
Lemma os2_effect_spec (reads : list (res value * Z)) :
  forall u u' r,
    os2_effect reads u = (u', r) ->
    same_but_selection u u' /\
    (forall z, has_bit z u -> has_bit z u') /\
    exists extra,
      selection_bits u' = selection_bits u ++ extra /\
      NoDup extra /\
      (forall x, In x extra ->
         py_in_list x (selection_bits u) = false /\
         exists g z, In (Ok g, z) reads /\ truthy g = true /\ x = VInt z).
Proof.
  induction reads as [|[[g|e] z] reads IH]; intros u u' r E; simpl in E.
  - injection E as <- <-. split; [apply same_but_selection_refl|]. split; auto.
    exists []. rewrite app_nil_r. repeat split; [constructor | destruct H | destruct H].
  - destruct (truthy g) eqn:T.
    + destruct (select_flag z u) as [u1 [[]|e]] eqn:Es.
      * destruct (select_flag_spec z u u1 _ Es) as (F1 & _ & _ & Hbits).
        destruct (IH u1 u' r E) as (F2 & K2 & extra & B2 & ND2 & X2).
        split; [eapply same_but_selection_trans; eauto|].
        split. { intros z' Hz'. apply K2. eapply select_flag_keeps_bit; eauto. }
        destruct Hbits as [Eb|(Eb & Hnew & _)]; rewrite Eb in B2, X2.
        -- exists extra. split; [exact B2|]. split; [exact ND2|].
           intros x Hx. destruct (X2 x Hx) as (P & g' & z' & Hi & Ht & ->).
           split; [exact P|]. exists g', z'. simpl; auto.
        -- exists (VInt z :: extra). rewrite <- app_assoc in B2. simpl in B2.
           split; [exact B2|]. split.
           ++ constructor; [|exact ND2]. intros Hin.
              destruct (X2 _ Hin) as (P & _). rewrite py_in_list_app in P.
              simpl in P. rewrite Z.eqb_refl, orb_true_r in P. discriminate.
           ++ intros x [<-|Hx].
              ** split; [exact Hnew|]. exists g, z. simpl; auto.
              ** destruct (X2 x Hx) as (P & g' & z' & Hi & Ht & ->).
                 rewrite py_in_list_app in P. apply orb_false_iff in P as [P _].
                 split; [exact P|]. exists g', z'. simpl; auto.
      * injection E as <- <-.
        destruct (select_flag_spec z u u1 _ Es) as (_ & Hsame & _).
        rewrite (Hsame ltac:(discriminate)).
        split; [apply same_but_selection_refl|]. split; auto.
        exists []. rewrite app_nil_r.
        repeat split; [constructor | destruct H | destruct H].
    + destruct (IH u u' r E) as (F2 & K2 & extra & B2 & ND2 & X2).
      split; [exact F2|]. split; [exact K2|].
      exists extra. split; [exact B2|]. split; [exact ND2|].
      intros x Hx. destruct (X2 x Hx) as (P & g' & z' & Hi & Ht & ->).
      split; [exact P|]. exists g', z'. simpl; auto.
  - injection E as <- <-. split; [apply same_but_selection_refl|]. split; auto.
    exists []. rewrite app_nil_r. repeat split; [constructor | destruct H | destruct H].
Qed.

(** Running the loop again from where it stopped changes nothing. *)
Lemma os2_effect_idem (reads : list (res value * Z)) :
  forall u u' r, os2_effect reads u = (u', r) -> os2_effect reads u' = (u', r).
Proof.
  induction reads as [|[[g|e] z] reads IH]; intros u u' r E; simpl in E |- *.
  - injection E as <- <-; reflexivity.
  - destruct (truthy g) eqn:T; [|eauto].
    destruct (select_flag z u) as [u1 [[]|e]] eqn:Es.
    + destruct (select_flag_spec z u u1 _ Es) as (_ & _ & Hb & _).
      destruct (os2_effect_spec reads u1 u' r E) as (_ & K & _).
      rewrite (select_flag_noop z u' (K z (Hb eq_refl))). eauto.
    + injection E as <- <-.
      destruct (select_flag_spec z u u1 _ Es) as (_ & Hsame & _).
      rewrite (Hsame ltac:(discriminate)) in *. rewrite Es. reflexivity.
  - injection E as <- <-; reflexivity.
Qed.

Section OS2SelectionClaims.

Lemma flag_reads_In (w : world) (flags : list (ustr * Z)) g z :
  In (Ok g, z) (flag_reads w flags) ->
  exists name, In (name, z) flags /\
               single_value (lookup_values (glyphs_lookup w) name) = Ok g.
Proof.
  unfold flag_reads. rewrite in_map_iff. intros ([name z'] & E & Hin).
  simpl in E. injection E as E <-. exists name; auto.
Qed.

(** C7.  For any state of the pair, [OS2SelectionParamHandler.to_ufo]
    keeps every bit listed under [openTypeOS2Selection]: the new list is
    the old one followed by bits of flags whose native value is true, and
    nothing else of the UFO or of the native object changes (also when the
    call raises). *)
Theorem os2_selection_to_ufo_monotonic (w : world) :
  let w' := fst (OS2SelectionParamHandler.to_ufo w) in
  (forall b, In b (selection_bits (ufo_owner w)) ->
             In b (selection_bits (ufo_owner w'))) /\
  (exists extra,
     selection_bits (ufo_owner w') = selection_bits (ufo_owner w) ++ extra /\
     forall x, In x extra ->
       exists name z g,
         In (name, z) OS2SelectionParamHandler.flags /\
         single_value (lookup_values (glyphs_lookup w) name) = Ok g /\
         truthy g = true /\ x = VInt z) /\
  same_but_selection (ufo_owner w) (ufo_owner w') /\
  glyphs_owner w' = glyphs_owner w.
Proof.
  intros w'. subst w'. unfold OS2SelectionParamHandler.to_ufo.
  destruct (os2_loop_run OS2SelectionParamHandler.flags w)
    as (w' & -> & Hu & _ & Ho & _).
  simpl fst. rewrite Hu.
  destruct (os2_effect (flag_reads w OS2SelectionParamHandler.flags) (ufo_owner w))
    as [u' r] eqn:E.
  destruct (os2_effect_spec _ _ _ _ E) as (F & _ & extra & B & _ & X).
  simpl fst. split; [|split; [|split]]; auto.
  - intros b Hb. rewrite B. apply in_or_app; auto.
  - exists extra. split; [exact B|].
    intros x Hx. destruct (X x Hx) as (_ & g & z & Hin & T & ->).
    destruct (flag_reads_In _ _ _ _ Hin) as (name & Hf & Hr).
    exists name, z, g. auto.
Qed.

(** C10.  [OS2SelectionParamHandler.to_ufo] appends a flag's bit only
    when the list does not hold it: what it appends is duplicate-free and
    disjoint from the list it found, so a duplicate-free list stays
    duplicate-free; and a second run on the resulting pair changes
    nothing: same UFO, same outcome. *)
Theorem os2_selection_to_ufo_idempotent (w : world) :
  let r1 := OS2SelectionParamHandler.to_ufo w in
  let r2 := OS2SelectionParamHandler.to_ufo (fst r1) in
  (exists extra,
     selection_bits (ufo_owner (fst r1)) = selection_bits (ufo_owner w) ++ extra /\
     NoDup extra /\
     forall x, In x extra ->
       py_in_list x (selection_bits (ufo_owner w)) = false /\
       ~ In x (selection_bits (ufo_owner w))) /\
  (NoDup (selection_bits (ufo_owner w)) ->
   NoDup (selection_bits (ufo_owner (fst r1)))) /\
  ufo_owner (fst r2) = ufo_owner (fst r1) /\
  snd r2 = snd r1.
Proof.
  intros r1 r2. subst r1 r2. unfold OS2SelectionParamHandler.to_ufo.
  destruct (os2_loop_run OS2SelectionParamHandler.flags w)
    as (w1 & -> & Hu & S & _).
  cbv beta iota delta [fst snd].
  destruct (os2_loop_run OS2SelectionParamHandler.flags w1)
    as (w2 & -> & Hu2 & _).
  cbv beta iota delta [fst snd]. rewrite Hu2, Hu.
  rewrite (flag_reads_same w w1 _ S).
  destruct (os2_effect (flag_reads w OS2SelectionParamHandler.flags) (ufo_owner w))
    as [u' r] eqn:E.
  cbv beta iota delta [fst snd].
  rewrite (os2_effect_idem _ _ _ _ E). cbv beta iota delta [fst snd].
  destruct (os2_effect_spec _ _ _ _ E) as (_ & _ & extra & B & ND & X).
  assert (Xn : forall x, In x extra ->
             py_in_list x (selection_bits (ufo_owner w)) = false /\
             ~ In x (selection_bits (ufo_owner w))).
  { intros x Hx. destruct (X x Hx) as (P & g & z & _ & _ & ->).
    split; [exact P | apply py_in_list_false_not_In; exact P]. }
  split; [|split; [|split]]; auto.
  - exists extra; auto.
  - intros ND0. rewrite B. apply NoDup_app; auto.
    intros a Ha Hx. destruct (Xn a Hx) as (_ & N). contradiction.
Qed.

End OS2SelectionClaims.

Lemma os2_selection_to_ufo_idempotent_witness :
  let o := mkGSObject (U "GSFont")
             [(U "Use Typo Metrics", VBool true); (U "Has WWS Names", VInt 1)] [] in
  let u := mkUFO [(U "openTypeOS2Selection", VList [VInt 7])] [] VNone in
  let w := GlyphsObjectProxy.init o u [] in
  let r1 := OS2SelectionParamHandler.to_ufo w in
  selection_bits (ufo_owner (fst r1)) = [VInt 7; VInt 8] /\
  NoDup (selection_bits (ufo_owner (fst r1))) /\
  ufo_owner (fst (OS2SelectionParamHandler.to_ufo (fst r1)))
    = ufo_owner (fst r1).
Proof.
  intros o u w r1. split; [vm_compute; reflexivity|]. split.
  - apply (proj1 (proj2 (os2_selection_to_ufo_idempotent w))).
    vm_compute. constructor; [intros []|constructor].
  - apply (proj1 (proj2 (proj2 (os2_selection_to_ufo_idempotent w)))).
Defined.

(** ** Stepping through a computation *)

Lemma bind_run {A B} (m : M A) (f : A -> M B) w w' a :
  m w = (w', Ok a) -> bind m f w = f a w'.
Proof. unfold bind; intros ->; reflexivity. Qed.

Lemma bind_run_raise {A B} (m : M A) (f : A -> M B) w w' e :
  m w = (w', Raise e) -> bind m f w = (w', Raise e).
Proof. unfold bind; intros ->; reflexivity. Qed.

Lemma bind_lift_ok {A B} (a : A) (f : A -> M B) w :
  bind (lift (Ok a)) f w = f a w.
Proof. reflexivity. Qed.


Lemma res_map_length {A B} (f : A -> res B) l ys :
  res_map f l = Ok ys -> length ys = length l.
Proof.
  revert ys; induction l as [|x l IH]; intros ys E; simpl in E.
  - injection E as <-; reflexivity.
  - destruct (f x); simpl in E; [|discriminate].
    destruct (res_map f l); simpl in E; [|discriminate].
    injection E as <-. simpl. rewrite (IH _ eq_refl); reflexivity.
Qed.

(** ** FilterParamHandler.to_ufo *)

Section FilterClaim.
Context `{Imports}.

(** C9.  When the native object has neither 'PreFilter' nor 'Filter'
    parameters, [FilterParamHandler.to_ufo] returns without touching the
    UFO: no empty list appears under the ufo2ft filters key.  When it has
    some and they parse, the parsed pre-filters followed by the parsed
    filters are appended to the list found under that key (a new list
    when the key is missing); the entries found stay in front, and no
    other key, info attribute or feature text changes. *)
Theorem filter_to_ufo_appends (params : list (ustr * value)) (w : world) :
  lookup_ok params w ->
  let r := FilterParamHandler.to_ufo w in
  (values_of (U "PreFilter") params = [] -> values_of (U "Filter") params = [] ->
   snd r = Ok tt /\ ufo_owner (fst r) = ufo_owner w /\
   ufo_handled (fst r) = ufo_handled w) /\
  (forall pre_filters filters old,
     res_map (fun f => parse_glyphs_filter f true)
             (values_of (U "PreFilter") params) = Ok pre_filters ->
     res_map (fun f => parse_glyphs_filter f false)
             (values_of (U "Filter") params) = Ok filters ->
     pre_filters ++ filters <> [] ->
     dict_get (lib (ufo_owner w)) UFO2FT_FILTERS_KEY = None /\ old = [] \/
     dict_get (lib (ufo_owner w)) UFO2FT_FILTERS_KEY = Some (VList old) ->
     snd r = Ok tt /\
     lib (ufo_owner (fst r)) =
       dict_set (lib (ufo_owner w)) UFO2FT_FILTERS_KEY
                (VList (old ++ pre_filters ++ filters)) /\
     info (ufo_owner (fst r)) = info (ufo_owner w) /\
     features_text (ufo_owner (fst r)) = features_text (ufo_owner w)).
Proof.
  intros L r. subst r. unfold FilterParamHandler.to_ufo.
  destruct (get_custom_values_run w (U "PreFilter")) as (lk1 & R1 & S1).
  rewrite (bind_run _ _ _ _ _ R1), (L _). simpl py_iter. rewrite bind_lift_ok.
  set (w1 := read_state (U "PreFilter") lk1 w).
  destruct (get_custom_values_run w1 (U "Filter")) as (lk2 & R2 & S2).
  assert (E2 : lookup_values (glyphs_lookup w1) (U "Filter")
               = values_of (U "Filter") params).
  { change (glyphs_lookup w1) with lk1. rewrite S1. apply L. }
  rewrite E2 in R2.
  set (w2 := read_state (U "Filter") lk2 w1) in *.
  split.
  - intros E1 E0. rewrite E1. rewrite E0 in R2. simpl res_map.
    rewrite bind_lift_ok.
    rewrite (bind_run _ _ _ _ _ R2). simpl py_iter. rewrite !bind_lift_ok.
    simpl. unfold ret. auto.
  - intros pf ff old Ep Ef Hne Hold.
    rewrite Ep, bind_lift_ok, (bind_run _ _ _ _ _ R2). simpl py_iter.
    rewrite bind_lift_ok, Ef, bind_lift_ok.
    destruct (pf ++ ff) as [|x xs] eqn:Exs; [contradiction Hne; reflexivity|].
    rewrite <- Exs. clear Hne.
    unfold FilterParamHandler.extend_lib_list, UFOProxy.has_lib_key,
      UFOProxy.get_lib_value, UFOProxy.set_lib_value.
    monad_simpl. change (ufo_owner w2) with (ufo_owner w).
    rewrite dict_has_get.
    destruct Hold as [[Hold ->]|Hold].
    + rewrite !Hold; simpl.
      rewrite dict_get_set_eq. simpl. rewrite dict_set_twice. auto.
    + rewrite !Hold; simpl. subst w1 w2; simpl. rewrite Hold; simpl. auto.
Qed.

End FilterClaim.

Lemma filter_to_ufo_appends_witness :
  let o := mkGSObject (U "GSFontMaster")
             [(U "Filter", VStr (U "RemoveOverlap")); (U "PreFilter", VStr (U "Decompose"))]
             [] in
  let key := U "com.github.googlei18n.ufo2ft.filters" in
  let u := mkUFO [] [(U "other", VInt 1); (key, VList [VStr (U "kept")])] VNone in
  let r := @FilterParamHandler.to_ufo sample_imports (GlyphsObjectProxy.init o u []) in
  snd r = Ok tt /\
  lib (ufo_owner (fst r)) =
    [ (U "other", VInt 1);
      (key, VList [ VStr (U "kept");
                    VDict [(U "name", VStr (U "Decompose")); (U "pre", VBool true)];
                    VDict [(U "name", VStr (U "RemoveOverlap")); (U "pre", VBool false)] ]) ].
Proof.
  intros o key u r.
  destruct (proj2 (@filter_to_ufo_appends sample_imports (customParameters o)
                     (GlyphsObjectProxy.init o u []) (init_lookup_ok o u []))
              [VDict [(U "name", VStr (U "Decompose")); (U "pre", VBool true)]]
              [VDict [(U "name", VStr (U "RemoveOverlap")); (U "pre", VBool false)]]
              [VStr (U "kept")])
    as (R & Lb & _).
  - vm_compute; reflexivity.
  - vm_compute; reflexivity.
  - discriminate.
  - right; vm_compute; reflexivity.
  - split; [exact R|]. subst r. rewrite Lb. vm_compute; reflexivity.
Defined.

(** ** ReplaceFeatureParamHandler *)

Section ReplaceFeatureClaim.
Context `{Imports}.

Lemma to_ufo_value_frame (v : value) (w : world) :
  same_but_features w (fst (ReplaceFeatureParamHandler.to_ufo_value v w)).
Proof.
  unfold ReplaceFeatureParamHandler.to_ufo_value,
    ReplaceFeatureParamHandler.set_features_text. monad_simpl.
  destruct (re_split_semicolon v) as [[|tag [|repl [|x parts]]]|];
    try (repeat split; reflexivity).
  destruct (replace_feature _ _ _); repeat split; reflexivity.
Qed.

(** The loop of [to_ufo] rewrites the feature text and nothing else. *)
Lemma replace_feature_loop_frame (values : list value) :
  forall w,
    same_but_features w
      (fst (for_each values ReplaceFeatureParamHandler.to_ufo_value w)).
Proof.
  induction values as [|v values IH]; intros w.
  - repeat split; reflexivity.
  - rewrite for_each_cons. unfold bind.
    pose proof (to_ufo_value_frame v w) as F.
    destruct (ReplaceFeatureParamHandler.to_ufo_value v w) as [w1 [[]|e]];
      simpl fst in *; [|exact F].
    destruct F as (F1 & F2 & F3 & F4 & F5 & F6 & F7).
    destruct (IH w1) as (I1 & I2 & I3 & I4 & I5 & I6 & I7).
    repeat split; congruence.
Qed.

(** [to_ufo] marks 'Replace Feature' as handled and touches only the
    feature text. *)
Lemma replace_feature_to_ufo_frame (w : world) :
  let w' := fst (ReplaceFeatureParamHandler.to_ufo w) in
  In (U "Replace Feature") (glyphs_handled w') /\
  info (ufo_owner w') = info (ufo_owner w) /\
  lib (ufo_owner w') = lib (ufo_owner w) /\
  glyphs_owner w' = glyphs_owner w.
Proof.
  unfold ReplaceFeatureParamHandler.to_ufo.
  destruct (get_custom_values_run w (U "Replace Feature")) as (lk' & R & S).
  rewrite (bind_run _ _ _ _ _ R). simpl py_iter. rewrite bind_lift_ok.
  set (w1 := read_state (U "Replace Feature") lk' w).
  destruct (replace_feature_loop_frame
              (lookup_values (glyphs_lookup w) (U "Replace Feature")) w1)
    as (F1 & F2 & F3 & F4 & F5 & F6 & F7).
  cbv zeta. rewrite F1, F2, F6, F7.
  repeat split; try reflexivity.
  subst w1; simpl. apply set_add_In; auto.
Qed.

(** C8.  [ReplaceFeatureParamHandler.to_glyphs] returns at once and
    leaves the whole state (native object, UFO and both proxies) as it
    found it; [to_ufo], for its part, marks 'Replace Feature' as handled
    (so the parameter is not copied to the lib as a leftover) and touches
    only the feature text: nothing is left in the UFO from which the
    parameter could be rebuilt. *)
Theorem replace_feature_to_glyphs_noop (w : world) :
  ReplaceFeatureParamHandler.to_glyphs w = (w, Ok tt) /\
  (let w' := fst (ReplaceFeatureParamHandler.to_ufo w) in
   In (U "Replace Feature") (glyphs_handled w') /\
   info (ufo_owner w') = info (ufo_owner w) /\
   lib (ufo_owner w') = lib (ufo_owner w) /\
   glyphs_owner w' = glyphs_owner w).
Proof.
  split; [reflexivity | apply replace_feature_to_ufo_frame].
Qed.

End ReplaceFeatureClaim.

(** ** ParamHandler: reading and writing the native side *)

(** A single-valued handler reads the short name first and the long alias
    only when that read returned None. *)
Lemma read_from_glyphs_single (self : ParamHandler.t) (w : world) :
  ParamHandler.glyphs_multivalued self = false ->
  exists lk1 lk2,
    same_lookup (glyphs_lookup w) lk1 /\ same_lookup (glyphs_lookup w) lk2 /\
    let short := ParamHandler.glyphs_name self in
    let w1 := read_state short lk1 w in
    ParamHandler._read_from_glyphs self w =
      match single_value (lookup_values (glyphs_lookup w) short) with
      | Raise e => (w1, Raise e)
      | Ok v =>
          if negb (is_None v) then (w1, Ok v)
          else match ParamHandler.glyphs_long_name self with
               | Some long =>
                   (read_state long lk2 w1,
                    single_value (lookup_values (glyphs_lookup w) long))
               | None => (w1, Ok VNone)
               end
      end.
Proof.
  intros Hm. unfold ParamHandler._read_from_glyphs, ParamHandler.getter.
  rewrite Hm.
  destruct (get_custom_value_run w (ParamHandler.glyphs_name self))
    as (lk1 & R1 & S1).
  set (w1 := read_state (ParamHandler.glyphs_name self) lk1 w) in *.
  destruct (ParamHandler.glyphs_long_name self) as [long|] eqn:El.
  - destruct (get_custom_value_run w1 long) as (lk2 & R2 & S2).
    exists lk1, lk2. split; [exact S1|]. split.
    { eapply same_lookup_trans; [exact S1 | exact S2]. }
    cbv zeta. unfold bind. rewrite R1.
    destruct (single_value _) as [v|e]; [|reflexivity].
    destruct (negb (is_None v)); [reflexivity|].
    rewrite R2. change (glyphs_lookup w1) with lk1. rewrite S1. reflexivity.
  - exists lk1, lk1. split; [exact S1|]. split; [exact S1|].
    cbv zeta. unfold bind. rewrite R1.
    destruct (single_value _) as [v|e]; [|reflexivity].
    destruct v; reflexivity.
Qed.

(** A multivalued handler returns the list found under the short name,
    empty or not, and never reads the long alias. *)
Lemma read_from_glyphs_multivalued (self : ParamHandler.t) (w : world) :
  ParamHandler.glyphs_multivalued self = true ->
  exists lk1,
    same_lookup (glyphs_lookup w) lk1 /\
    ParamHandler._read_from_glyphs self w =
      (read_state (ParamHandler.glyphs_name self) lk1 w,
       Ok (VList (lookup_values (glyphs_lookup w) (ParamHandler.glyphs_name self)))).
Proof.
  intros Hm. unfold ParamHandler._read_from_glyphs, ParamHandler.getter.
  rewrite Hm.
  destruct (get_custom_values_run w (ParamHandler.glyphs_name self))
    as (lk1 & R1 & S1).
  exists lk1. split; [exact S1|]. unfold bind. rewrite R1. reflexivity.
Qed.

(** Writing appends under the short name, whatever the long alias. *)
Lemma write_to_glyphs_single (self : ParamHandler.t) (v : value) (w : world) :
  ParamHandler.glyphs_multivalued self = false ->
  ParamHandler._write_to_glyphs self v w =
    (set_glyphs_owner
       (mkGSObject (class_name (glyphs_owner w))
          (customParameters (glyphs_owner w) ++ [(ParamHandler.glyphs_name self, v)])
          (attributes (glyphs_owner w))) w,
     Ok tt).
Proof.
  intros Hm. unfold ParamHandler._write_to_glyphs. rewrite Hm. reflexivity.
Qed.

(** C3.  A multivalued handler with a long alias, on an object that holds
    its parameter under the long alias only: the read returns the empty
    list found under the short name and the long alias is never read (it
    is not even marked as handled); the same handler without the
    multivalued flag reads the long alias. *)
Theorem multivalued_read_skips_long_alias :
  let o := mkGSObject (U "GSFont") [(U "openTypeNameRecords", VStr (U "r"))] [] in
  let w := GlyphsObjectProxy.init o (fresh_ufo []) [] in
  let multi := ParamHandler.init (U "Name Table Entry") None
                 (Some (U "openTypeNameRecords")) true [] true VNone
                 identity identity in
  let single := ParamHandler.init (U "Name Table Entry") None
                  (Some (U "openTypeNameRecords")) false [] true VNone
                  identity identity in
  snd (ParamHandler._read_from_glyphs multi w) = Ok (VList []) /\
  glyphs_handled (fst (ParamHandler._read_from_glyphs multi w))
    = [U "Name Table Entry"] /\
  snd (ParamHandler._read_from_glyphs single w) = Ok (VStr (U "r")) /\
  glyphs_handled (fst (ParamHandler._read_from_glyphs single w))
    = [U "Name Table Entry"; U "openTypeNameRecords"].
Proof. vm_compute. repeat split; reflexivity. Qed.

(** ** Default-value retraction *)

(** C5.  Retraction looks under the short name only: a default value held
    under the long alias stays, alone or beside the short name. *)
Theorem unset_default_params_misses_long_alias :
  _unset_default_params [(U "fsType", VList [VInt 3])] = [] /\
  _unset_default_params [(U "openTypeOS2Type", VList [VInt 3])]
    = [(U "openTypeOS2Type", VList [VInt 3])] /\
  _unset_default_params
    [(U "underlineThickness", VInt 50); (U "postscriptUnderlineThickness", VInt 50)]
    = [(U "postscriptUnderlineThickness", VInt 50)].
Proof. vm_compute. repeat split; reflexivity. Qed.

(** ** The sweep of unhandled lib entries *)

Section LeftoverSweep.
Context `{Imports}.

(** The parameters the sweep appends: the unhandled entries whose
    normalized key starts with the namespace and the kind sub-namespace,
    under the rest of that key. *)
Lemma leftover_to_glyphs_loop (prefix : ustr) (items : list (ustr * value)) :
  forall w,
    for_each items (leftover_to_glyphs prefix) w =
      (set_glyphs_owner
         (mkGSObject (class_name (glyphs_owner w))
            (customParameters (glyphs_owner w) ++ swept_params prefix items)
            (attributes (glyphs_owner w))) w,
       Ok tt).
Proof.
  induction items as [|[key v] items IH]; intros w.
  - simpl. rewrite app_nil_r. destruct w as [[] ? ? ? ? ?]; reflexivity.
  - rewrite for_each_cons. unfold bind, leftover_to_glyphs at 1.
    unfold swept_params. cbn [filter fst snd].
    destruct (startswith (_normalize_custom_param_name key) prefix);
      cbn [negb map fst snd].
    + unfold GlyphsObjectProxy.set_custom_value, modify. rewrite IH.
      cbn [glyphs_owner set_glyphs_owner class_name customParameters attributes].
      rewrite <- app_assoc. reflexivity.
    + unfold ret. apply IH.
Qed.

End LeftoverSweep.

(** ** Rules for [steps] *)

Section Steps.
Variable R : world -> world -> Prop.
Hypothesis R_refl : forall w, R w w.
Hypothesis R_trans : forall a b c, R a b -> R b c -> R a c.

Lemma run_ret {A} (a : A) w : R w (fst (ret a w)).
Proof. apply R_refl. Qed.

Lemma run_raise {A} (e : exn) w : R w (fst (@raise A e w)).
Proof. apply R_refl. Qed.

Lemma run_lift {A} (r : res A) w : R w (fst (lift r w)).
Proof. apply R_refl. Qed.

Lemma run_modify (f : world -> world) w : R w (f w) -> R w (fst (modify f w)).
Proof. intros Hf; exact Hf. Qed.

Lemma run_bind {A B} (m : M A) (f : A -> M B) w :
  R w (fst (m w)) -> (forall a w1, R w1 (fst (f a w1))) ->
  R w (fst (bind m f w)).
Proof.
  intros Hm Hf. unfold bind.
  destruct (m w) as [w1 [a|e]]; simpl in *; [|exact Hm].
  eapply R_trans; [exact Hm | apply Hf].
Qed.

(** After [get_world] the continuation runs on the state itself. *)
Lemma run_bind_get_world {B} (f : world -> M B) w :
  R w (fst (f w w)) -> R w (fst (bind get_world f w)).
Proof. intros Hf; exact Hf. Qed.

Lemma run_for_each {A} (l : list A) (f : A -> M unit) :
  (forall x w1, In x l -> R w1 (fst (f x w1))) ->
  forall w, R w (fst (for_each l f w)).
Proof.
  induction l as [|x l IH]; intros Hf w; simpl.
  - apply R_refl.
  - apply run_bind; [apply Hf; left; reflexivity|].
    intros _ w1. apply IH. intros y w2 Hy; apply Hf; right; exact Hy.
Qed.

End Steps.

(** Follows the structure of a computation run from a state: what is
    left are the state changes themselves. *)
Ltac run_structure refl_tac trans_tac :=
  repeat match goal with
    | |- ?R ?w (fst (ret ?a ?w)) => apply (run_ret R); refl_tac
    | |- ?R ?w (fst (raise ?e ?w)) => apply (run_raise R); refl_tac
    | |- ?R ?w (fst (lift ?r ?w)) => apply (run_lift R); refl_tac
    | |- ?R ?w (fst (bind get_world ?f ?w)) =>
        apply (run_bind_get_world R f w); cbv beta
    | |- ?R ?w (fst (bind ?m ?f ?w)) =>
        apply (run_bind R); [trans_tac | | intros ? ?]
    | |- ?R ?w (fst (for_each ?l ?f ?w)) =>
        apply (run_for_each R); [refl_tac | trans_tac | intros ? ? ?]
    | |- ?R ?w (fst ((if ?b then _ else _) ?w)) => destruct b
    | |- ?R ?w (fst ((match ?x with _ => _ end) ?w)) => destruct x
    | |- ?R ?w (fst ((let _ := _ in _) ?w)) => cbv zeta
    end.

Lemma steps_weaken {A} (R R' : world -> world -> Prop) (m : M A) :
  (forall w w', R w w' -> R' w w') -> steps R m -> steps R' m.
Proof. intros Hsub Hm w; apply Hsub, Hm. Qed.



(** ** Footprint of the handlers when going to Glyphs *)

Lemma glyphs_step_refl S N w : glyphs_step S N w w.
Proof.
  unfold glyphs_step. repeat split; auto.
  exists []. rewrite app_nil_r. split; [reflexivity | intros p []].
Qed.

Lemma glyphs_step_trans S N a b c :
  glyphs_step S N a b -> glyphs_step S N b c -> glyphs_step S N a c.
Proof.
  intros (A1 & A2 & A3 & A4 & A5 & (e1 & A6 & A7) & A8 & A9)
         (B1 & B2 & B3 & B4 & B5 & (e2 & B6 & B7) & B8 & B9).
  unfold glyphs_step. repeat split; try congruence; auto.
  - exists (e1 ++ e2). rewrite B6, A6, app_assoc. split; [reflexivity|].
    intros p Hp. apply in_app_iff in Hp as [|]; auto.
  - intros k Hk. destruct (B8 k Hk) as [Hb|Hb]; auto. rewrite A1 in Hb; auto.
Qed.

Lemma glyphs_step_weaken (S S' : ustr -> ustr -> Prop) (N N' : ustr -> Prop) w w' :
  (forall sk k, S sk k -> S' sk k) -> (forall n, N n -> N' n) ->
  glyphs_step S N w w' -> glyphs_step S' N' w w'.
Proof.
  intros HS HN (A1 & A2 & A3 & A4 & A5 & (e1 & A6 & A7) & A8 & A9).
  unfold glyphs_step. repeat split; auto.
  - exists e1. split; auto.
  - intros k Hk. destruct (A8 k Hk); auto.
Qed.

Section GlyphsFootprint.
Context `{Imports}.

Ltac glyphs_run :=
  run_structure ltac:(apply glyphs_step_refl) ltac:(apply glyphs_step_trans).

Lemma run_get_lib_value (S : ustr -> ustr -> Prop) N (name : ustr) (w : world) :
  S (sub_key w) name ->
  glyphs_step S N w (fst (UFOProxy.get_lib_value name w)).
Proof.
  intros HS. unfold UFOProxy.get_lib_value. monad_simpl.
  destruct (dict_get (lib (ufo_owner w)) name); [|apply glyphs_step_refl].
  unfold glyphs_step; simpl. repeat split; auto.
  - exists []. rewrite app_nil_r. split; [reflexivity | intros p []].
  - intros k Hk. apply set_add_In in Hk as [->|]; auto.
  - intros k Hk. apply set_add_In; auto.
Qed.

Lemma run_set_custom_value S (N : ustr -> Prop) (key : ustr) (v : value) w :
  N key ->
  glyphs_step S N w (fst (GlyphsObjectProxy.set_custom_value key v w)).
Proof.
  intros HN. unfold GlyphsObjectProxy.set_custom_value, modify.
  unfold glyphs_step; simpl. repeat split; auto.
  exists [(key, v)]. split; [reflexivity|]. intros p [<-|[]]; exact HN.
Qed.

Lemma run_set_attribute_value S N (key : ustr) (v : value) w :
  glyphs_step S N w (fst (GlyphsObjectProxy.set_attribute_value key v w)).
Proof.
  unfold GlyphsObjectProxy.set_attribute_value. monad_simpl.
  destruct (dict_has _ _); [|apply glyphs_step_refl].
  unfold glyphs_step; simpl. repeat split; auto.
  exists []. rewrite app_nil_r. split; [reflexivity | intros p []].
Qed.

Lemma run_read_from_ufo (p : ParamHandler.t) S N w :
  (forall sk, S sk (ParamHandler.lib_key p sk)) ->
  glyphs_step S N w (fst (ParamHandler._read_from_ufo p w)).
Proof.
  intros HS. unfold ParamHandler._read_from_ufo, UFOProxy.has_info_attr,
    UFOProxy.get_info_value.
  glyphs_run. apply run_get_lib_value, HS.
Qed.

Lemma run_write_to_glyphs (p : ParamHandler.t) S (N : ustr -> Prop) v w :
  N (ParamHandler.glyphs_name p) ->
  glyphs_step S N w (fst (ParamHandler._write_to_glyphs p v w)).
Proof.
  intros HN. unfold ParamHandler._write_to_glyphs,
    GlyphsObjectProxy.set_custom_values.
  glyphs_run; apply run_set_custom_value; exact HN.
Qed.

(** Every handler, going to Glyphs, stays within its footprint. *)
Lemma handler_to_glyphs_steps (h : Handler) :
  steps (glyphs_step (lib_reads h) (param_writes h)) (handler_to_glyphs h).
Proof.
  intros w. destruct h as [p|p|p| | |]; simpl handler_to_glyphs.
  - unfold ParamHandler.to_glyphs, ParamHandler.to_glyphs_via.
    apply run_bind; [apply glyphs_step_trans | |intros v w1].
    { apply run_read_from_ufo. intros sk; reflexivity. }
    glyphs_run. apply run_write_to_glyphs. reflexivity.
  - unfold EmptyListDefaultParamHandler.to_glyphs.
    apply run_bind; [apply glyphs_step_trans | |intros v w1].
    { apply run_read_from_ufo. intros sk; reflexivity. }
    glyphs_run. apply run_write_to_glyphs. reflexivity.
  - unfold MiscParamHandler.to_glyphs, ParamHandler.to_glyphs_via.
    apply run_bind; [apply glyphs_step_trans | |intros v w1].
    { apply run_read_from_ufo. intros sk; reflexivity. }
    glyphs_run. apply run_set_attribute_value.
  - unfold OS2SelectionParamHandler.to_glyphs, UFOProxy.get_info_value.
    glyphs_run. apply run_set_custom_value. simpl.
    match goal with Hin : In _ OS2SelectionParamHandler.flags |- _ =>
      apply (in_map fst) in Hin; exact Hin end.
  - unfold FilterParamHandler.to_glyphs, GlyphsObjectProxy.set_custom_values.
    apply run_bind; [apply glyphs_step_trans | |intros v w1].
    { apply run_get_lib_value. reflexivity. }
    glyphs_run; apply run_set_custom_value; simpl;
      match goal with |- context [if ?b then _ else _] => destruct b end; auto.
  - apply glyphs_step_refl.
Qed.

End GlyphsFootprint.

Section SweepClaim.
Context `{Imports}.

Lemma handlers_to_glyphs_steps :
  steps (glyphs_step registry_lib_reads registry_param_writes)
        (for_each KNOWN_PARAM_HANDLERS handler_to_glyphs).
Proof.
  intros w. apply run_for_each.
  - apply glyphs_step_refl.
  - apply glyphs_step_trans.
  - intros h w1 Hin.
    eapply glyphs_step_weaken; [| |apply handler_to_glyphs_steps].
    + intros sk k Hk. exists h; auto.
    + intros n Hn. exists h; auto.
Qed.

(** C4, as the code has it.  When the handlers have run (normally), the
    pass appends one parameter for each unhandled lib entry in the
    custom-parameter namespace whose normalized key starts with that
    namespace followed by the sub-namespace of the object's kind, named
    by the rest of the normalized key; the other entries of the
    namespace are skipped.  The retraction of defaults then runs on the
    resulting list. *)
Theorem leftover_lib_entries_appended
    (ufo : UFO) (glyphs_object : GSObject) (w1 : world) :
  for_each KNOWN_PARAM_HANDLERS handler_to_glyphs (init_world ufo glyphs_object)
    = (w1, Ok tt) ->
  let prefix := CUSTOM_PARAM_PREFIX ++ class_name glyphs_object ++ U "." in
  let r := to_glyphs_custom_params ufo glyphs_object in
  snd r = Ok tt /\
  customParameters (glyphs_owner (fst r)) =
    _unset_default_params
      (customParameters (glyphs_owner w1) ++
       swept_params prefix (UFOProxy.unhandled_lib_items w1)) /\
  (forall key v,
     In (key, v) (lib ufo) ->
     startswith key CUSTOM_PARAM_PREFIX = true ->
     ~ In key (ufo_handled w1) ->
     if startswith (_normalize_custom_param_name key) prefix
     then In (skipn (length prefix) (_normalize_custom_param_name key), v)
             (swept_params prefix (UFOProxy.unhandled_lib_items w1))
     else ~ In (key, v)
             (filter (fun kv => startswith (_normalize_custom_param_name (fst kv)) prefix)
                     (UFOProxy.unhandled_lib_items w1))).
Proof.
  intros E prefix r.
  pose proof (handlers_to_glyphs_steps (init_world ufo glyphs_object)) as St.
  rewrite E in St. simpl fst in St.
  destruct St as (Hsk & Hu & _).
  change (sub_key (init_world ufo glyphs_object))
    with (class_name glyphs_object ++ U ".") in Hsk.
  change (ufo_owner (init_world ufo glyphs_object)) with ufo in Hu.
  subst r. unfold to_glyphs_custom_params, to_glyphs_pass.
  rewrite (bind_run _ _ _ _ _ E).
  unfold bind, get_world. rewrite Hsk. fold prefix.
  rewrite leftover_to_glyphs_loop.
  unfold unset_default_params_of_owner, modify.
  cbn [fst snd glyphs_owner set_glyphs_owner customParameters].
  split; [reflexivity|]. split; [reflexivity|].
  intros key v Hin Hst Hnh.
  assert (Hun : In (key, v) (UFOProxy.unhandled_lib_items w1)).
  { unfold UFOProxy.unhandled_lib_items. apply filter_In. rewrite Hu.
    split; [exact Hin|]. simpl. rewrite Hst. simpl.
    destruct (mem_ustr key (ufo_handled w1)) eqn:Em; [|reflexivity].
    apply mem_ustr_In in Em. contradiction. }
  destruct (startswith (_normalize_custom_param_name key) prefix) eqn:Ep.
  - unfold swept_params. apply in_map_iff. exists (key, v). split; [reflexivity|].
    apply filter_In. split; [exact Hun | exact Ep].
  - intros Hf. apply filter_In in Hf as (_ & Hf). simpl in Hf. congruence.
Qed.

End SweepClaim.

(** The claim as stated fails: an unhandled entry of the namespace that
    carries another kind's sub-namespace is not appended under any name. *)
Lemma leftover_of_other_kind_is_skipped :
  let key := U "com.schriftgestaltung.customParameter.GSFontMaster.Foo" in
  let u := mkUFO (info (fresh_ufo sample_info_attrs)) [(key, VInt 1)] VNone in
  let o := mkGSObject (U "GSFont") [] [] in
  let r := @to_glyphs_custom_params sample_imports u o in
  startswith key (@CUSTOM_PARAM_PREFIX sample_imports) = true /\
  snd r = Ok tt /\
  ~ In key (ufo_handled (fst r)) /\
  customParameters (glyphs_owner (fst r)) = [].
Proof.
  vm_compute. repeat split; try reflexivity.
  intros Hin. repeat (destruct Hin as [Hin|Hin]; [discriminate Hin|]). exact Hin.
Qed.

Lemma leftover_lib_entries_appended_witness :
  let u := mkUFO (info (fresh_ufo sample_info_attrs))
             [ (U "com.schriftgestaltung.customParameter.GSFont.Foo Bar", VStr (U "baz"));
               (U "com.schriftgestaltung.customParameter.GSFontMaster.Foo", VInt 1) ]
             VNone in
  let o := mkGSObject (U "GSFont") [] [] in
  let r := @to_glyphs_custom_params sample_imports u o in
  snd r = Ok tt /\
  customParameters (glyphs_owner (fst r)) = [(U "Foo Bar", VStr (U "baz"))].
Proof.
  intros u o r.
  destruct (@leftover_lib_entries_appended sample_imports u o
              (fst (for_each (@KNOWN_PARAM_HANDLERS sample_imports)
                             (@handler_to_glyphs sample_imports)
                             (init_world u o))))
    as (R & P & _).
  - vm_compute; reflexivity.
  - split; [exact R|]. subst r. rewrite P. vm_compute; reflexivity.
Defined.

(** ** Quote normalization is a character map *)

Lemma startswith_nil (s : ustr) : startswith s [] = true.
Proof. destruct s; reflexivity. Qed.

Lemma replace_char_map (old new : N) (s : ustr) :
  str_replace s [old] [new] = map (fun c => if (old =? c)%N then new else c) s.
Proof.
  unfold str_replace. induction s as [|c s IH]; simpl; [reflexivity|].
  rewrite startswith_nil.
  destruct (old =? c)%N; simpl; rewrite IH; reflexivity.
Qed.

Lemma normalize_is_map (name : ustr) :
  _normalize_custom_param_name name = map normalize_char name.
Proof.
  unfold _normalize_custom_param_name, quote_replacements. simpl fold_left.
  change (U "'") with [39%N].
  rewrite !replace_char_map, !map_map. apply map_ext. intros c.
  unfold normalize_char.
  destruct (8216 =? c)%N eqn:E1.
  { apply N.eqb_eq in E1; subst c; reflexivity. }
  destruct (8217 =? c)%N eqn:E2.
  { apply N.eqb_eq in E2; subst c; reflexivity. }
  destruct (8220 =? c)%N eqn:E3.
  { apply N.eqb_eq in E3; subst c; reflexivity. }
  destruct (8221 =? c)%N eqn:E4.
  { apply N.eqb_eq in E4; subst c; reflexivity. }
  rewrite (N.eqb_sym c 8216), (N.eqb_sym c 8217), (N.eqb_sym c 8220),
    (N.eqb_sym c 8221), E1, E2, E3, E4. reflexivity.
Qed.

Lemma normalize_app (a b : ustr) :
  _normalize_custom_param_name (a ++ b) =
  _normalize_custom_param_name a ++ _normalize_custom_param_name b.
Proof. rewrite !normalize_is_map. apply map_app. Qed.

Lemma normalize_char_idem (c : N) : normalize_char (normalize_char c) = normalize_char c.
Proof.
  unfold normalize_char.
  destruct (N.eqb_spec c 8216); [subst; reflexivity|].
  destruct (N.eqb_spec c 8217); [subst; reflexivity|].
  destruct (N.eqb_spec c 8220); [subst; reflexivity|].
  destruct (N.eqb_spec c 8221); [subst; reflexivity|].
  simpl.
  destruct (N.eqb_spec c 8216); [contradiction|].
  destruct (N.eqb_spec c 8217); [contradiction|].
  destruct (N.eqb_spec c 8220); [contradiction|].
  destruct (N.eqb_spec c 8221); [contradiction|]. reflexivity.
Qed.

Lemma normalize_idem (name : ustr) :
  _normalize_custom_param_name (_normalize_custom_param_name name) =
  _normalize_custom_param_name name.
Proof.
  rewrite !normalize_is_map, map_map. apply map_ext, normalize_char_idem.
Qed.

Lemma normalize_length (name : ustr) :
  length (_normalize_custom_param_name name) = length name.
Proof. rewrite normalize_is_map. apply length_map. Qed.





(** ** Footprint of the handlers when going to the UFO *)

Lemma dict_has_set {A} (d : list (ustr * A)) k v a :
  dict_has (dict_set d k v) a = dict_has d a || ustr_eqb a k.
Proof.
  rewrite !dict_has_get. ustr_cases a k.
  - rewrite dict_get_set_eq. destruct (dict_get d k); reflexivity.
  - rewrite dict_get_set_neq by congruence. rewrite orb_false_r. reflexivity.
Qed.

Lemma ufo_step_refl IW LW G w : ufo_step IW LW G w w.
Proof. unfold ufo_step. repeat split; auto. Qed.

Lemma ufo_step_trans IW LW G a b c :
  ufo_step IW LW G a b -> ufo_step IW LW G b c -> ufo_step IW LW G a c.
Proof.
  intros (A1 & A2 & A3 & A4 & A5 & A6 & A7 & A8)
         (B1 & B2 & B3 & B4 & B5 & B6 & B7 & B8).
  unfold ufo_step.
  split; [congruence|]. split; [congruence|].
  split; [eapply same_lookup_trans; eauto|].
  split. { intros k Hk. destruct (B4 k Hk); auto. }
  split; [auto|].
  split. { intros x. rewrite B6; apply A6. }
  split. { intros x Hx. rewrite B7, A7; auto. }
  intros k Hk. rewrite B8, A8; auto. rewrite A1; exact Hk.
Qed.

Lemma ufo_step_weaken (IW IW' : ustr -> Prop) (LW LW' : ustr -> ustr -> Prop)
    (G G' : ustr -> Prop) w w' :
  (forall a, IW a -> IW' a) -> (forall sk k, LW sk k -> LW' sk k) ->
  (forall n, G n -> G' n) ->
  ufo_step IW LW G w w' -> ufo_step IW' LW' G' w w'.
Proof.
  intros HI HL HG (A1 & A2 & A3 & A4 & A5 & A6 & A7 & A8).
  unfold ufo_step. repeat split; auto.
  intros k Hk. destruct (A4 k Hk); auto.
Qed.

Section UfoFootprint.
Context `{Imports}.

Ltac ufo_run := run_structure ltac:(apply ufo_step_refl) ltac:(apply ufo_step_trans).

Lemma read_state_ufo_step IW LW (G : ustr -> Prop) key lk' w :
  G key -> same_lookup (glyphs_lookup w) lk' ->
  ufo_step IW LW G w (read_state key lk' w).
Proof.
  intros HG S. unfold ufo_step; simpl. repeat split; auto.
  - intros k Hk. apply set_add_In in Hk as [->|]; auto.
  - intros k Hk. apply set_add_In; auto.
Qed.

Lemma run_get_custom_value IW LW (G : ustr -> Prop) key w :
  G key -> ufo_step IW LW G w (fst (GlyphsObjectProxy.get_custom_value key w)).
Proof.
  intros HG. destruct (get_custom_value_run w key) as (lk' & -> & S).
  apply read_state_ufo_step; assumption.
Qed.

Lemma run_get_custom_values IW LW (G : ustr -> Prop) key w :
  G key -> ufo_step IW LW G w (fst (GlyphsObjectProxy.get_custom_values key w)).
Proof.
  intros HG. destruct (get_custom_values_run w key) as (lk' & -> & S).
  apply read_state_ufo_step; assumption.
Qed.

Lemma run_set_lib_value IW (LW : ustr -> ustr -> Prop) G key v w :
  LW (sub_key w) key ->
  ufo_step IW LW G w (fst (UFOProxy.set_lib_value key v w)).
Proof.
  intros HL. unfold UFOProxy.set_lib_value, modify.
  unfold ufo_step; simpl. repeat split; auto.
  intros k Hk. apply dict_get_set_neq. intros E'. apply Hk.
  rewrite <- E'. exact HL.
Qed.

Lemma run_write_to_ufo (p : ParamHandler.t) (IW : ustr -> Prop)
    (LW : ustr -> ustr -> Prop) G v w :
  IW (ParamHandler.ufo_name p) ->
  LW (sub_key w) (ParamHandler.lib_key p (sub_key w)) ->
  ufo_step IW LW G w (fst (ParamHandler._write_to_ufo p v w)).
Proof.
  intros HI HL. unfold ParamHandler._write_to_ufo.
  destruct (negb (is_None (ParamHandler.ufo_default p)) &&
            py_eq v (ParamHandler.ufo_default p)); [apply ufo_step_refl|].
  unfold UFOProxy.has_info_attr, UFOProxy.set_info_value. monad_simpl.
  destruct (ParamHandler.ufo_info p); simpl andb.
  - destruct (dict_has (info (ufo_owner w)) (ParamHandler.ufo_name p)) eqn:Eh.
    + unfold ufo_step; simpl. repeat split; auto.
      * intros a. rewrite dict_has_set.
        destruct (ustr_eqb a (ParamHandler.ufo_name p)) eqn:E.
        -- apply ustr_eqb_eq in E. subst a. rewrite Eh; reflexivity.
        -- apply orb_false_r.
      * intros a Ha. apply dict_get_set_neq. intros E'. apply Ha.
        rewrite <- E'. exact HI.
    + apply run_set_lib_value; exact HL.
  - apply run_set_lib_value; exact HL.
Qed.

Lemma run_read_from_glyphs (p : ParamHandler.t) IW LW (G : ustr -> Prop) w :
  (forall n, In n (handler_glyphs_reads (Generic p)) -> G n) ->
  ufo_step IW LW G w (fst (ParamHandler._read_from_glyphs p w)).
Proof.
  intros HG. unfold ParamHandler._read_from_glyphs, ParamHandler.getter.
  simpl in HG.
  assert (Gs : G (ParamHandler.glyphs_name p)) by (apply HG; left; reflexivity).
  destruct (ParamHandler.glyphs_multivalued p).
  - apply run_bind; [apply ufo_step_trans | apply run_get_custom_values; exact Gs|].
    intros v w1. destruct (negb (is_None v)); [apply ufo_step_refl|].
    destruct (ParamHandler.glyphs_long_name p) as [long|]; [|apply ufo_step_refl].
    apply run_get_custom_values. apply HG; right; left; reflexivity.
  - apply run_bind; [apply ufo_step_trans | apply run_get_custom_value; exact Gs|].
    intros v w1. destruct (negb (is_None v)); [apply ufo_step_refl|].
    destruct (ParamHandler.glyphs_long_name p) as [long|]; [|apply ufo_step_refl].
    apply run_get_custom_value. apply HG; right; left; reflexivity.
Qed.

Lemma run_to_ufo_via (read : ParamHandler.t -> M value) (p : ParamHandler.t)
    (IW : ustr -> Prop) (LW : ustr -> ustr -> Prop) G :
  IW (ParamHandler.ufo_name p) ->
  (forall sk, LW sk (ParamHandler.lib_key p sk)) ->
  (forall w, ufo_step IW LW G w (fst (read p w))) ->
  forall w, ufo_step IW LW G w (fst (ParamHandler.to_ufo_via read p w)).
Proof.
  intros HI HL Hread w. unfold ParamHandler.to_ufo_via.
  apply run_bind; [apply ufo_step_trans | apply Hread|].
  intros v w1. destruct (is_None v); [apply ufo_step_refl|].
  apply run_bind; [apply ufo_step_trans | apply run_lift; apply ufo_step_refl|].
  intros v' w2. apply run_write_to_ufo; auto.
Qed.

End UfoFootprint.

Lemma select_flag_has_attr (z : Z) (u : UFO) (a : ustr) :
  dict_has (info (fst (select_flag z u))) a = dict_has (info u) a.
Proof.
  unfold select_flag.
  destruct (dict_get (info u) (U "openTypeOS2Selection")) as [sel|] eqn:G;
    [|reflexivity].
  destruct (py_in _ _) as [present|]; [|reflexivity].
  destruct (if negb present then _ else _) as [sel'|]; [|reflexivity].
  simpl. rewrite dict_has_set.
  destruct (ustr_eqb a (U "openTypeOS2Selection")) eqn:E; [|apply orb_false_r].
  apply ustr_eqb_eq in E. subst a. rewrite dict_has_get, G. reflexivity.
Qed.

Lemma os2_effect_has_attr (reads : list (res value * Z)) (a : ustr) :
  forall u, dict_has (info (fst (os2_effect reads u))) a = dict_has (info u) a.
Proof.
  induction reads as [|[[g|e] z] reads IH]; intros u; simpl; try reflexivity.
  destruct (truthy g); [|apply IH].
  pose proof (select_flag_has_attr z u a) as Hs.
  destruct (select_flag z u) as [u1 [[]|e]]; simpl in *.
  - rewrite IH; exact Hs.
  - exact Hs.
Qed.

(** The names the loop marks as handled are names of flags. *)
Lemma os2_loop_handled (flags : list (ustr * Z)) :
  forall w k,
    In k (glyphs_handled (fst (for_each flags OS2SelectionParamHandler.to_ufo_flag w))) ->
    In k (glyphs_handled w) \/ In k (map fst flags).
Proof.
  induction flags as [|[name z] flags IH]; intros w k.
  - simpl. unfold ret; simpl; auto.
  - destruct (to_ufo_flag_run name z w) as (lk' & S & R).
    rewrite for_each_cons. unfold bind. rewrite R.
    assert (Hst : forall w1, glyphs_handled w1 = glyphs_handled (read_state name lk' w) ->
              In k (glyphs_handled w1) -> In k (glyphs_handled w) \/ In k (map fst ((name, z) :: flags))).
    { intros w1 -> Hk. simpl in Hk. apply set_add_In in Hk as [->|]; simpl; auto. }
    destruct (single_value _) as [g|e]; [|apply Hst; reflexivity].
    destruct (truthy g).
    + destruct (select_flag z (ufo_owner w)) as [u1 [[]|e]]; simpl fst; simpl snd.
      * intros Hk. apply IH in Hk as [Hk|Hk]; [|simpl; auto].
        apply (Hst (read_state name lk' w) eq_refl). exact Hk.
      * apply (Hst _ eq_refl).
    + intros Hk. apply IH in Hk as [Hk|Hk]; [|simpl; auto].
      apply (Hst (read_state name lk' w) eq_refl). exact Hk.
Qed.

Section UfoHandlers.
Context `{Imports}.

(** Every handler, going to the UFO, stays within its footprint. *)
Lemma handler_to_ufo_steps (h : Handler) :
  steps (ufo_step (info_writes h) (lib_reads h)
                  (fun n => In n (handler_glyphs_reads h)))
        (handler_to_ufo h).
Proof.
  intros w. destruct h as [p|p|p| | |]; simpl handler_to_ufo.
  - apply run_to_ufo_via; [reflexivity | intros sk; reflexivity|].
    intros w1. apply run_read_from_glyphs. auto.
  - apply run_to_ufo_via; [reflexivity | intros sk; reflexivity|].
    intros w1. apply run_read_from_glyphs. auto.
  - apply run_to_ufo_via; [reflexivity | intros sk; reflexivity|].
    intros w1. unfold MiscParamHandler._read_from_glyphs,
      GlyphsObjectProxy.get_attribute_value. monad_simpl.
    destruct (dict_get _ _); apply ufo_step_refl.
  - unfold OS2SelectionParamHandler.to_ufo.
    pose proof (os2_loop_handled OS2SelectionParamHandler.flags w) as Hh.
    destruct (os2_loop_run OS2SelectionParamHandler.flags w)
      as (w' & E & Hu & S & Ho & Hk & _ & Hg).
    set (reads := flag_reads w OS2SelectionParamHandler.flags) in *.
    pose proof (os2_effect_has_attr reads) as Ha.
    destruct (os2_effect reads (ufo_owner w)) as [u' r] eqn:Eo.
    rewrite E in Hh |- *. cbn [fst snd] in Hh, Hu |- *.
    destruct (os2_effect_spec _ _ _ _ Eo) as ((F1 & F2 & F3) & _).
    unfold ufo_step. rewrite Hu.
    split; [exact Hk|]. split; [exact Ho|]. split; [exact S|].
    split; [exact Hh|]. split; [exact Hg|].
    split. { intros a. specialize (Ha a (ufo_owner w)). rewrite Eo in Ha. exact Ha. }
    split. { intros a Ha'. apply F3. exact Ha'. }
    intros k _. rewrite F1. reflexivity.
  - unfold FilterParamHandler.to_ufo.
    apply run_bind; [apply ufo_step_trans
                    | apply run_get_custom_values; simpl; auto|].
    intros v1 w1.
    apply run_bind; [apply ufo_step_trans | apply run_lift; apply ufo_step_refl|].
    intros v2 w2.
    apply run_bind; [apply ufo_step_trans | apply run_lift; apply ufo_step_refl|].
    intros v3 w3.
    apply run_bind; [apply ufo_step_trans
                    | apply run_get_custom_values; simpl; auto|].
    intros v4 w4.
    apply run_bind; [apply ufo_step_trans | apply run_lift; apply ufo_step_refl|].
    intros v5 w5.
    apply run_bind; [apply ufo_step_trans | apply run_lift; apply ufo_step_refl|].
    intros v6 w6.
    destruct (v3 ++ v6); [apply ufo_step_refl|].
    unfold UFOProxy.has_lib_key.
    apply run_bind; [apply ufo_step_trans | |].
    { apply run_bind_get_world. apply ufo_step_refl. }
    intros has w7.
    apply run_bind; [apply ufo_step_trans | |].
    { destruct (negb has); [apply run_set_lib_value; reflexivity
                           | apply ufo_step_refl]. }
    intros _ w8.
    apply run_bind; [apply ufo_step_trans | |].
    { unfold UFOProxy.get_lib_value. monad_simpl.
      destruct (dict_get _ _); [|apply ufo_step_refl].
      unfold ufo_step; simpl. repeat split; auto. }
    intros existing w9. unfold FilterParamHandler.extend_lib_list.
    destruct existing; try apply ufo_step_refl.
    apply run_set_lib_value; reflexivity.
  - unfold ReplaceFeatureParamHandler.to_ufo.
    apply run_bind; [apply ufo_step_trans
                    | apply run_get_custom_values; simpl; auto|].
    intros v1 w1.
    apply run_bind; [apply ufo_step_trans | apply run_lift; apply ufo_step_refl|].
    intros v2 w2.
    destruct (replace_feature_loop_frame v2 w2)
      as (F1 & F2 & F3 & F4 & F5 & F6 & F7).
    unfold ufo_step. rewrite F1, F2, F3, F5, F6, F7.
    repeat split; auto.
Qed.

End UfoHandlers.

(** ** One generic handler, both ways *)

Section GenericHandler.
Context `{Imports}.

Lemma read_from_ufo_run (p : ParamHandler.t) (w : world) :
  exists uh,
    ParamHandler._read_from_ufo p w =
      (set_ufo_handled uh w,
       Ok (match read_target p (sub_key w) (ufo_owner w) with
           | Some v => v
           | None => VNone
           end)).
Proof.
  unfold ParamHandler._read_from_ufo, read_target, UFOProxy.has_info_attr,
    UFOProxy.get_info_value, UFOProxy.get_lib_value.
  monad_simpl.
  destruct (ParamHandler.ufo_info p &&
            dict_has (info (ufo_owner w)) (ParamHandler.ufo_name p)) eqn:E.
  - exists (ufo_handled w). apply andb_true_iff in E as (_ & E).
    rewrite dict_has_get in E.
    destruct (dict_get (info (ufo_owner w)) (ParamHandler.ufo_name p));
      [|discriminate]. destruct w; reflexivity.
  - destruct (dict_get (lib (ufo_owner w)) (ParamHandler.lib_key p (sub_key w))).
    + eexists; reflexivity.
    + exists (ufo_handled w). destruct w; reflexivity.
Qed.

(** A single-valued handler that finds a value on the UFO side appends
    its transform under the short name. *)
Lemma generic_to_glyphs_appends (p : ParamHandler.t) (w : world) v1 v2 :
  ParamHandler.glyphs_multivalued p = false ->
  read_target p (sub_key w) (ufo_owner w) = Some v1 ->
  is_None v1 = false ->
  ParamHandler.value_to_glyphs p v1 = Ok v2 ->
  exists w',
    ParamHandler.to_glyphs p w = (w', Ok tt) /\
    customParameters (glyphs_owner w') =
      customParameters (glyphs_owner w) ++ [(ParamHandler.glyphs_name p, v2)].
Proof.
  intros Hm Ht Hn Hv.
  destruct (read_from_ufo_run p w) as (uh & R). rewrite Ht in R.
  unfold ParamHandler.to_glyphs, ParamHandler.to_glyphs_via.
  rewrite (bind_run _ _ _ _ _ R), Hn, Hv, bind_lift_ok.
  rewrite (write_to_glyphs_single p v2 _ Hm).
  eexists; split; reflexivity.
Qed.





End GenericHandler.

(** ** The sweep of unhandled parameters, and the defaults *)

Section SweepToUfoFacts.
Context `{Imports}.

Lemma leftover_to_ufo_loop (sk : ustr) (params : list (ustr * value)) :
  forall w,
    for_each params (leftover_to_ufo sk) w =
      (set_ufo_owner
         (mkUFO (info (ufo_owner w))
                (swept_lib sk params (lib (ufo_owner w)))
                (features_text (ufo_owner w))) w,
       Ok tt).
Proof.
  induction params as [|[n v] params IH]; intros w.
  - simpl. destruct w as [? ? ? ? [] ?]; reflexivity.
  - rewrite for_each_cons. unfold bind, leftover_to_ufo at 1.
    unfold UFOProxy.set_lib_value, modify. rewrite IH. reflexivity.
Qed.



End SweepToUfoFacts.


(** Retraction keeps a parameter whose value is not the default of its
    name. *)
Lemma delitem_keeps (params : list (ustr * value)) (name n : ustr) v :
  In (n, v) params ->
  n <> name \/ CustomParametersProxy.getitem params name <> Some v ->
  In (n, v) (CustomParametersProxy.delitem params name).
Proof.
  unfold CustomParametersProxy.getitem.
  induction params as [|[n0 v0] params IH]; intros Hin Hc; simpl in *; [exact Hin|].
  destruct (ustr_eqb name n0) eqn:E.
  - apply ustr_eqb_eq in E. subst n0.
    destruct Hin as [Eq|Hin]; [|exact Hin].
    injection Eq as -> ->. destruct Hc as [Hc|Hc]; congruence.
  - destruct Hin as [Eq|Hin]; [left; exact Eq|]. right. apply IH; auto.
Qed.

Lemma unset_if_default_keeps (params : list (ustr * value)) (name n : ustr) d v :
  In (n, v) params ->
  n <> name \/ py_eq v d = false ->
  In (n, v) (unset_if_default params name d).
Proof.
  intros Hin Hc. unfold unset_if_default.
  destruct (CustomParametersProxy.getitem params name) as [v0|] eqn:G;
    [|rewrite andb_false_r; exact Hin].
  destruct (CustomParametersProxy.contains params name && py_eq v0 d) eqn:E;
    [|exact Hin].
  apply andb_true_iff in E as (_ & E).
  apply delitem_keeps; [exact Hin|].
  destruct Hc as [Hc|Hc]; [left; exact Hc|]. right. rewrite G. congruence.
Qed.

Lemma unset_default_params_keeps (params : list (ustr * value)) (n : ustr) v :
  In (n, v) params ->
  (forall g a d, In (g, a, d) DEFAULT_PARAMETERS -> n = g -> py_eq v d = false) ->
  In (n, v) (_unset_default_params params).
Proof.
  unfold _unset_default_params.
  generalize DEFAULT_PARAMETERS as table. intros table; revert params.
  induction table as [|[[g a] d] table IH]; intros params Hin Hd; simpl;
    [exact Hin|].
  apply IH.
  - assert (Hc : n <> g \/ py_eq v d = false).
    { destruct (list_eq_dec N.eq_dec n g) as [->|Hne]; [right|left; exact Hne].
      apply (Hd g a d); [left; reflexivity | reflexivity]. }
    apply unset_if_default_keeps; [|exact Hc].
    apply unset_if_default_keeps; [exact Hin | exact Hc].
  - intros g' a' d' Hi. apply (Hd g' a' d'). right; exact Hi.
Qed.

(** ** A list of handlers, both ways *)

Section HandlerLists.
Context `{Imports}.

Lemma handlers_to_ufo_steps (hs : list Handler) :
  steps (ufo_step (fun a => exists h, In h hs /\ info_writes h a)
                  (fun sk k => exists h, In h hs /\ lib_reads h sk k)
                  (fun n => In n (flat_map handler_glyphs_reads hs)))
        (for_each hs handler_to_ufo).
Proof.
  intros w. apply run_for_each.
  - apply ufo_step_refl.
  - apply ufo_step_trans.
  - intros h w1 Hin.
    eapply ufo_step_weaken; [| | |apply handler_to_ufo_steps].
    + intros a Ha. exists h; auto.
    + intros sk k Hk. exists h; auto.
    + intros n Hn. apply in_flat_map. exists h; auto.
Qed.





End HandlerLists.

Lemma dict_get_In {A} (d : list (ustr * A)) k v :
  dict_get d k = Some v -> In (k, v) d.
Proof.
  induction d as [|[k0 v0] d IH]; simpl; [discriminate|].
  destruct (ustr_eqb k k0) eqn:E.
  - apply ustr_eqb_eq in E. subst k0. intros [= ->]. left; reflexivity.
  - intros G; right; auto.
Qed.


Section Reflection.
Context `{Imports}.






End Reflection.

(** ** The pass to the UFO, end to end *)

Section ToUfoPass.
Context `{Imports}.





End ToUfoPass.

(** ** The pass to Glyphs, end to end *)

Lemma unset_if_default_subset (params : list (ustr * value)) (name : ustr) d q :
  In q (unset_if_default params name d) -> In q params.
Proof.
  unfold unset_if_default.
  destruct (_ && _); [|auto].
  induction params as [|[n0 v0] params IH]; simpl; [auto|].
  destruct (ustr_eqb name n0); [auto|].
  intros [<-|Hin]; auto.
Qed.

Lemma unset_default_params_subset (params : list (ustr * value)) q :
  In q (_unset_default_params params) -> In q params.
Proof.
  unfold _unset_default_params.
  generalize DEFAULT_PARAMETERS as table. intros table; revert params.
  induction table as [|[[g a] d] table IH]; intros params Hin; simpl in Hin;
    [exact Hin|].
  apply IH in Hin. apply unset_if_default_subset in Hin.
  apply unset_if_default_subset in Hin. exact Hin.
Qed.

Section ToGlyphsPass.
Context `{Imports}.



End ToGlyphsPass.

(** ** A new UFO, and the lib key of a leftover parameter *)

Section RoundTrip.
Context `{Imports}.





End RoundTrip.

(** * Further properties of the proxies *)

Lemma mem_ustr_set_add (x k : ustr) (s : list ustr) :
  mem_ustr x (set_add k s) = ustr_eqb x k || mem_ustr x s.
Proof.
  destruct (mem_ustr x (set_add k s)) eqn:E.
  - apply mem_ustr_In, set_add_In in E. symmetry. apply orb_true_iff.
    destruct E as [->|E]; [left; apply ustr_eqb_refl | right; apply mem_ustr_In; exact E].
  - symmetry. apply orb_false_iff. split.
    + apply ustr_eqb_neq. intros ->.
      assert (In k (set_add k s)) by (apply set_add_In; auto).
      apply mem_ustr_In in H. congruence.
    + destruct (mem_ustr x s) eqn:E'; [|reflexivity].
      apply mem_ustr_In in E'.
      assert (In x (set_add k s)) by (apply set_add_In; auto).
      apply mem_ustr_In in H. congruence.
Qed.

Lemma filter_filter {A} (f g : A -> bool) (l : list A) :
  filter f (filter g l) = filter (fun x => g x && f x) l.
Proof.
  induction l as [|x l IH]; simpl; [reflexivity|].
  destruct (g x); simpl; [destruct (f x)|]; rewrite IH; reflexivity.
Qed.

Section ProxyFacts.
Context `{Imports}.

(** X1.  [UFOProxy.get_lib_value]: a missing key gives None and leaves the
    proxy as it was (nothing is marked as handled); a key that is there
    gives its value and is marked, so that [unhandled_lib_items] lists
    the same entries but the ones under that key.  The UFO itself and
    the native side are never touched. *)
Theorem get_lib_value_marks_only_found (name : ustr) (w : world) :
  let r := UFOProxy.get_lib_value name w in
  ufo_owner (fst r) = ufo_owner w /\
  glyphs_owner (fst r) = glyphs_owner w /\
  match dict_get (lib (ufo_owner w)) name with
  | None => r = (w, Ok VNone)
  | Some v =>
      snd r = Ok v /\
      (forall k, In k (ufo_handled (fst r)) <-> k = name \/ In k (ufo_handled w)) /\
      UFOProxy.unhandled_lib_items (fst r) =
        filter (fun kv => negb (ustr_eqb (fst kv) name))
               (UFOProxy.unhandled_lib_items w)
  end.
Proof.
  unfold UFOProxy.get_lib_value. monad_simpl.
  destruct (dict_get (lib (ufo_owner w)) name) as [v|] eqn:G; cbn [fst snd].
  - split; [reflexivity|]. split; [reflexivity|]. split; [reflexivity|]. split.
    + intros k. simpl. apply set_add_In.
    + unfold UFOProxy.unhandled_lib_items. cbn [ufo_owner ufo_handled set_ufo_handled].
      rewrite filter_filter. apply filter_ext. intros [k v']. cbn [fst].
      rewrite mem_ustr_set_add, negb_orb.
      rewrite <- andb_assoc. f_equal. apply andb_comm.
  - repeat split.
Qed.

(** X2.  What [set_lib_value] stores is there for [has_lib_key] and
    [get_lib_value]; the other keys, the info object and the handled set
    are as before (writing never marks a key), so an entry written under
    the custom parameter namespace is listed by [unhandled_lib_items]
    unless its key was read before. *)
Theorem set_lib_value_then_get (name : ustr) (v : value) (w : world) :
  let w1 := fst (UFOProxy.set_lib_value name v w) in
  snd (UFOProxy.set_lib_value name v w) = Ok tt /\
  snd (UFOProxy.has_lib_key name w1) = Ok true /\
  snd (UFOProxy.get_lib_value name w1) = Ok v /\
  (forall k, k <> name ->
     dict_get (lib (ufo_owner w1)) k = dict_get (lib (ufo_owner w)) k) /\
  info (ufo_owner w1) = info (ufo_owner w) /\
  ufo_handled w1 = ufo_handled w /\
  (startswith name CUSTOM_PARAM_PREFIX = true -> ~ In name (ufo_handled w) ->
   In (name, v) (UFOProxy.unhandled_lib_items w1)).
Proof.
  unfold UFOProxy.set_lib_value, UFOProxy.has_lib_key, UFOProxy.get_lib_value.
  monad_simpl. cbn [fst snd ufo_owner set_ufo_owner lib info ufo_handled].
  rewrite dict_get_set_eq, dict_has_get, dict_get_set_eq. cbn [fst snd].
  repeat (split; [reflexivity|]). split.
  { intros k Hk. apply dict_get_set_neq. congruence. }
  repeat (split; [reflexivity|]).
  intros Hp Hh. unfold UFOProxy.unhandled_lib_items.
  cbn [ufo_owner set_ufo_owner lib ufo_handled].
  apply filter_In. cbn [fst]. split.
  - apply dict_get_In, dict_get_set_eq.
  - rewrite Hp. destruct (mem_ustr name (ufo_handled w)) eqn:E; [|reflexivity].
    apply mem_ustr_In in E. contradiction.
Qed.

(** X3.  The info object: [get_info_value] raises AttributeError for an
    attribute the object does not have (and [has_info_attr] says so);
    [set_info_value] creates or overwrites the attribute, which is then
    found with the value written, and leaves the lib and the other
    attributes alone. *)
Theorem info_value_access (name : ustr) (v : value) (w : world) :
  (dict_has (info (ufo_owner w)) name = false ->
   UFOProxy.has_info_attr name w = (w, Ok false) /\
   UFOProxy.get_info_value name w = (w, Raise AttributeError)) /\
  (let w1 := fst (UFOProxy.set_info_value name v w) in
   UFOProxy.has_info_attr name w1 = (w1, Ok true) /\
   UFOProxy.get_info_value name w1 = (w1, Ok v) /\
   (forall a, a <> name ->
      dict_get (info (ufo_owner w1)) a = dict_get (info (ufo_owner w)) a) /\
   lib (ufo_owner w1) = lib (ufo_owner w) /\
   ufo_handled w1 = ufo_handled w).
Proof.
  unfold UFOProxy.has_info_attr, UFOProxy.get_info_value, UFOProxy.set_info_value.
  monad_simpl. split.
  - intros E. rewrite E. rewrite dict_has_get in E.
    destruct (dict_get (info (ufo_owner w)) name); [discriminate|]. split; reflexivity.
  - cbn [fst snd ufo_owner set_ufo_owner lib info ufo_handled].
    rewrite dict_get_set_eq, dict_has_get, dict_get_set_eq.
    repeat (split; [reflexivity|]). split; [|split; reflexivity].
    intros a Ha. apply dict_get_set_neq. congruence.
Qed.

End ProxyFacts.

(** X4.  Attributes of the native object: for an attribute the object
    does not have, [get_attribute_value] gives None and
    [set_attribute_value] does nothing (no attribute is created); for
    one it has, the value written is the value read back, and neither
    the set of attributes nor the custom parameters change. *)
Theorem attribute_value_access (key : ustr) (v : value) (w : world) :
  (dict_has (attributes (glyphs_owner w)) key = false ->
   GlyphsObjectProxy.get_attribute_value key w = (w, Ok VNone) /\
   GlyphsObjectProxy.set_attribute_value key v w = (w, Ok tt)) /\
  (dict_has (attributes (glyphs_owner w)) key = true ->
   let w1 := fst (GlyphsObjectProxy.set_attribute_value key v w) in
   GlyphsObjectProxy.get_attribute_value key w1 = (w1, Ok v) /\
   customParameters (glyphs_owner w1) = customParameters (glyphs_owner w) /\
   (forall k, dict_has (attributes (glyphs_owner w1)) k
              = dict_has (attributes (glyphs_owner w)) k) /\
   (forall k, k <> key ->
      dict_get (attributes (glyphs_owner w1)) k
      = dict_get (attributes (glyphs_owner w)) k)).
Proof.
  unfold GlyphsObjectProxy.get_attribute_value, GlyphsObjectProxy.set_attribute_value.
  monad_simpl. split; intros E; rewrite E.
  - rewrite dict_has_get in E.
    destruct (dict_get (attributes (glyphs_owner w)) key); [discriminate|].
    split; reflexivity.
  - cbn [fst snd glyphs_owner set_glyphs_owner attributes customParameters].
    rewrite dict_get_set_eq. split; [reflexivity|]. split; [reflexivity|]. split.
    + intros k. rewrite dict_has_set.
      destruct (ustr_eqb k key) eqn:Ek; [|apply orb_false_r].
      apply ustr_eqb_eq in Ek. subst k. rewrite E. reflexivity.
    + intros k Hk. apply dict_get_set_neq. congruence.
Qed.

Lemma attribute_value_access_witness :
  let o := mkGSObject (U "GSFont") [] [(U "iconName", VNone)] in
  let w := GlyphsObjectProxy.init o (fresh_ufo []) [] in
  snd (GlyphsObjectProxy.get_attribute_value (U "weightValue") w) = Ok VNone /\
  fst (GlyphsObjectProxy.set_attribute_value (U "weightValue") (VInt 1) w) = w /\
  snd (GlyphsObjectProxy.get_attribute_value (U "iconName")
         (fst (GlyphsObjectProxy.set_attribute_value (U "iconName")
                 (VStr (U "a")) w))) = Ok (VStr (U "a")).
Proof.
  intros o w.
  destruct (attribute_value_access (U "weightValue") (VInt 1) w) as (A & _).
  destruct (attribute_value_access (U "iconName") (VStr (U "a")) w) as (_ & B).
  destruct (A eq_refl) as (A1 & A2). destruct (B eq_refl) as (B1 & _).
  rewrite A1, A2, B1. repeat split.
Defined.

(** X5.  [get_custom_values(key)] marks [key] as handled and returns all
    the values registered under [key], in the order of the parameter
    list (the empty list when there is none); it never raises and
    touches neither object. *)
Theorem get_custom_values_all
    (params : list (ustr * value)) (w : world) (key : ustr) :
  lookup_ok params w ->
  let r := GlyphsObjectProxy.get_custom_values key w in
  snd r = Ok (VList (values_of key params)) /\
  lookup_ok params (fst r) /\
  (forall k, In k (glyphs_handled (fst r)) <-> k = key \/ In k (glyphs_handled w)) /\
  glyphs_owner (fst r) = glyphs_owner w /\ ufo_owner (fst r) = ufo_owner w.
Proof.
  intros L r. subst r.
  destruct (get_custom_values_run w key) as (lk' & -> & S).
  rewrite (L key). cbn [fst snd].
  split; [reflexivity|]. split; [|split; [|split; reflexivity]].
  - apply (lookup_ok_same params w lk' S L); reflexivity.
  - intros k; simpl. apply set_add_In.
Qed.

Lemma get_custom_values_all_witness :
  let o := mkGSObject (U "GSFont")
             [(U "Filter", VStr (U "a")); (U "hheaAscender", VInt 800);
              (U "Filter", VStr (U "b"))] [] in
  let w := GlyphsObjectProxy.init o (fresh_ufo []) [] in
  snd (GlyphsObjectProxy.get_custom_values (U "Filter") w)
    = Ok (VList [VStr (U "a"); VStr (U "b")]) /\
  snd (GlyphsObjectProxy.get_custom_values (U "PreFilter") w) = Ok (VList []).
Proof.
  intros o w.
  pose proof (init_lookup_ok o (fresh_ufo []) []) as L.
  split.
  - exact (proj1 (get_custom_values_all _ w (U "Filter") L)).
  - exact (proj1 (get_custom_values_all _ w (U "PreFilter") L)).
Defined.

Lemma set_custom_values_run (key : ustr) (values : list value) :
  forall w,
    GlyphsObjectProxy.set_custom_values key values w =
      (set_glyphs_owner
         (mkGSObject (class_name (glyphs_owner w))
            (customParameters (glyphs_owner w) ++ map (pair key) values)
            (attributes (glyphs_owner w))) w,
       Ok tt).
Proof.
  unfold GlyphsObjectProxy.set_custom_values.
  induction values as [|v values IH]; intros w.
  - simpl. rewrite app_nil_r. destruct w as [[] ? ? ? ? ?]; reflexivity.
  - rewrite for_each_cons. unfold bind.
    unfold GlyphsObjectProxy.set_custom_value at 1. unfold modify.
    rewrite IH. cbn [glyphs_owner set_glyphs_owner class_name customParameters attributes].
    rewrite <- app_assoc. reflexivity.
Qed.

(** X6.  [set_custom_values(key, values)] appends one parameter per
    value, in order, after the parameters the object has.  The proxy's
    memo is the one built when the proxy was made: a later
    [get_custom_values(key)] still answers with the values of the
    original list and does not see the appended ones, while
    [unhandled_custom_parameters] lists them as long as [key] was never
    read. *)
Theorem set_custom_values_appends_unseen
    (params : list (ustr * value)) (key : ustr) (values : list value) (w : world) :
  lookup_ok params w ->
  let r := GlyphsObjectProxy.set_custom_values key values w in
  snd r = Ok tt /\
  customParameters (glyphs_owner (fst r)) =
    customParameters (glyphs_owner w) ++ map (pair key) values /\
  attributes (glyphs_owner (fst r)) = attributes (glyphs_owner w) /\
  ufo_owner (fst r) = ufo_owner w /\
  snd (GlyphsObjectProxy.get_custom_values key (fst r))
    = Ok (VList (values_of key params)) /\
  (~ In key (glyphs_handled w) ->
   forall v, In v values ->
     In (key, v) (GlyphsObjectProxy.unhandled_custom_parameters (fst r))).
Proof.
  intros L r. subst r. rewrite set_custom_values_run. cbn [fst snd].
  split; [reflexivity|]. split; [reflexivity|]. split; [reflexivity|].
  split; [reflexivity|]. split.
  - set (w1 := set_glyphs_owner _ w).
    assert (L1 : lookup_ok params w1) by exact L.
    destruct (get_custom_values_run w1 key) as (lk' & -> & _).
    rewrite (L1 key). reflexivity.
  - intros Hh v Hv. unfold GlyphsObjectProxy.unhandled_custom_parameters.
    cbn [glyphs_owner set_glyphs_owner customParameters glyphs_handled].
    apply filter_In. split.
    + apply in_or_app. right. apply in_map. exact Hv.
    + cbn [fst]. destruct (mem_ustr key (glyphs_handled w)) eqn:E; [|reflexivity].
      apply mem_ustr_In in E. contradiction.
Qed.

Lemma set_custom_values_appends_unseen_witness :
  let o := mkGSObject (U "GSFont") [(U "Filter", VStr (U "a"))] [] in
  let w := GlyphsObjectProxy.init o (fresh_ufo []) [] in
  let r := GlyphsObjectProxy.set_custom_values (U "Filter")
             [VStr (U "b"); VStr (U "c")] w in
  customParameters (glyphs_owner (fst r)) =
    [(U "Filter", VStr (U "a")); (U "Filter", VStr (U "b")); (U "Filter", VStr (U "c"))] /\
  snd (GlyphsObjectProxy.get_custom_values (U "Filter") (fst r))
    = Ok (VList [VStr (U "a")]).
Proof.
  intros o w r.
  destruct (set_custom_values_appends_unseen (customParameters o) (U "Filter")
              [VStr (U "b"); VStr (U "c")] w (init_lookup_ok o (fresh_ufo []) []))
    as (_ & A & _ & _ & B & _).
  split; [exact A | exact B].
Defined.

(** X7.  Reading a name, with [get_custom_value] or [get_custom_values]
    and whatever the outcome, takes the parameters of that name, and
    only those, out of [unhandled_custom_parameters]; the others stay
    in the order of the list.  A new proxy has handled nothing. *)
Theorem unhandled_custom_parameters_after_read (key : ustr) (w : world) :
  let rest := filter (fun p => negb (ustr_eqb (fst p) key))
                     (GlyphsObjectProxy.unhandled_custom_parameters w) in
  GlyphsObjectProxy.unhandled_custom_parameters
    (fst (GlyphsObjectProxy.get_custom_value key w)) = rest /\
  GlyphsObjectProxy.unhandled_custom_parameters
    (fst (GlyphsObjectProxy.get_custom_values key w)) = rest /\
  (forall o u uh,
     GlyphsObjectProxy.unhandled_custom_parameters (GlyphsObjectProxy.init o u uh)
       = customParameters o).
Proof.
  intros rest.
  assert (R : forall lk',
    GlyphsObjectProxy.unhandled_custom_parameters (read_state key lk' w) = rest).
  { intros lk'. subst rest. unfold GlyphsObjectProxy.unhandled_custom_parameters.
    cbn [read_state glyphs_owner glyphs_handled set_glyphs_lookup set_glyphs_handled].
    rewrite filter_filter. apply filter_ext. intros [k v]. cbn [fst].
    rewrite mem_ustr_set_add, negb_orb. apply andb_comm. }
  split; [|split].
  - destruct (get_custom_value_run w key) as (lk' & -> & _). apply R.
  - destruct (get_custom_values_run w key) as (lk' & -> & _). apply R.
  - intros o u uh. unfold GlyphsObjectProxy.unhandled_custom_parameters. simpl.
    induction (customParameters o) as [|p l IH]; simpl; [reflexivity|].
    rewrite IH. reflexivity.
Qed.

(** * Further properties of the generic handler *)

Lemma py_eq_empty_list (v : value) : py_eq v (VList []) = true <-> v = VList [].
Proof.
  split; [|intros ->; reflexivity].
  destruct v as [| | | |[|x l]|]; simpl; try discriminate; reflexivity.
Qed.

Section HandlerFacts.
Context `{Imports}.

Lemma write_to_ufo_native_frame (p : ParamHandler.t) (v : value) (w : world) :
  let w' := fst (ParamHandler._write_to_ufo p v w) in
  glyphs_owner w' = glyphs_owner w /\ glyphs_handled w' = glyphs_handled w /\
  glyphs_lookup w' = glyphs_lookup w /\ ufo_handled w' = ufo_handled w.
Proof.
  unfold ParamHandler._write_to_ufo, UFOProxy.has_info_attr,
    UFOProxy.set_info_value, UFOProxy.set_lib_value.
  monad_simpl.
  destruct (negb _ && _); [repeat split|].
  destruct (ParamHandler.ufo_info p && _); repeat split.
Qed.

(** X8.  Where [_write_to_ufo] puts a value is where [_read_from_ufo]
    looks for it: the value written is the value read back, whether it
    went to the info object or to the lib.  The one exception is a value
    equal to the handler's [ufo_default] (when that is not None): then
    nothing at all is written. *)
Theorem write_then_read_ufo (p : ParamHandler.t) (v : value) (w : world) :
  if negb (is_None (ParamHandler.ufo_default p)) && py_eq v (ParamHandler.ufo_default p)
  then ParamHandler._write_to_ufo p v w = (w, Ok tt)
  else exists w1 w2,
         ParamHandler._write_to_ufo p v w = (w1, Ok tt) /\
         ParamHandler._read_from_ufo p w1 = (w2, Ok v) /\
         read_target p (sub_key w) (ufo_owner w1) = Some v /\
         ufo_owner w2 = ufo_owner w1 /\
         glyphs_owner w2 = glyphs_owner w /\
         features_text (ufo_owner w1) = features_text (ufo_owner w).
Proof.
  unfold ParamHandler._write_to_ufo.
  destruct (negb (is_None (ParamHandler.ufo_default p)) &&
            py_eq v (ParamHandler.ufo_default p)); [reflexivity|].
  assert (W : exists u',
            (has <- UFOProxy.has_info_attr (ParamHandler.ufo_name p) ;;
             if ParamHandler.ufo_info p && has
             then UFOProxy.set_info_value (ParamHandler.ufo_name p) v
             else w0 <- get_world ;;
                  UFOProxy.set_lib_value (ParamHandler.lib_key p (sub_key w0)) v) w
            = (set_ufo_owner u' w, Ok tt) /\
            read_target p (sub_key w) u' = Some v /\
            features_text u' = features_text (ufo_owner w)).
  { unfold read_target, UFOProxy.has_info_attr, UFOProxy.set_info_value,
      UFOProxy.set_lib_value.
    monad_simpl.
    destruct (ParamHandler.ufo_info p &&
              dict_has (info (ufo_owner w)) (ParamHandler.ufo_name p)) eqn:E.
    - eexists; split; [reflexivity|]. cbn [info lib features_text].
      apply andb_true_iff in E as (-> & E).
      rewrite dict_has_set, E. cbn [andb orb]. split; [apply dict_get_set_eq | reflexivity].
    - eexists; split; [reflexivity|]. cbn [info lib features_text]. rewrite E.
      split; [apply dict_get_set_eq | reflexivity]. }
  destruct W as (u' & Wr & Ht & Hf).
  destruct (read_from_ufo_run p (set_ufo_owner u' w)) as (uh & R).
  cbn [sub_key ufo_owner set_ufo_owner] in R. rewrite Ht in R.
  exists (set_ufo_owner u' w), (set_ufo_handled uh (set_ufo_owner u' w)).
  repeat split; assumption.
Qed.

(** X9.  Nothing is materialized for an absent parameter: when neither
    the short name nor the long alias of a single-valued handler has a
    value in the parameter list, [to_ufo] returns normally and leaves
    the UFO (info, lib and features) and its handled set as they were;
    both names are marked as handled all the same. *)
Theorem to_ufo_absent_writes_nothing
    (p : ParamHandler.t) (params : list (ustr * value)) (w : world) :
  lookup_ok params w ->
  ParamHandler.glyphs_multivalued p = false ->
  values_of (ParamHandler.glyphs_name p) params = [] ->
  (forall long, ParamHandler.glyphs_long_name p = Some long ->
                values_of long params = []) ->
  let r := ParamHandler.to_ufo p w in
  snd r = Ok tt /\
  ufo_owner (fst r) = ufo_owner w /\ ufo_handled (fst r) = ufo_handled w /\
  glyphs_owner (fst r) = glyphs_owner w /\
  In (ParamHandler.glyphs_name p) (glyphs_handled (fst r)) /\
  (forall long, ParamHandler.glyphs_long_name p = Some long ->
                In long (glyphs_handled (fst r))).
Proof.
  intros L Hm Hs Hl r. subst r.
  destruct (read_from_glyphs_single p w Hm) as (lk1 & lk2 & S1 & S2 & R).
  cbv zeta in R. rewrite (L _), Hs in R. cbn [single_value is_None negb] in R.
  unfold ParamHandler.to_ufo, ParamHandler.to_ufo_via.
  destruct (ParamHandler.glyphs_long_name p) as [long|] eqn:El.
  - rewrite (L long), (Hl long eq_refl) in R. cbn [single_value] in R.
    rewrite (bind_run _ _ _ _ _ R). cbn [is_None ret fst snd].
    repeat (split; [reflexivity|]). split.
    + simpl. apply set_add_In. right. apply set_add_In. left; reflexivity.
    + intros long' [= <-]. simpl. apply set_add_In. left; reflexivity.
  - rewrite (bind_run _ _ _ _ _ R). cbn [is_None ret fst snd].
    repeat (split; [reflexivity|]). split.
    + simpl. apply set_add_In. left; reflexivity.
    + intros long' [=].
Qed.

(** X10.  A handler of the generic kind, going to Glyphs, never changes
    the UFO and only appends parameters, all of them under the short
    name (never the long alias); when the UFO has nothing for it (no
    value, or None) it returns normally with the native object as it
    was. *)
Theorem to_glyphs_appends_under_short_name (p : ParamHandler.t) (w : world) :
  let r := ParamHandler.to_glyphs p w in
  ufo_owner (fst r) = ufo_owner w /\
  (exists extra,
     customParameters (glyphs_owner (fst r)) = customParameters (glyphs_owner w) ++ extra /\
     forall q, In q extra -> fst q = ParamHandler.glyphs_name p) /\
  match read_target p (sub_key w) (ufo_owner w) with
  | None | Some VNone => snd r = Ok tt /\ glyphs_owner (fst r) = glyphs_owner w
  | Some _ => True
  end.
Proof.
  intros r. subst r.
  pose proof (handler_to_glyphs_steps (Generic p) w) as St.
  cbn [handler_to_glyphs] in St.
  destruct St as (_ & Hu & _ & _ & _ & Hx & _).
  split; [exact Hu|]. split; [exact Hx|].
  destruct (read_from_ufo_run p w) as (uh & R).
  unfold ParamHandler.to_glyphs, ParamHandler.to_glyphs_via.
  rewrite (bind_run _ _ _ _ _ R).
  destruct (read_target p (sub_key w) (ufo_owner w)) as [[]|]; try exact I;
    split; reflexivity.
Qed.

(** X11.  The handler with the empty-list default treats an empty list
    on the UFO side as no value: [to_glyphs] returns normally and appends
    nothing when it finds None or the empty list.  The plain handler, on the same
    empty list, appends a parameter. *)
Theorem empty_list_default_to_glyphs_skips (p : ParamHandler.t) (w : world) (v : value) :
  read_target p (sub_key w) (ufo_owner w) = Some v ->
  v = VNone \/ v = VList [] ->
  (let r := EmptyListDefaultParamHandler.to_glyphs p w in
   snd r = Ok tt /\ glyphs_owner (fst r) = glyphs_owner w /\
   ufo_owner (fst r) = ufo_owner w) /\
  (v = VList [] -> ParamHandler.glyphs_multivalued p = false ->
   forall v2, ParamHandler.value_to_glyphs p v = Ok v2 ->
   customParameters (glyphs_owner (fst (ParamHandler.to_glyphs p w))) =
     customParameters (glyphs_owner w) ++ [(ParamHandler.glyphs_name p, v2)]).
Proof.
  intros Ht Hv. split.
  - destruct (read_from_ufo_run p w) as (uh & R). rewrite Ht in R.
    unfold EmptyListDefaultParamHandler.to_glyphs.
    rewrite (bind_run _ _ _ _ _ R).
    destruct Hv as [-> | ->]; cbn [is_None py_eq orb ret fst snd];
      repeat split; reflexivity.
  - intros -> Hm v2 Hv2.
    destruct (generic_to_glyphs_appends p w (VList []) v2 Hm Ht eq_refl Hv2)
      as (w' & -> & E). exact E.
Qed.

(** X12.  The handlers that copy attributes work on the attributes of the
    native object and never on its custom parameters: [to_ufo] reads no
    parameter (nothing is marked as handled, the native object is as it
    was) and does nothing when the object lacks the attribute;
    [to_glyphs] never changes the UFO or the parameter list, and changes
    nothing at all when the object lacks the attribute. *)
Theorem misc_handler_uses_attributes (p : ParamHandler.t) (w : world) :
  (let r := MiscParamHandler.to_ufo p w in
   glyphs_owner (fst r) = glyphs_owner w /\
   glyphs_handled (fst r) = glyphs_handled w /\
   (dict_has (attributes (glyphs_owner w)) (ParamHandler.glyphs_name p) = false ->
    r = (w, Ok tt))) /\
  (let r := MiscParamHandler.to_glyphs p w in
   ufo_owner (fst r) = ufo_owner w /\
   customParameters (glyphs_owner (fst r)) = customParameters (glyphs_owner w) /\
   (dict_has (attributes (glyphs_owner w)) (ParamHandler.glyphs_name p) = false ->
    glyphs_owner (fst r) = glyphs_owner w)).
Proof.
  split.
  - unfold MiscParamHandler.to_ufo, ParamHandler.to_ufo_via,
      MiscParamHandler._read_from_glyphs, GlyphsObjectProxy.get_attribute_value.
    monad_simpl.
    destruct (dict_get (attributes (glyphs_owner w)) (ParamHandler.glyphs_name p))
      as [v|] eqn:G.
    + assert (Hn : dict_has (attributes (glyphs_owner w)) (ParamHandler.glyphs_name p)
                   = true) by (rewrite dict_has_get, G; reflexivity).
      rewrite Hn.
      destruct (is_None v); [repeat split; discriminate|].
      destruct (ParamHandler.value_to_ufo p v) as [v1|e]; cbn [lift];
        [|repeat split; discriminate].
      destruct (write_to_ufo_native_frame p v1 w) as (Ho & Hh & _).
      split; [exact Ho|]. split; [exact Hh | discriminate].
    + repeat split; reflexivity.
  - pose proof (handler_to_glyphs_steps (Misc p) w) as St.
    cbn [handler_to_glyphs] in St.
    destruct St as (_ & Hu & _ & _ & _ & (extra & Hx & Hn) & _).
    split; [exact Hu|]. split.
    + destruct extra as [|q extra]; [rewrite app_nil_r in Hx; exact Hx|].
      destruct (Hn q (or_introl eq_refl)).
    + intros Ha.
      destruct (read_from_ufo_run p w) as (uh & R).
      unfold MiscParamHandler.to_glyphs, ParamHandler.to_glyphs_via.
      rewrite (bind_run _ _ _ _ _ R).
      destruct (is_None _); [reflexivity|].
      destruct (ParamHandler.value_to_glyphs p _) as [v2|e]; [|reflexivity].
      rewrite bind_lift_ok.
      unfold MiscParamHandler._write_to_glyphs, GlyphsObjectProxy.set_attribute_value.
      monad_simpl. cbn [glyphs_owner set_ufo_handled]. rewrite Ha. reflexivity.
Qed.

End HandlerFacts.

Lemma to_ufo_absent_writes_nothing_witness :
  let o := mkGSObject (U "GSFont") [(U "hheaDescender", VInt (-200))] [] in
  let u := fresh_ufo [U "openTypeHheaAscender"] in
  let p := ParamHandler.init (U "hheaAscender") (Some (U "openTypeHheaAscender"))
             (Some (U "openTypeHheaAscender")) false
             (@CUSTOM_PARAM_PREFIX sample_imports) true VNone identity identity in
  let r := @ParamHandler.to_ufo sample_imports p (GlyphsObjectProxy.init o u []) in
  snd r = Ok tt /\ ufo_owner (fst r) = u.
Proof.
  intros o u p r.
  destruct (@to_ufo_absent_writes_nothing sample_imports p (customParameters o)
              (GlyphsObjectProxy.init o u []) (init_lookup_ok o u []))
    as (A & B & _).
  - reflexivity.
  - reflexivity.
  - intros long [= <-]. reflexivity.
  - split; [exact A | exact B].
Defined.

Lemma empty_list_default_to_glyphs_skips_witness :
  let o := mkGSObject (U "GSFontMaster") [] [] in
  let u := mkUFO [(U "postscriptFamilyBlues", VList [])] [] VNone in
  let p := ParamHandler.init (U "postscriptFamilyBlues") None None false
             (@CUSTOM_PARAM_PREFIX sample_imports) true VNone identity identity in
  let w := GlyphsObjectProxy.init o u [] in
  customParameters (glyphs_owner
     (fst (@EmptyListDefaultParamHandler.to_glyphs sample_imports p w))) = [] /\
  customParameters (glyphs_owner (fst (@ParamHandler.to_glyphs sample_imports p w)))
    = [(U "postscriptFamilyBlues", VList [])].
Proof.
  intros o u p w.
  destruct (@empty_list_default_to_glyphs_skips sample_imports p w (VList []))
    as ((_ & A & _) & B).
  - reflexivity.
  - right; reflexivity.
  - split.
    + rewrite A. reflexivity.
    + exact (B eq_refl eq_refl (VList []) eq_refl).
Defined.

(** * Further properties of the specialized handlers *)

Lemma split_at_first_semicolon (a b : ustr) :
  ~ In 59%N a -> split_at_semicolon (a ++ 59%N :: b) = Some (a, b).
Proof.
  induction a as [|c a IH]; intros Hn; simpl.
  - reflexivity.
  - destruct (N.eqb_spec c 59) as [->|Hc]; [exfalso; apply Hn; left; reflexivity|].
    rewrite IH; [reflexivity|]. intros Hin. apply Hn. right; exact Hin.
Qed.

Lemma split_without_semicolon (s : ustr) :
  ~ In 59%N s -> split_at_semicolon s = None.
Proof.
  induction s as [|c s IH]; intros Hn; simpl; [reflexivity|].
  destruct (N.eqb_spec c 59) as [->|Hc]; [exfalso; apply Hn; left; reflexivity|].
  rewrite IH; [reflexivity|]. intros Hin. apply Hn. right; exact Hin.
Qed.

Lemma os2_effect_sets_bits (reads : list (res value * Z)) :
  forall u u',
    os2_effect reads u = (u', Ok tt) ->
    forall g z, In (Ok g, z) reads -> truthy g = true -> has_bit z u'.
Proof.
  induction reads as [|[[g0|e] z0] reads IH]; intros u u' E g z Hin Hg.
  - destruct Hin.
  - simpl in E. destruct (truthy g0) eqn:Hg0.
    + destruct (select_flag z0 u) as [u1 [[]|e]] eqn:Es; [|discriminate].
      destruct Hin as [Hin|Hin].
      * injection Hin as -> ->.
        destruct (select_flag_spec _ _ _ _ Es) as (_ & _ & Hb & _).
        destruct (os2_effect_spec _ _ _ _ E) as (_ & Hk & _).
        apply Hk. apply Hb. reflexivity.
      * exact (IH _ _ E g z Hin Hg).
    + destruct Hin as [Hin|Hin]; [injection Hin as -> ->; congruence|].
      exact (IH _ _ E g z Hin Hg).
  - simpl in E. discriminate.
Qed.

Lemma os2_selection_to_glyphs_run (w : world) :
  let r := OS2SelectionParamHandler.to_glyphs w in
  ufo_owner (fst r) = ufo_owner w /\
  match dict_get (info (ufo_owner w)) (U "openTypeOS2Selection") with
  | None => r = (w, Raise AttributeError)
  | Some VNone => r = (w, Ok tt)
  | Some (VList l) =>
      snd r = Ok tt /\
      attributes (glyphs_owner (fst r)) = attributes (glyphs_owner w) /\
      customParameters (glyphs_owner (fst r)) =
        customParameters (glyphs_owner w) ++
        (if py_in_list (VInt 8) l then [(U "Has WWS Names", VBool true)] else []) ++
        (if py_in_list (VInt 7) l then [(U "Use Typo Metrics", VBool true)] else [])
  | Some _ => True
  end.
Proof.
  intros r. subst r.
  unfold OS2SelectionParamHandler.to_glyphs, UFOProxy.get_info_value.
  monad_simpl.
  destruct (dict_get (info (ufo_owner w)) (U "openTypeOS2Selection"))
    as [[|b|n|s|l|d]|];
    cbn [is_None OS2SelectionParamHandler.flags for_each py_in lift];
    unfold GlyphsObjectProxy.set_custom_value; monad_simpl;
    try (split; [reflexivity | first [exact I | reflexivity]]).
  destruct (py_in_list (VInt 8) l), (py_in_list (VInt 7) l);
    cbn [fst snd glyphs_owner ufo_owner set_glyphs_owner customParameters
         attributes app];
    rewrite <- ?app_assoc, ?app_nil_r; repeat split; reflexivity.
Qed.

(** X13.  [OS2SelectionParamHandler.to_glyphs]: an info object without
    the attribute openTypeOS2Selection makes it raise AttributeError; an
    unset attribute (None) makes it return at once; for a list it appends
    'Has WWS Names' when the list holds 8 and then 'Use Typo Metrics'
    when it holds 7, each with the value True, and nothing else.  The
    UFO is never changed. *)
Theorem os2_selection_to_glyphs_spec (w : world) :
  let r := OS2SelectionParamHandler.to_glyphs w in
  ufo_owner (fst r) = ufo_owner w /\
  match dict_get (info (ufo_owner w)) (U "openTypeOS2Selection") with
  | None => r = (w, Raise AttributeError)
  | Some VNone => r = (w, Ok tt)
  | Some (VList l) =>
      snd r = Ok tt /\
      attributes (glyphs_owner (fst r)) = attributes (glyphs_owner w) /\
      customParameters (glyphs_owner (fst r)) =
        customParameters (glyphs_owner w) ++
        (if py_in_list (VInt 8) l then [(U "Has WWS Names", VBool true)] else []) ++
        (if py_in_list (VInt 7) l then [(U "Use Typo Metrics", VBool true)] else [])
  | Some _ => True
  end.
Proof. apply os2_selection_to_glyphs_run. Qed.

(** X14.  A flag that is set on the native side survives the two
    directions: when 'Has WWS Names' or 'Use Typo Metrics' has a single
    true value and [to_ufo] returns normally, the bit of the flag is in
    openTypeOS2Selection, and [to_glyphs] on that UFO returns normally
    and appends the flag, with the value True whatever the true value
    was. *)
Theorem os2_selection_flag_roundtrip
    (params : list (ustr * value)) (w : world) (name : ustr) (z : Z) (g : value) :
  lookup_ok params w ->
  In (name, z) OS2SelectionParamHandler.flags ->
  values_of name params = [g] ->
  truthy g = true ->
  snd (OS2SelectionParamHandler.to_ufo w) = Ok tt ->
  let w1 := fst (OS2SelectionParamHandler.to_ufo w) in
  let r := OS2SelectionParamHandler.to_glyphs w1 in
  has_bit z (ufo_owner w1) /\
  snd r = Ok tt /\
  In (name, VBool true) (customParameters (glyphs_owner (fst r))).
Proof.
  intros L Hin Hv Hg Hok w1 r.
  unfold OS2SelectionParamHandler.to_ufo in *.
  destruct (os2_loop_run OS2SelectionParamHandler.flags w)
    as (w' & R & Hu & _ & Ho & _).
  rewrite R in Hok. cbn [snd] in Hok.
  assert (Ew : w1 = w') by (subst w1; rewrite R; reflexivity).
  clearbody w1. subst w1.
  destruct (os2_effect (flag_reads w OS2SelectionParamHandler.flags) (ufo_owner w))
    as [u' ru] eqn:Ee.
  cbn [fst snd] in Hu, Hok. subst ru.
  assert (Hb : has_bit z (ufo_owner w')).
  { rewrite Hu. apply (os2_effect_sets_bits _ _ _ Ee g z); [|exact Hg].
    unfold flag_reads. apply in_map_iff. exists (name, z). split; [|exact Hin].
    cbn [fst snd]. rewrite (L name), Hv. reflexivity. }
  split; [exact Hb|].
  pose proof (os2_selection_to_glyphs_run w') as (_ & Sp). fold r in Sp.
  unfold has_bit, selection_bits in Hb.
  destruct (dict_get (info (ufo_owner w')) (U "openTypeOS2Selection"))
    as [[| | | |l|]|]; try discriminate Hb.
  destruct Sp as (Sok & _ & Sc). split; [exact Sok|]. rewrite Sc.
  apply in_or_app. right.
  destruct Hin as [Hin|[Hin|[]]]; injection Hin as <- <-; rewrite Hb.
  - apply in_or_app. left. left; reflexivity.
  - apply in_or_app. right. left; reflexivity.
Qed.


Lemma os2_selection_flag_roundtrip_witness :
  let o := mkGSObject (U "GSFont") [(U "Use Typo Metrics", VInt 1)] [] in
  let u := mkUFO [(U "openTypeOS2Selection", VNone)] [] VNone in
  let w := GlyphsObjectProxy.init o u [] in
  let w1 := fst (@OS2SelectionParamHandler.to_ufo w) in
  dict_get (info (ufo_owner w1)) (U "openTypeOS2Selection") = Some (VList [VInt 7]) /\
  In (U "Use Typo Metrics", VBool true)
     (customParameters (glyphs_owner (fst (OS2SelectionParamHandler.to_glyphs w1)))).
Proof.
  intros o u w w1.
  destruct (os2_selection_flag_roundtrip (customParameters o) w
              (U "Use Typo Metrics") 7 (VInt 1) (init_lookup_ok o u []))
    as (_ & _ & A).
  - right; left; reflexivity.
  - vm_compute; reflexivity.
  - reflexivity.
  - vm_compute; reflexivity.
  - split; [vm_compute; reflexivity | exact A].
Defined.

Section FilterAndFeatures.
Context `{Imports}.

(** The parameters that [FilterParamHandler.to_glyphs] appends for the
    filters written as [rs], whose first components iterate as [vss]. *)
Lemma filter_to_glyphs_loop (fs : list value) :
  forall rs vss w,
    res_map write_glyphs_filter fs = Ok rs ->
    res_map (fun r : value * bool => py_iter (fst r)) rs = Ok vss ->
    for_each fs (fun ufo_filter =>
      r <- lift (write_glyphs_filter ufo_filter) ;;
      let '(glyphs_filter, is_pre) := r in
      values <- lift (py_iter glyphs_filter) ;;
      GlyphsObjectProxy.set_custom_values
        (if is_pre then U "PreFilter" else U "Filter") values) w =
    (set_glyphs_owner
       (mkGSObject (class_name (glyphs_owner w))
          (customParameters (glyphs_owner w) ++
           flat_map (fun rv : (value * bool) * list value =>
                       map (pair (if snd (fst rv) then U "PreFilter" else U "Filter"))
                           (snd rv))
                    (combine rs vss))
          (attributes (glyphs_owner w))) w,
     Ok tt).
Proof.
  induction fs as [|f fs IH]; intros rs vss w Hr Hv.
  - simpl in Hr. injection Hr as <-. simpl in Hv. injection Hv as <-.
    simpl. rewrite app_nil_r. destruct w as [[] ? ? ? ? ?]; reflexivity.
  - simpl in Hr.
    destruct (write_glyphs_filter f) as [[g is_pre]|e] eqn:Ef; [|discriminate].
    cbn [res_bind] in Hr.
    destruct (res_map write_glyphs_filter fs) as [rs'|e] eqn:Er; [|discriminate].
    cbn [res_bind] in Hr. injection Hr as <-.
    simpl in Hv. destruct (py_iter g) as [vs|e] eqn:Eg; [|discriminate].
    cbn [res_bind] in Hv.
    destruct (res_map (fun r : value * bool => py_iter (fst r)) rs') as [vss'|e] eqn:Ev;
      [|discriminate].
    cbn [res_bind] in Hv. injection Hv as <-.
    rewrite for_each_cons. unfold bind at 1. rewrite Ef. unfold lift at 1.
    unfold bind at 1. rewrite Eg. unfold lift at 1.
    unfold bind at 1. rewrite set_custom_values_run.
    rewrite (IH rs' vss' _ eq_refl Ev).
    cbn [glyphs_owner set_glyphs_owner class_name customParameters attributes
         combine flat_map fst snd].
    rewrite <- app_assoc. reflexivity.
Qed.

Lemma get_lib_value_found (name : ustr) (v : value) (w : world) :
  dict_get (lib (ufo_owner w)) name = Some v ->
  UFOProxy.get_lib_value name w =
    (set_ufo_handled (set_add name (ufo_handled w)) w, Ok v).
Proof.
  intros E. unfold UFOProxy.get_lib_value. monad_simpl. rewrite E. reflexivity.
Qed.

(** X15.  [FilterParamHandler.to_glyphs]: without the ufo2ft filters key
    in the lib it does nothing at all.  With a list of filters under the
    key it marks the key as handled and, for each filter in turn, appends
    one parameter per element that iterating the first result of
    [write_glyphs_filter] gives (one per character when that result is a
    string), under 'PreFilter' or 'Filter' according to the second
    result.  The UFO is never changed. *)
Theorem filter_to_glyphs_spec (w : world) :
  let r := FilterParamHandler.to_glyphs w in
  ufo_owner (fst r) = ufo_owner w /\
  (dict_get (lib (ufo_owner w)) UFO2FT_FILTERS_KEY = None -> r = (w, Ok tt)) /\
  (forall fs rs vss,
     dict_get (lib (ufo_owner w)) UFO2FT_FILTERS_KEY = Some (VList fs) ->
     res_map write_glyphs_filter fs = Ok rs ->
     res_map (fun r : value * bool => py_iter (fst r)) rs = Ok vss ->
     snd r = Ok tt /\
     In UFO2FT_FILTERS_KEY (ufo_handled (fst r)) /\
     customParameters (glyphs_owner (fst r)) =
       customParameters (glyphs_owner w) ++
       flat_map (fun rv : (value * bool) * list value =>
                   map (pair (if snd (fst rv) then U "PreFilter" else U "Filter"))
                       (snd rv))
                (combine rs vss)).
Proof.
  intros r. subst r. split.
  { pose proof (handler_to_glyphs_steps Filter w) as St.
    destruct St as (_ & Hu & _). exact Hu. }
  unfold FilterParamHandler.to_glyphs.
  split.
  - intros E. unfold UFOProxy.get_lib_value. monad_simpl. rewrite E. reflexivity.
  - intros fs rs vss E Hr Hv.
    rewrite (bind_run _ _ _ _ _ (get_lib_value_found _ _ w E)).
    cbn [is_None py_iter]. rewrite bind_lift_ok.
    rewrite (filter_to_glyphs_loop fs rs vss _ Hr Hv).
    cbn [fst snd glyphs_owner ufo_handled set_glyphs_owner set_ufo_handled
         customParameters].
    split; [reflexivity|]. split; [|reflexivity].
    apply set_add_In. left; reflexivity.
Qed.

(** X16.  [ReplaceFeatureParamHandler.to_ufo] on one 'Replace Feature'
    parameter: a text without a semicolon makes it raise ValueError and
    leaves the UFO as it was; a text [a;b] is cut at its first semicolon,
    the blanks around the semicolon dropped, and the feature text
    becomes what [replace_feature] returns for the two parts and the
    text that was there (the empty string when there was none). *)
Theorem replace_feature_to_ufo_single
    (params : list (ustr * value)) (w : world) (s : ustr) :
  lookup_ok params w ->
  values_of (U "Replace Feature") params = [VStr s] ->
  let r := ReplaceFeatureParamHandler.to_ufo w in
  (~ In 59%N s -> snd r = Raise ValueError /\ ufo_owner (fst r) = ufo_owner w) /\
  (forall a b t,
     s = a ++ 59%N :: b -> ~ In 59%N a ->
     replace_feature (VStr (rstrip a)) (VStr (lstrip b))
       (if truthy (features_text (ufo_owner w))
        then features_text (ufo_owner w) else VStr []) = Ok t ->
     snd r = Ok tt /\ features_text (ufo_owner (fst r)) = t /\
     lib (ufo_owner (fst r)) = lib (ufo_owner w) /\
     info (ufo_owner (fst r)) = info (ufo_owner w)).
Proof.
  intros L Hv r. subst r.
  unfold ReplaceFeatureParamHandler.to_ufo.
  destruct (get_custom_values_run w (U "Replace Feature")) as (lk' & R & S).
  rewrite (bind_run _ _ _ _ _ R), (L _), Hv. cbn [py_iter]. rewrite bind_lift_ok.
  rewrite for_each_cons.
  unfold ReplaceFeatureParamHandler.to_ufo_value,
    ReplaceFeatureParamHandler.set_features_text, re_split_semicolon.
  split.
  - intros Hn. rewrite (split_without_semicolon s Hn). monad_simpl.
    split; reflexivity.
  - intros a b t -> Hn Hr. rewrite (split_at_first_semicolon a b Hn). monad_simpl.
    cbn [ufo_owner read_state set_glyphs_lookup set_glyphs_handled] in *.
    rewrite Hr. cbn [fst snd for_each ret ufo_owner set_ufo_owner features_text lib info].
    repeat split; reflexivity.
Qed.

End FilterAndFeatures.

Lemma filter_to_glyphs_spec_witness :
  let key := U "com.github.googlei18n.ufo2ft.filters" in
  let u := mkUFO [] [(key, VList [VDict [(U "name", VStr (U "ab")); (U "pre", VBool true)]])]
                 VNone in
  let w := GlyphsObjectProxy.init (mkGSObject (U "GSFont") [] []) u [] in
  customParameters (glyphs_owner (fst (@FilterParamHandler.to_glyphs sample_imports w)))
    = [(U "PreFilter", VStr (U "a")); (U "PreFilter", VStr (U "b"))].
Proof.
  intros key u w.
  destruct (@filter_to_glyphs_spec sample_imports w) as (_ & _ & A).
  destruct (A [VDict [(U "name", VStr (U "ab")); (U "pre", VBool true)]]
              [(VStr (U "ab"), true)] [[VStr (U "a"); VStr (U "b")]]
              eq_refl eq_refl eq_refl) as (_ & _ & B).
  exact B.
Defined.

Lemma replace_feature_to_ufo_single_witness :
  let o := mkGSObject (U "GSFontMaster")
             [(U "Replace Feature", VStr (U "liga ;  sub f i by f_i;"))] [] in
  let w := GlyphsObjectProxy.init o (fresh_ufo []) [] in
  features_text (ufo_owner (fst (@ReplaceFeatureParamHandler.to_ufo sample_imports w)))
    = VStr (U "feature liga {sub f i by f_i;}").
Proof.
  intros o w.
  destruct (@replace_feature_to_ufo_single sample_imports (customParameters o) w
              (U "liga ;  sub f i by f_i;") (init_lookup_ok o (fresh_ufo []) []) eq_refl)
    as (_ & A).
  destruct (A (U "liga ") (U "  sub f i by f_i;")
              (VStr (U "feature liga {sub f i by f_i;}")) eq_refl) as (_ & B & _).
  - vm_compute. intros [E|[E|[E|[E|[E|[]]]]]]; discriminate E.
  - vm_compute; reflexivity.
  - exact B.
Defined.

(** * Further properties of the value transforms *)

Lemma U_inj (s t : string) : U s = U t -> s = t.
Proof.
  unfold U. intros E.
  rewrite <- (string_of_list_ascii_of_string s), <- (string_of_list_ascii_of_string t).
  f_equal. revert E.
  generalize (list_ascii_of_string s) (list_ascii_of_string t).
  induction l as [|a l IH]; intros [|b l']; simpl; intros E; try discriminate;
    [reflexivity|].
  injection E as E1 E2. f_equal; [|apply IH; exact E2].
  rewrite <- (ascii_N_embedding a), <- (ascii_N_embedding b), E1. reflexivity.
Qed.

Lemma str_of_Z_inj (z z' : Z) : str_of_Z z = str_of_Z z' -> z = z'.
Proof.
  unfold str_of_Z. intros E. apply U_inj in E.
  assert (N : forall x, Z.to_int x <> Decimal.Pos Decimal.Nil /\
                        Z.to_int x <> Decimal.Neg Decimal.Nil).
  { intros x. split; intros Ex; pose proof (DecimalZ.of_to x) as Ox;
      rewrite Ex in Ox; simpl in Ox; subst x; discriminate Ex. }
  apply DecimalZ.to_int_inj.
  pose proof (DecimalString.NilZero.isi (Z.to_int z) (proj1 (N z)) (proj2 (N z))) as I1.
  pose proof (DecimalString.NilZero.isi (Z.to_int z') (proj1 (N z')) (proj2 (N z'))) as I2.
  rewrite E in I1. congruence.
Qed.

Lemma zdict_set_In (d : list (Z * Z)) k v it :
  In it (zdict_set d k v) -> it = (k, v) \/ In it d.
Proof.
  induction d as [|[k' v'] d IH]; simpl.
  - intros [<-|[]]; auto.
  - destruct (Z.eqb_spec k k') as [->|Hk]; simpl.
    + intros [<-|Hin]; auto.
    + intros [<-|Hin]; auto. destruct (IH Hin); auto.
Qed.

Lemma int_items_pairs (items : list (ustr * value)) :
  forall acc value,
    int_items acc items = Ok value ->
    forall it, In it value ->
      In it acc \/
      exists k v, In (k, v) items /\ int_of_ustr k = Some (fst it) /\
                  py_int_Z v = Ok (snd it).
Proof.
  induction items as [|[k v] items IH]; intros acc value E it Hin; simpl in E.
  - injection E as <-. left; exact Hin.
  - destruct (py_int_Z (VStr k)) as [ik|] eqn:Ek; simpl in E; [|discriminate].
    destruct (py_int_Z v) as [iv|] eqn:Ev; simpl in E; [|discriminate].
    destruct (IH _ _ E it Hin) as [Hacc|(k' & v' & Hin' & Hk' & Hv')].
    + apply zdict_set_In in Hacc as [->|Hacc]; [|left; exact Hacc].
      right. exists k, v. split; [left; reflexivity|]. split; [|exact Ev].
      apply py_int_Z_str. exact Ek.
    + right. exists k', v'. split; [right; exact Hin'|]. split; assumption.
Qed.

Lemma dict_set_fresh {A} (d : list (ustr * A)) k v :
  ~ In k (map fst d) -> dict_set d k v = d ++ [(k, v)].
Proof.
  induction d as [|[k' v'] d IH]; simpl; intros Hn; [reflexivity|].
  destruct (ustr_eqb k k') eqn:E.
  - apply ustr_eqb_eq in E. subst k'. exfalso. apply Hn. left; reflexivity.
  - rewrite IH; [reflexivity|]. intros Hin. apply Hn. right; exact Hin.
Qed.

(** A table as a mapping: the value of the first pair with the key. *)
Lemma table_getitem_int (table : list (Z * Z)) (z : Z) :
  table_getitem table (VInt z) =
    match List.find (fun kv => fst kv =? z) table with
    | Some kv => Ok (VInt (snd kv))
    | None => Raise KeyError
    end.
Proof. reflexivity. Qed.

Lemma table_has_int (table : list (Z * Z)) (z : Z) :
  table_has table (VInt z) =
    Ok (match List.find (fun kv => fst kv =? z) table with
        | Some _ => true
        | None => false
        end).
Proof.
  simpl. f_equal. induction table as [|[k v] table IH]; simpl; [reflexivity|].
  destruct (k =? z); [reflexivity | exact IH].
Qed.

Section Transforms.
Context `{Imports}.

Lemma gasp_entries_run (items : list (Z * Z)) :
  (forall z b, bin_to_int_list (VInt z) = Ok b -> int_list_to_bin b = Ok (VInt z)) ->
  forall records acc,
    res_map gasp_record items = Ok records ->
    NoDup (map fst items) ->
    (forall it, In it items -> ~ In (str_of_Z (fst it)) (map fst acc)) ->
    gasp_entries acc records =
      Ok (acc ++ map (fun it => (str_of_Z (fst it), VInt (snd it))) items).
Proof.
  intros Hcodec. induction items as [|[z x] items IH]; intros records acc Er ND Hfresh.
  - simpl in Er. injection Er as <-. simpl. rewrite app_nil_r. reflexivity.
  - simpl in Er. unfold gasp_record at 1 in Er. cbn [fst snd] in Er.
    destruct (bin_to_int_list (VInt x)) as [b|] eqn:Eb; simpl in Er; [|discriminate].
    destruct (res_map gasp_record items) as [rs|] eqn:Ers; simpl in Er; [|discriminate].
    injection Er as <-.
    cbn [gasp_entries].
    replace (py_getitem (VDict [(U "rangeMaxPPEM", VInt z); (U "rangeGaspBehavior", b)])
               (U "rangeMaxPPEM")) with (Ok (VInt z)) by reflexivity.
    replace (py_getitem (VDict [(U "rangeMaxPPEM", VInt z); (U "rangeGaspBehavior", b)])
               (U "rangeGaspBehavior")) with (Ok b) by reflexivity.
    cbn [res_bind]. rewrite (Hcodec x b Eb). cbn [res_bind py_str].
    rewrite dict_set_fresh by (apply (Hfresh (z, x)); left; reflexivity).
    inversion ND as [|? ? Hz ND']; subst.
    rewrite (IH rs _ eq_refl ND').
    + cbn [map fst snd]. rewrite <- app_assoc. reflexivity.
    + intros it Hit. rewrite map_app, in_app_iff. cbn [map fst].
      intros [Hin|[E|[]]].
      * apply (Hfresh it); [right; exact Hit | exact Hin].
      * apply str_of_Z_inj in E. apply Hz. rewrite E. apply in_map. exact Hit.
Qed.

(** X17.  The two GASP transforms compose to a normal form.  When the
    bit-list codec decodes what it encodes and [to_ufo_gasp_table]
    accepts a dictionary, [to_glyphs_gasp_table] accepts its records and
    gives a dictionary with one entry per integer that a key of the
    input denotes, in ascending order of that integer; the key is the
    integer printed in decimal and the value the integer that the input
    value denotes. *)
Theorem gasp_table_roundtrip (d : dict) (records : value) :
  (forall z b, bin_to_int_list (VInt z) = Ok b -> int_list_to_bin b = Ok (VInt z)) ->
  to_ufo_gasp_table (VDict d) = Ok records ->
  exists items,
    to_glyphs_gasp_table records =
      Ok (VDict (map (fun it => (str_of_Z (fst it), VInt (snd it))) items)) /\
    StronglySorted Z.lt (map fst items) /\
    (forall z, In z (map fst items) <->
               exists k v, In (k, v) d /\ int_of_ustr k = Some z) /\
    (forall it, In it items ->
       exists k v, In (k, v) d /\ int_of_ustr k = Some (fst it) /\
                   py_int_Z v = Ok (snd it)).
Proof.
  intros Hcodec E. unfold to_ufo_gasp_table in E.
  destruct (int_items [] d) as [value|] eqn:Ei; simpl in E; [|discriminate].
  destruct (res_map gasp_record (sorted value)) as [rs|] eqn:Er;
    simpl in E; [|discriminate].
  injection E as <-.
  destruct (int_items_keys d [] value (NoDup_nil _) Ei) as (ND & Hin).
  pose proof (Permutation_map fst (sorted_perm value)) as Pm.
  exists (sorted value). split; [|split; [|split]].
  - unfold to_glyphs_gasp_table. cbn [py_iter res_bind].
    rewrite (gasp_entries_run (sorted value) Hcodec rs [] Er).
    + reflexivity.
    + exact (Permutation_NoDup Pm ND).
    + intros it _ [].
  - apply sorted_keys_ascending; assumption.
  - intros z. rewrite <- (Permutation_in' (eq_refl z) Pm).
    rewrite Hin. simpl. intuition.
  - intros it Hit.
    apply (Permutation_in _ (Permutation_sym (sorted_perm value))) in Hit.
    destruct (int_items_pairs d [] value Ei it Hit) as [[]|Hx]. exact Hx.
Qed.

(** X18.  [codePageRanges] to the UFO: every code page of the list is
    looked up in CODEPAGE_RANGES, in order; a page that the table does
    not have makes the transform raise KeyError. *)
Theorem codepage_to_ufo_spec (pages : list Z) :
  (forall bits,
     Forall2 (fun z b => exists kv, List.find (fun kv => fst kv =? z) CODEPAGE_RANGES
                                     = Some kv /\ snd kv = b) pages bits ->
     codepage_to_ufo (VList (map VInt pages)) = Ok (VList (map VInt bits))) /\
  ((exists z, In z pages /\
              List.find (fun kv => fst kv =? z) CODEPAGE_RANGES = None) ->
   codepage_to_ufo (VList (map VInt pages)) = Raise KeyError).
Proof.
  unfold codepage_to_ufo. cbn [py_iter res_bind]. split.
  - intros bits F. induction F as [|z b pages bits (kv & Ef & <-) F IH]; [reflexivity|].
    cbn [map res_map]. rewrite table_getitem_int, Ef. cbn [res_bind].
    destruct (res_map (table_getitem CODEPAGE_RANGES) (map VInt pages)) as [r|e];
      cbn [res_bind] in *; [|discriminate].
    injection IH as ->. reflexivity.
  - intros (z & Hin & Ez).
    induction pages as [|z0 pages IH]; [destruct Hin|].
    cbn [map res_map]. rewrite table_getitem_int.
    destruct (List.find (fun kv => fst kv =? z0) CODEPAGE_RANGES) as [kv|] eqn:E0;
      [|reflexivity].
    cbn [res_bind]. destruct Hin as [->|Hin]; [congruence|].
    specialize (IH Hin).
    destruct (res_map (table_getitem CODEPAGE_RANGES) (map VInt pages)) as [r|e];
      cbn [res_bind] in *; [discriminate | exact IH].
Qed.

Lemma codepage_to_glyphs_drops_unknown_aux (bits : list Z) :
  codepage_to_glyphs (VList (map VInt bits)) =
    Ok (VList (map VInt
          (flat_map (fun b =>
                       match List.find (fun kv => fst kv =? b) REVERSE_CODEPAGE_RANGES with
                       | Some kv => [snd kv]
                       | None => []
                       end) bits))).
Proof.
  unfold codepage_to_glyphs. cbn [py_iter res_bind].
  enough (E : reverse_codepages (map VInt bits) =
              Ok (map VInt
                    (flat_map (fun b =>
                       match List.find (fun kv => fst kv =? b) REVERSE_CODEPAGE_RANGES with
                       | Some kv => [snd kv]
                       | None => []
                       end) bits))) by (rewrite E; reflexivity).
  induction bits as [|b bits IH]; [reflexivity|].
  cbn [map reverse_codepages flat_map].
  rewrite table_has_int, table_getitem_int. cbn [res_bind].
  destruct (List.find (fun kv => fst kv =? b) REVERSE_CODEPAGE_RANGES) as [kv|];
    rewrite IH; reflexivity.
Qed.

(** X19.  [openTypeOS2CodePageRanges] back to Glyphs never raises on a
    list of integers: the bits that REVERSE_CODEPAGE_RANGES has are
    turned into their code pages, in order, and the others are dropped
    in silence. *)
Theorem codepage_to_glyphs_drops_unknown (bits : list Z) :
  codepage_to_glyphs (VList (map VInt bits)) =
    Ok (VList (map VInt
          (flat_map (fun b =>
                       match List.find (fun kv => fst kv =? b) REVERSE_CODEPAGE_RANGES with
                       | Some kv => [snd kv]
                       | None => []
                       end) bits))).
Proof. apply codepage_to_glyphs_drops_unknown_aux. Qed.

(** X20.  When REVERSE_CODEPAGE_RANGES maps back every bit that
    CODEPAGE_RANGES gives, a list of code pages that goes to the UFO
    comes back as it was. *)
Theorem codepage_roundtrip (pages : list Z) (ufo_value : value) :
  (forall kv, In kv CODEPAGE_RANGES ->
     exists kv', List.find (fun x => fst x =? snd kv) REVERSE_CODEPAGE_RANGES = Some kv' /\
                 snd kv' = fst kv) ->
  codepage_to_ufo (VList (map VInt pages)) = Ok ufo_value ->
  codepage_to_glyphs ufo_value = Ok (VList (map VInt pages)).
Proof.
  intros Hinv. unfold codepage_to_ufo. cbn [py_iter res_bind]. intros E.
  destruct (res_map (table_getitem CODEPAGE_RANGES) (map VInt pages)) as [r|e] eqn:Er;
    cbn [res_bind] in E; [|discriminate].
  injection E as <-.
  assert (G : exists bits, r = map VInt bits /\
            flat_map (fun b =>
              match List.find (fun kv => fst kv =? b) REVERSE_CODEPAGE_RANGES with
              | Some kv => [snd kv]
              | None => []
              end) bits = pages).
  { revert r Er. induction pages as [|z pages IH]; intros r Er.
    - simpl in Er. injection Er as <-. exists []. split; reflexivity.
    - cbn [map res_map] in Er. rewrite table_getitem_int in Er.
      destruct (List.find (fun kv => fst kv =? z) CODEPAGE_RANGES) as [kv|] eqn:Ef;
        cbn [res_bind] in Er; [|discriminate].
      destruct (res_map (table_getitem CODEPAGE_RANGES) (map VInt pages)) as [r'|e];
        cbn [res_bind] in Er; [|discriminate].
      injection Er as <-.
      destruct (IH r' eq_refl) as (bits & -> & Eb).
      exists (snd kv :: bits). split; [reflexivity|].
      cbn [flat_map]. apply find_some in Ef as (Hin & Hz).
      destruct (Hinv kv Hin) as (kv' & -> & Ek). rewrite Ek, Eb.
      apply Z.eqb_eq in Hz. rewrite Hz. reflexivity. }
  destruct G as (bits & -> & Eb).
  rewrite codepage_to_glyphs_drops_unknown_aux, Eb. reflexivity.
Qed.

End Transforms.

(** The stand-in codec decodes what it encodes. *)
Lemma shiftl_div2_odd (z i : Z) :
  0 <= i ->
  Z.lor (Z.shiftl (Z.b2z (Z.odd z)) i) (Z.shiftl (Z.div2 z) (i + 1)) = Z.shiftl z i.
Proof.
  intros Hi. apply Z.bits_inj'. intros n Hn.
  rewrite Z.lor_spec, !Z.shiftl_spec by lia.
  destruct (Z.lt_trichotomy n i) as [Hlt|[->|Hgt]].
  - rewrite !Z.testbit_neg_r by lia. reflexivity.
  - rewrite Z.sub_diag, Z.b2z_bit0, Z.bit0_odd.
    rewrite (Z.testbit_neg_r (Z.div2 z)) by lia. apply orb_false_r.
  - assert (E : Z.testbit (Z.b2z (Z.odd z)) (n - i) = false).
    { destruct (Z.odd z); simpl Z.b2z; [|apply Z.bits_0].
      apply Z.bits_above_log2; simpl; lia. }
    rewrite E, Z.div2_div, Z.div2_bits by lia. cbn [orb]. f_equal. lia.
Qed.

Lemma sample_codec_fold (fuel : nat) :
  forall i z acc,
    0 <= z -> 0 <= i -> z < 2 ^ Z.of_nat fuel ->
    fold_left (fun acc x => match x with
                            | VInt i => Z.lor acc (Z.shiftl 1 i)
                            | _ => acc
                            end) (set_bits fuel i z) acc
    = Z.lor acc (Z.shiftl z i).
Proof.
  induction fuel as [|fuel IH]; intros i z acc Hz Hi Hlt.
  - simpl in *. assert (z = 0) by lia. subst z.
    rewrite Z.shiftl_0_l, Z.lor_0_r. reflexivity.
  - cbn [set_bits]. destruct (Z.eqb_spec z 0) as [->|Hnz].
    + simpl. rewrite Z.shiftl_0_l, Z.lor_0_r. reflexivity.
    + rewrite fold_left_app, IH.
      * rewrite <- (shiftl_div2_odd z i Hi), Z.lor_assoc. f_equal.
        destruct (Z.odd z); simpl; [reflexivity|].
        rewrite Z.shiftl_0_l, Z.lor_0_r. reflexivity.
      * rewrite Z.div2_div. apply Z.div_pos; lia.
      * lia.
      * rewrite Z.div2_div. apply Z.div_lt_upper_bound; [lia|].
        rewrite Nat2Z.inj_succ, Z.pow_succ_r in Hlt by lia. exact Hlt.
Qed.

Lemma sample_codec_inverse (z : Z) (b : value) :
  sample_bin_to_int_list (VInt z) = Ok b -> sample_int_list_to_bin b = Ok (VInt z).
Proof.
  unfold sample_bin_to_int_list. destruct (Z.ltb_spec z 0) as [|Hz]; [discriminate|].
  intros [= <-]. unfold sample_int_list_to_bin.
  rewrite sample_codec_fold; [rewrite Z.lor_0_l, Z.shiftl_0_r; reflexivity | lia | lia |].
  destruct (Z.eqb_spec z 0) as [->|Hnz]; [simpl; lia|].
  rewrite Nat2Z.inj_add, Z2Nat.id by apply Z.log2_nonneg.
  change (Z.of_nat 1) with 1.
  replace (Z.log2 z + 1) with (Z.succ (Z.log2 z)) by lia.
  apply Z.log2_spec. lia.
Qed.

Lemma gasp_table_roundtrip_witness :
  let records :=
    VList [ VDict [(U "rangeMaxPPEM", VInt 20);
                   (U "rangeGaspBehavior", VList [VInt 0; VInt 1])];
            VDict [(U "rangeMaxPPEM", VInt 40);
                   (U "rangeGaspBehavior", VList [VInt 2])] ] in
  @to_ufo_gasp_table sample_imports (VDict [(U "40", VStr (U " 4")); (U "20", VInt 3)])
    = Ok records /\
  exists items,
    @to_glyphs_gasp_table sample_imports records =
      Ok (VDict (map (fun it => (str_of_Z (fst it), VInt (snd it))) items)) /\
    StronglySorted Z.lt (map fst items).
Proof.
  intros records.
  assert (E : @to_ufo_gasp_table sample_imports
                (VDict [(U "40", VStr (U " 4")); (U "20", VInt 3)]) = Ok records)
    by (vm_compute; reflexivity).
  split; [exact E|].
  destruct (@gasp_table_roundtrip sample_imports _ records sample_codec_inverse E)
    as (items & G & S & _).
  exists items. split; assumption.
Defined.

Lemma codepage_roundtrip_witness :
  @codepage_to_glyphs sample_imports (VList [VInt 2; VInt 0])
    = Ok (VList [VInt 1251; VInt 1252]).
Proof.
  apply (@codepage_roundtrip sample_imports [1251; 1252] (VList [VInt 2; VInt 0])).
  - intros kv [<-|[<-|[<-|[<-|[]]]]]; eexists; split; reflexivity.
  - reflexivity.
Defined.

(** * Further properties of the names, the defaults and the drivers *)

(** X21.  [_normalize_custom_param_name] works character by character:
    each curly single quote becomes a straight single quote, each curly
    double quote a straight double quote, every other character stays.
    So the result has no curly quote and the length of the name, a
    second pass changes nothing, and the normal form of a concatenation
    is the concatenation of the normal forms. *)
Theorem normalize_custom_param_name_pointwise (name : ustr) :
  _normalize_custom_param_name name = map normalize_char name /\
  length (_normalize_custom_param_name name) = length name /\
  (forall c, In c (_normalize_custom_param_name name) ->
     c <> 8216%N /\ c <> 8217%N /\ c <> 8220%N /\ c <> 8221%N) /\
  _normalize_custom_param_name (_normalize_custom_param_name name)
    = _normalize_custom_param_name name /\
  (forall other, _normalize_custom_param_name (name ++ other) =
     _normalize_custom_param_name name ++ _normalize_custom_param_name other).
Proof.
  split; [apply normalize_is_map|]. split; [apply normalize_length|].
  split; [|split; [apply normalize_idem | intros; apply normalize_app]].
  intros c. rewrite normalize_is_map, in_map_iff. intros (x & <- & _).
  unfold normalize_char.
  destruct (N.eqb_spec x 8216); [subst; repeat split; discriminate|].
  destruct (N.eqb_spec x 8217); [subst; repeat split; discriminate|].
  destruct (N.eqb_spec x 8220); [subst; repeat split; discriminate|].
  destruct (N.eqb_spec x 8221); [subst; repeat split; discriminate|].
  simpl. repeat split; assumption.
Qed.

(** X22.  [append_unique] keeps the list as a prefix and adds the value
    at the end only when no element equals it; afterwards the value is
    in the list, and a second call with the same value changes
    nothing. *)
Theorem append_unique_idempotent (array : list value) (v : value) :
  py_eq v v = true ->
  (exists tail, append_unique array v = array ++ tail /\ (length tail <= 1)%nat) /\
  py_in_list v (append_unique array v) = true /\
  append_unique (append_unique array v) v = append_unique array v /\
  (py_in_list v array = true -> append_unique array v = array).
Proof.
  intros Hr. unfold append_unique.
  destruct (py_in_list v array) eqn:E; cbn [negb].
  - split; [exists []; rewrite app_nil_r; split; [reflexivity | simpl; lia]|].
    rewrite E. cbn [negb]. repeat split; reflexivity.
  - assert (E' : py_in_list v (array ++ [v]) = true).
    { rewrite py_in_list_app. simpl. rewrite Hr. rewrite orb_true_r.
      destruct (py_in_list v array); reflexivity. }
    split; [exists [v]; split; [reflexivity | simpl; lia]|].
    rewrite E'. cbn [negb]. repeat split; try reflexivity. discriminate.
Qed.

Lemma append_unique_idempotent_witness :
  append_unique [VInt 7] (VInt 8) = [VInt 7; VInt 8] /\
  append_unique (append_unique [VInt 7] (VInt 8)) (VInt 8) = [VInt 7; VInt 8].
Proof.
  destruct (append_unique_idempotent [VInt 7] (VInt 8) eq_refl) as (_ & _ & E & _).
  split; [reflexivity | rewrite E; reflexivity].
Defined.

Lemma set_default_loop_frame (table : list (ustr * ustr * value)) :
  forall u,
    let r := _set_default_params_loop table u in
    lib (fst r) = lib u /\ features_text (fst r) = features_text u /\
    (forall a, dict_has (info (fst r)) a = dict_has (info u) a).
Proof.
  induction table as [|[[g a0] d] table IH]; intros u; simpl.
  - repeat split.
  - destruct (dict_get (info u) a0) as [v0|] eqn:G; [|repeat split].
    destruct (IH (if is_None v0
                  then mkUFO (dict_set (info u) a0 d) (lib u) (features_text u)
                  else u)) as (E1 & E2 & E3).
    destruct (is_None v0); cbn [lib features_text info] in *;
      [|repeat split; assumption].
    split; [exact E1|]. split; [exact E2|].
    intros a. rewrite E3, dict_has_set.
    destruct (ustr_eqb a a0) eqn:Ea; [|apply orb_false_r].
    apply ustr_eqb_eq in Ea. subst a. rewrite dict_has_get, G. reflexivity.
Qed.

Lemma set_default_loop_missing (table : list (ustr * ustr * value)) :
  forall u g a d,
    In (g, a, d) table -> dict_has (info u) a = false ->
    snd (_set_default_params_loop table u) = Raise AttributeError.
Proof.
  induction table as [|[[g0 a0] d0] table IH]; intros u g a d Hin Ha; [destruct Hin|].
  simpl. destruct (dict_get (info u) a0) as [v0|] eqn:G; [|reflexivity].
  destruct Hin as [E|Hin].
  - injection E as -> -> ->. rewrite dict_has_get, G in Ha. discriminate.
  - apply (IH _ g a d Hin).
    destruct (is_None v0); [|exact Ha].
    cbn [info]. rewrite dict_has_set, Ha.
    destruct (ustr_eqb a a0) eqn:Ea; [|reflexivity].
    apply ustr_eqb_eq in Ea. subst a0. rewrite dict_has_get, G in Ha. discriminate.
Qed.

Lemma set_default_loop_full (table : list (ustr * ustr * value)) :
  NoDup (map (fun e => snd (fst e)) table) ->
  (forall e, In e table -> is_None (snd e) = false) ->
  forall u,
    (forall e, In e table -> dict_has (info u) (snd (fst e)) = true) ->
    exists u',
      _set_default_params_loop table u = (u', Ok tt) /\
      (forall g a d, In (g, a, d) table ->
         exists v, dict_get (info u) a = Some v /\
                   dict_get (info u') a = Some (if is_None v then d else v)) /\
      (forall a, ~ In a (map (fun e => snd (fst e)) table) ->
         dict_get (info u') a = dict_get (info u) a).
Proof.
  induction table as [|[[g0 a0] d0] table IH]; intros ND Hd u Hh.
  - exists u. split; [reflexivity|]. split; [intros ? ? ? [] | reflexivity].
  - inversion ND as [|? ? Hn ND']; subst.
    pose proof (Hh _ (or_introl eq_refl)) as H0. cbn [fst snd] in H0.
    rewrite dict_has_get in H0.
    destruct (dict_get (info u) a0) as [v0|] eqn:G; [|discriminate].
    set (u1 := if is_None v0
               then mkUFO (dict_set (info u) a0 d0) (lib u) (features_text u)
               else u).
    assert (H1 : forall a, a <> a0 -> dict_get (info u1) a = dict_get (info u) a).
    { intros a Ha. subst u1. destruct (is_None v0); [|reflexivity].
      cbn [info]. apply dict_get_set_neq. congruence. }
    assert (G1 : dict_get (info u1) a0 = Some (if is_None v0 then d0 else v0)).
    { subst u1. destruct (is_None v0); [|exact G]. cbn [info]. apply dict_get_set_eq. }
    destruct (IH ND' (fun e He => Hd e (or_intror He)) u1) as (u' & E & Hv & Ho).
    { intros e He. rewrite dict_has_get.
      destruct (list_eq_dec N.eq_dec (snd (fst e)) a0) as [->|Hne].
      - rewrite G1. reflexivity.
      - rewrite (H1 _ Hne), <- dict_has_get. apply Hh. right; exact He. }
    exists u'. split; [simpl; rewrite G; exact E|]. split.
    + intros g a d [Ein|Hin].
      * injection Ein as -> -> ->. exists v0. split; [exact G|].
        rewrite (Ho a Hn). exact G1.
      * destruct (Hv g a d Hin) as (v & Ev & Ev').
        assert (Hne : a <> a0).
        { intros ->. apply Hn. apply (in_map (fun e => snd (fst e)) _ _ Hin). }
        exists v. rewrite <- (H1 a Hne). split; assumption.
    + intros a Ha.
      assert (Hne : a <> a0) by (intros ->; apply Ha; left; reflexivity).
      rewrite Ho, (H1 a Hne); [reflexivity|].
      intros Hin. apply Ha. right; exact Hin.
Qed.

Lemma set_default_loop_fixed (table : list (ustr * ustr * value)) :
  forall u,
    (forall g a d, In (g, a, d) table ->
       exists v, dict_get (info u) a = Some v /\ is_None v = false) ->
    _set_default_params_loop table u = (u, Ok tt).
Proof.
  induction table as [|[[g0 a0] d0] table IH]; intros u Hv; [reflexivity|].
  simpl. destruct (Hv g0 a0 d0 (or_introl eq_refl)) as (v & -> & ->).
  apply IH. intros g a d Hin. apply (Hv g a d). right; exact Hin.
Qed.

Lemma default_parameters_table :
  NoDup (map (fun e : ustr * ustr * value => snd (fst e)) DEFAULT_PARAMETERS) /\
  (forall e, In e DEFAULT_PARAMETERS -> is_None (snd e) = false).
Proof.
  split.
  - simpl. repeat constructor; simpl; intros Hin;
      repeat (destruct Hin as [Hin|Hin];
              [apply ustr_eqb_neq in Hin; [exact Hin | vm_compute; reflexivity]|]);
      exact Hin.
  - intros e [<-|[<-|[<-|[]]]]; reflexivity.
Qed.

(** X23.  [_set_default_params] touches only the info object and creates
    no attribute.  When the info object has the three attributes of the
    default table, it returns normally: an attribute that was None now
    holds the default of the table, an attribute that was set keeps its
    value, every other attribute is as before, and a second call changes
    nothing.  When one of the three attributes is missing it raises
    AttributeError. *)
Theorem set_default_params_spec (u : UFO) :
  let r := _set_default_params u in
  lib (fst r) = lib u /\ features_text (fst r) = features_text u /\
  (forall a, dict_has (info (fst r)) a = dict_has (info u) a) /\
  ((forall g a d, In (g, a, d) DEFAULT_PARAMETERS -> dict_has (info u) a = true) ->
   snd r = Ok tt /\
   (forall g a d, In (g, a, d) DEFAULT_PARAMETERS ->
      exists v, dict_get (info u) a = Some v /\
                dict_get (info (fst r)) a = Some (if is_None v then d else v)) /\
   (forall a, (forall g d, ~ In (g, a, d) DEFAULT_PARAMETERS) ->
      dict_get (info (fst r)) a = dict_get (info u) a) /\
   _set_default_params (fst r) = (fst r, Ok tt)) /\
  (forall g a d, In (g, a, d) DEFAULT_PARAMETERS -> dict_has (info u) a = false ->
     snd r = Raise AttributeError).
Proof.
  intros r. subst r. unfold _set_default_params.
  destruct (set_default_loop_frame DEFAULT_PARAMETERS u) as (F1 & F2 & F3).
  split; [exact F1|]. split; [exact F2|]. split; [exact F3|]. split.
  - intros Hh.
    destruct default_parameters_table as (ND & Hd).
    destruct (set_default_loop_full DEFAULT_PARAMETERS ND Hd u) as (u' & E & Hv & Ho).
    { intros [[g a] d] He. apply (Hh g a d He). }
    rewrite E. cbn [fst snd]. split; [reflexivity|]. split; [exact Hv|]. split.
    + intros a Ha. apply Ho. intros Hin. apply in_map_iff in Hin as ([[g a'] d] & Ea & Hin).
      cbn [fst snd] in Ea. subst a'. exact (Ha g d Hin).
    + apply set_default_loop_fixed. intros g a d Hin.
      destruct (Hv g a d Hin) as (v & _ & Ev). eexists; split; [exact Ev|].
      destruct (is_None v) eqn:En; [|exact En].
      apply (Hd (g, a, d) Hin).
  - intros g a d Hin Ha. exact (set_default_loop_missing _ u g a d Hin Ha).
Qed.

(** ** Retraction, name by name *)

Lemma values_of_cons (n n0 : ustr) (v0 : value) (params : list (ustr * value)) :
  values_of n ((n0, v0) :: params) =
    if ustr_eqb n n0 then v0 :: values_of n params else values_of n params.
Proof. unfold values_of. simpl. destruct (ustr_eqb n n0); reflexivity. Qed.

Lemma dict_get_values_of (params : list (ustr * value)) (n : ustr) :
  dict_get params n = hd_error (values_of n params).
Proof.
  induction params as [|[n0 v0] params IH]; [reflexivity|].
  rewrite values_of_cons. simpl. destruct (ustr_eqb n n0); auto.
Qed.

Lemma values_of_delitem (params : list (ustr * value)) (name n : ustr) :
  values_of n (CustomParametersProxy.delitem params name) =
    if ustr_eqb n name then tl (values_of n params) else values_of n params.
Proof.
  induction params as [|[n0 v0] params IH]; simpl.
  - destruct (ustr_eqb n name); reflexivity.
  - rewrite values_of_cons.
    destruct (ustr_eqb name n0) eqn:E0.
    + apply ustr_eqb_eq in E0. subst n0.
      destruct (ustr_eqb n name); reflexivity.
    + rewrite values_of_cons, IH.
      destruct (ustr_eqb n n0) eqn:E1; [|reflexivity].
      apply ustr_eqb_eq in E1. subst n0.
      rewrite ustr_eqb_sym, E0. reflexivity.
Qed.

Lemma filter_delitem (f : ustr * value -> bool) (params : list (ustr * value))
    (name : ustr) :
  (forall v, f (name, v) = false) ->
  filter f (CustomParametersProxy.delitem params name) = filter f params.
Proof.
  intros Hf. induction params as [|[n0 v0] params IH]; simpl; [reflexivity|].
  destruct (ustr_eqb name n0) eqn:E0.
  - apply ustr_eqb_eq in E0. subst n0. rewrite Hf. reflexivity.
  - simpl. rewrite IH. reflexivity.
Qed.

Lemma unset_if_default_values (params : list (ustr * value)) (name n : ustr) d :
  values_of n (unset_if_default params name d) =
    if ustr_eqb n name
    then match values_of n params with
         | v :: vs => if py_eq v d then vs else v :: vs
         | [] => []
         end
    else values_of n params.
Proof.
  unfold unset_if_default, CustomParametersProxy.contains,
    CustomParametersProxy.getitem.
  rewrite dict_has_get, dict_get_values_of.
  destruct (ustr_eqb n name) eqn:E.
  - apply ustr_eqb_eq in E. subst n.
    destruct (values_of name params) as [|v vs] eqn:Ev; simpl; [exact Ev|].
    destruct (py_eq v d); [|exact Ev].
    rewrite values_of_delitem, ustr_eqb_refl, Ev. reflexivity.
  - destruct (values_of name params) as [|v vs]; simpl; [reflexivity|].
    destruct (py_eq v d); [|reflexivity].
    rewrite values_of_delitem, E. reflexivity.
Qed.

Lemma unset_if_default_filter (f : ustr * value -> bool)
    (params : list (ustr * value)) (name : ustr) d :
  (forall v, f (name, v) = false) ->
  filter f (unset_if_default params name d) = filter f params.
Proof.
  intros Hf. unfold unset_if_default.
  destruct (_ && _); [apply filter_delitem; exact Hf | reflexivity].
Qed.

(** The retraction loop over a table, for a name that no entry of the
    table has and for a name with one value. *)
Lemma unset_loop_other_names (f : ustr * value -> bool)
    (table : list (ustr * ustr * value)) :
  (forall g a d v, In (g, a, d) table -> f (g, v) = false) ->
  forall params,
    filter f (fold_left (fun params '(glyphs_name, ufo_name, default_value) =>
                let params := unset_if_default params glyphs_name default_value in
                unset_if_default params glyphs_name default_value)
              table params) = filter f params.
Proof.
  induction table as [|[[g a] d] table IH]; intros Hf params; simpl;
    [reflexivity|].
  rewrite IH.
  - rewrite !unset_if_default_filter; [reflexivity| |];
      intros v; apply (Hf g a d v); left; reflexivity.
  - intros g' a' d' v Hin. apply (Hf g' a' d' v). right; exact Hin.
Qed.

Lemma unset_loop_values_other (table : list (ustr * ustr * value)) (n : ustr) :
  (forall g a d, In (g, a, d) table -> n <> g) ->
  forall params,
    values_of n (fold_left (fun params '(glyphs_name, ufo_name, default_value) =>
                   let params := unset_if_default params glyphs_name default_value in
                   unset_if_default params glyphs_name default_value)
                 table params) = values_of n params.
Proof.
  induction table as [|[[g a] d] table IH]; intros Hn params; simpl;
    [reflexivity|].
  rewrite IH.
  - rewrite !unset_if_default_values.
    assert (E : ustr_eqb n g = false).
    { apply ustr_eqb_neq. apply (Hn g a d). left; reflexivity. }
    rewrite E. reflexivity.
  - intros g' a' d' Hin. apply (Hn g' a' d'). right; exact Hin.
Qed.

Lemma unset_loop_single_value (table : list (ustr * ustr * value)) :
  NoDup (map (fun e => fst (fst e)) table) ->
  forall params g a d v,
    In (g, a, d) table -> values_of g params = [v] ->
    values_of g (fold_left (fun params '(glyphs_name, ufo_name, default_value) =>
                   let params := unset_if_default params glyphs_name default_value in
                   unset_if_default params glyphs_name default_value)
                 table params) = if py_eq v d then [] else [v].
Proof.
  induction table as [|[[g0 a0] d0] table IH]; intros Hnd params g a d v Hin Hv;
    [destruct Hin|].
  simpl in Hnd. inversion Hnd as [|x l Hnot Hnd']; subst.
  simpl fold_left. destruct Hin as [Eq|Hin].
  - injection Eq as -> -> ->.
    rewrite unset_loop_values_other.
    + rewrite !unset_if_default_values, ustr_eqb_refl, Hv.
      destruct (py_eq v d) eqn:E; [reflexivity|]. rewrite E. reflexivity.
    + intros g' a' d' Hin' ->. apply Hnot.
      apply in_map_iff. exists (g', a', d'). auto.
  - apply (IH Hnd' _ g a d v Hin).
    rewrite !unset_if_default_values.
    assert (E : ustr_eqb g g0 = false).
    { apply ustr_eqb_neq. intros ->. apply Hnot.
      apply in_map_iff. exists (g0, a, d). auto. }
    rewrite E. exact Hv.
Qed.

(** X24.  Retraction works name by name, on the names of the default
    table only.  It adds nothing; the parameters under any other name
    are the same afterwards, in the same order; and a parameter whose
    name is in the table and occurs once is removed when its value
    equals the default of the table and kept when it differs. *)
Theorem unset_default_params_by_name (params : list (ustr * value)) :
  (forall q, In q (_unset_default_params params) -> In q params) /\
  (let other := fun q : ustr * value =>
                  negb (existsb (fun e => ustr_eqb (fst q) (fst (fst e)))
                                DEFAULT_PARAMETERS) in
   filter other (_unset_default_params params) = filter other params) /\
  (forall g a d v,
     In (g, a, d) DEFAULT_PARAMETERS -> values_of g params = [v] ->
     values_of g (_unset_default_params params) = if py_eq v d then [] else [v]).
Proof.
  split; [|split].
  - intros q. apply unset_default_params_subset.
  - cbv zeta. unfold _unset_default_params. apply unset_loop_other_names.
    intros g a d v Hin. apply negb_false_iff. apply existsb_exists.
    exists (g, a, d). split; [exact Hin | apply ustr_eqb_refl].
  - intros g a d v Hin Hv. unfold _unset_default_params.
    apply (unset_loop_single_value DEFAULT_PARAMETERS) with (a := a);
      [|exact Hin | exact Hv].
    unfold DEFAULT_PARAMETERS. simpl.
    repeat constructor; simpl; intros Hc;
      repeat (destruct Hc as [Hc|Hc]; [apply U_inj in Hc; discriminate Hc|]);
      exact Hc.
Qed.

Lemma for_each_app {A} (l1 l2 : list A) (f : A -> M unit) w :
  for_each (l1 ++ l2) f w = (for_each l1 f ;; for_each l2 f) w.
Proof.
  revert w; induction l1 as [|x l1 IH]; intros w; simpl.
  - reflexivity.
  - unfold bind. destruct (f x w) as [w1 [[]|e]]; [|reflexivity].
    rewrite IH. reflexivity.
Qed.

Section DriverFacts.
Context `{Imports}.

Lemma to_ufo_pass_after_handlers (ufo : UFO) (g : GSObject) (wh : world) :
  for_each KNOWN_PARAM_HANDLERS handler_to_ufo (init_world ufo g) = (wh, Ok tt) ->
  let u1 := mkUFO (info (ufo_owner wh))
                  (swept_lib (sub_key wh)
                     (GlyphsObjectProxy.unhandled_custom_parameters wh)
                     (lib (ufo_owner wh)))
                  (features_text (ufo_owner wh)) in
  to_ufo_custom_params ufo g =
    (set_ufo_owner (fst (_set_default_params u1)) wh, snd (_set_default_params u1)).
Proof.
  intros Eh u1. unfold to_ufo_custom_params, to_ufo_pass.
  rewrite (bind_run _ _ _ _ _ Eh).
  unfold bind at 1. unfold get_world at 1.
  unfold bind. rewrite leftover_to_ufo_loop.
  cbn [ufo_owner set_ufo_owner]. fold u1.
  destruct (_set_default_params u1) as [u2 r2]. destruct wh; reflexivity.
Qed.

Lemma to_glyphs_pass_after_handlers (ufo : UFO) (g : GSObject) (wh : world) :
  for_each KNOWN_PARAM_HANDLERS handler_to_glyphs (init_world ufo g) = (wh, Ok tt) ->
  to_glyphs_custom_params ufo g =
    (set_glyphs_owner
       (mkGSObject (class_name (glyphs_owner wh))
          (_unset_default_params
             (customParameters (glyphs_owner wh) ++
              swept_params (CUSTOM_PARAM_PREFIX ++ sub_key wh)
                           (UFOProxy.unhandled_lib_items wh)))
          (attributes (glyphs_owner wh))) wh,
     Ok tt).
Proof.
  intros Eh. unfold to_glyphs_custom_params, to_glyphs_pass.
  rewrite (bind_run _ _ _ _ _ Eh).
  unfold bind at 1. unfold get_world at 1.
  unfold bind. rewrite leftover_to_glyphs_loop.
  unfold unset_default_params_of_owner, modify. reflexivity.
Qed.

(** X25.  [to_ufo_custom_params] never changes the native object and
    never creates an info attribute, whatever its outcome; when it
    returns normally, the three attributes of the default table are set
    (none of them is None). *)
Theorem to_ufo_custom_params_frame (ufo : UFO) (g : GSObject) :
  let r := to_ufo_custom_params ufo g in
  glyphs_owner (fst r) = g /\
  (forall a, dict_has (info (ufo_owner (fst r))) a = dict_has (info ufo) a) /\
  (snd r = Ok tt ->
   forall g0 a d, In (g0, a, d) DEFAULT_PARAMETERS ->
     exists v, dict_get (info (ufo_owner (fst r))) a = Some v /\ is_None v = false).
Proof.
  intros r. subst r.
  pose proof (handlers_to_ufo_steps KNOWN_PARAM_HANDLERS (init_world ufo g)) as St.
  destruct (for_each KNOWN_PARAM_HANDLERS handler_to_ufo (init_world ufo g))
    as [wh [[]|e]] eqn:Eh; cbn [fst] in St;
    destruct St as (_ & Ho & _ & _ & _ & Hha & _).
  2:{ unfold to_ufo_custom_params, to_ufo_pass.
      rewrite (bind_run_raise _ _ _ _ _ Eh). cbn [fst snd].
      split; [exact Ho|]. split; [exact Hha | discriminate]. }
  rewrite (to_ufo_pass_after_handlers ufo g wh Eh). cbn [fst snd].
  set (u1 := mkUFO _ _ _).
  destruct (set_default_loop_frame DEFAULT_PARAMETERS u1) as (_ & _ & F3).
  fold (_set_default_params u1) in F3.
  cbn [glyphs_owner ufo_owner set_ufo_owner].
  split; [exact Ho|]. split.
  - intros a. rewrite F3. subst u1. cbn [info]. apply Hha.
  - intros Er g0 a d Hin.
    destruct default_parameters_table as (ND & Hd).
    assert (Hh : forall e, In e DEFAULT_PARAMETERS ->
                           dict_has (info u1) (snd (fst e)) = true).
    { intros [[g1 a1] d1] Hin1. cbn [fst snd].
      destruct (dict_has (info u1) a1) eqn:Ed; [reflexivity|].
      pose proof (set_default_loop_missing _ u1 g1 a1 d1 Hin1 Ed) as Em.
      fold (_set_default_params u1) in Em. congruence. }
    destruct (set_default_loop_full DEFAULT_PARAMETERS ND Hd u1 Hh) as (u' & E & Hv & _).
    fold (_set_default_params u1) in E. rewrite E. cbn [fst].
    destruct (Hv g0 a d Hin) as (v & _ & Ev). eexists; split; [exact Ev|].
    destruct (is_None v) eqn:En; [|exact En].
    exact (Hd (g0, a, d) Hin).
Qed.

(** X26.  [to_glyphs_custom_params] never changes the UFO nor the class
    of the native object, whatever its outcome, and a parameter that the
    object had before under a name that is not in the default table is
    still there afterwards. *)
Theorem to_glyphs_custom_params_frame (ufo : UFO) (g : GSObject) :
  let r := to_glyphs_custom_params ufo g in
  ufo_owner (fst r) = ufo /\
  class_name (glyphs_owner (fst r)) = class_name g /\
  (forall n v, In (n, v) (customParameters g) ->
     (forall g0 a d, In (g0, a, d) DEFAULT_PARAMETERS -> n <> g0) ->
     In (n, v) (customParameters (glyphs_owner (fst r)))).
Proof.
  intros r. subst r.
  pose proof (handlers_to_glyphs_steps (init_world ufo g)) as St.
  destruct (for_each KNOWN_PARAM_HANDLERS handler_to_glyphs (init_world ufo g))
    as [wh [[]|e]] eqn:Eh; cbn [fst] in St;
    destruct St as (_ & Hu & _ & _ & Hc & (extra & Hx & _) & _).
  2:{ unfold to_glyphs_custom_params, to_glyphs_pass.
      rewrite (bind_run_raise _ _ _ _ _ Eh). cbn [fst snd].
      split; [exact Hu|]. split; [exact Hc|].
      intros n v Hin _. rewrite Hx. apply in_or_app. left; exact Hin. }
  rewrite (to_glyphs_pass_after_handlers ufo g wh Eh).
  cbn [fst snd ufo_owner glyphs_owner set_glyphs_owner class_name customParameters].
  split; [exact Hu|]. split; [exact Hc|].
  intros n v Hin Hr. apply unset_default_params_keeps.
  - apply in_or_app. left. rewrite Hx. apply in_or_app. left; exact Hin.
  - intros g0 a d Hd E. destruct (Hr g0 a d Hd E).
Qed.

(** X27.  A single-valued parameter with more than one value aborts the
    pass to the UFO: when a registered handler of the generic kind finds
    two values or more under its short name, [to_ufo_custom_params]
    raises.  If the handlers registered before that one all return
    normally, the error is RuntimeError, and the UFO is left as those
    handlers made it: no leftover parameter is copied and no default is
    set. *)
Theorem to_ufo_custom_params_duplicate_aborts
    (ufo : UFO) (g : GSObject) (pre post : list Handler) (p : ParamHandler.t) :
  KNOWN_PARAM_HANDLERS = pre ++ Generic p :: post ->
  ParamHandler.glyphs_multivalued p = false ->
  (1 < length (values_of (ParamHandler.glyphs_name p) (customParameters g)))%nat ->
  let r := to_ufo_custom_params ufo g in
  (exists e, snd r = Raise e) /\
  (forall wa, for_each pre handler_to_ufo (init_world ufo g) = (wa, Ok tt) ->
     snd r = Raise RuntimeError /\ ufo_owner (fst r) = ufo_owner wa).
Proof.
  intros Hsplit Hm Hlen r. subst r.
  assert (G : forall wa,
            for_each pre handler_to_ufo (init_world ufo g) = (wa, Ok tt) ->
            exists w',
              for_each KNOWN_PARAM_HANDLERS handler_to_ufo (init_world ufo g)
                = (w', Raise RuntimeError) /\ ufo_owner w' = ufo_owner wa).
  { intros wa Ea. rewrite Hsplit, for_each_app, (bind_run _ _ _ _ _ Ea).
    pose proof (handlers_to_ufo_steps pre (init_world ufo g)) as St.
    rewrite Ea in St. cbn [fst] in St. destruct St as (_ & _ & S & _).
    assert (La : lookup_ok (customParameters g) wa).
    { eapply lookup_ok_same; [exact S | apply (init_lookup_ok g ufo []) | reflexivity]. }
    rewrite for_each_cons. cbn [handler_to_ufo].
    destruct (read_from_glyphs_single p wa Hm) as (lk1 & lk2 & _ & _ & R).
    cbv zeta in R. rewrite (La _) in R.
    destruct (values_of (ParamHandler.glyphs_name p) (customParameters g))
      as [|v1 [|v2 vs]]; [simpl in Hlen; lia | simpl in Hlen; lia |].
    cbn [single_value] in R.
    unfold ParamHandler.to_ufo, ParamHandler.to_ufo_via.
    eexists. split.
    - apply bind_run_raise. apply bind_run_raise. exact R.
    - reflexivity. }
  unfold to_ufo_custom_params, to_ufo_pass.
  destruct (for_each pre handler_to_ufo (init_world ufo g)) as [wa [[]|e]] eqn:Ea.
  - destruct (G wa eq_refl) as (w' & Ew & Eu).
    rewrite (bind_run_raise _ _ _ _ _ Ew). cbn [fst snd].
    split; [exists RuntimeError; reflexivity|].
    intros wa' [= <-]. split; [reflexivity | exact Eu].
  - assert (Ew : for_each KNOWN_PARAM_HANDLERS handler_to_ufo (init_world ufo g)
                 = (wa, Raise e)).
    { rewrite Hsplit, for_each_app. apply bind_run_raise. exact Ea. }
    rewrite (bind_run_raise _ _ _ _ _ Ew). cbn [fst snd].
    split; [exists e; reflexivity|]. intros wa' [=].
Qed.

End DriverFacts.

Lemma to_ufo_custom_params_duplicate_aborts_witness :
  let g := mkGSObject (U "GSFont")
             [(U "hheaAscender", VInt 800); (U "hheaAscender", VInt 900)] [] in
  snd (@to_ufo_custom_params sample_imports (fresh_ufo sample_info_attrs) g)
    = Raise RuntimeError.
Proof.
  intros g.
  destruct (@to_ufo_custom_params_duplicate_aborts sample_imports
              (fresh_ufo sample_info_attrs) g []
              (tl (@KNOWN_PARAM_HANDLERS sample_imports))
              (ParamHandler.init (U "hheaAscender") (Some (U "openTypeHheaAscender"))
                 (Some (U "openTypeHheaAscender")) false
                 (@CUSTOM_PARAM_PREFIX sample_imports) true VNone identity identity))
    as (_ & A).
  - vm_compute; reflexivity.
  - reflexivity.
  - simpl. lia.
  - exact (proj1 (A _ eq_refl)).
Defined.

(** * The round trip, end to end *)

(** ** The lib keys written on the way to the UFO *)

Section WrittenKeysFacts.
Context `{Imports}.









End WrittenKeysFacts.

(** ** The names asked for on the way to the UFO, the keys read on the
    way back *)

Section FineFootprints.
Context `{Imports}.











End FineFootprints.

(** ** Names the handlers consumed *)

Section NeverBack.
Context `{Imports}.



End NeverBack.

(** ** The OS/2 selection flags, there and back *)


Section FlagsRoundTrip.
Context `{Imports}.






End FlagsRoundTrip.

(** ** The filters, there and back *)

Section FiltersRoundTrip.
Context `{Imports}.






End FiltersRoundTrip.

(** ** The attributes of the native object, there and back *)





Section Attributes.
Context `{Imports}.















End Attributes.

(** ** Round trip through a new UFO *)

Section RoundTripAll.
Context `{Imports}.






End RoundTripAll.


